(** * Hidden Markov model inference engine ([hmm.py]): a shallow embedding

    The development follows [src/hmm.py] function by function.

    Numbers.  The program computes on NumPy [float64] values.  They are
    modelled as extended reals: a finite value carries a real number of
    the Standard Library, and the three IEEE special values (plus and
    minus infinity, not-a-number) are kept, with their arithmetic and
    their comparisons.  Rounding is not modelled: finite arithmetic is
    exact.

    Arrays.  A one-dimensional array is a list, a matrix a list of rows.
    Shapes are the ones the validated setters of the model guarantee;
    NumPy's vectorised expressions are written out as the maps they
    compute.

    Exceptions.  A call that can raise returns a [result]. *)

From Stdlib Require Import Ascii String.
From Stdlib Require Import Reals Lra List Bool Arith Lia ZArith.
Import ListNotations.
Open Scope R_scope.

(** ** Exceptions and the error monad *)

Inductive exn : Type :=
| ValueError (msg : string)
| IndexError
| AttributeError (msg : string)
| ZeroDivisionError.

Inductive result (A : Type) : Type :=
| Ok (a : A)
| Err (e : exn).
Arguments Ok {A} a.
Arguments Err {A} e.

Definition bind {A B : Type} (r : result A) (k : A -> result B) : result B :=
  match r with
  | Ok a => k a
  | Err e => Err e
  end.

Notation "x <- r ;; k" := (bind r (fun x => k))
  (at level 61, r at next level, right associativity).

(** ** Floating-point values *)

Inductive float : Type :=
| Fin (r : R)
| PInf
| NInf
| NaN.

Definition Rleb (a b : R) : bool := if Rle_dec a b then true else false.
Definition Rltb (a b : R) : bool := if Rlt_dec a b then true else false.
Arguments Rleb : simpl never.
Arguments Rltb : simpl never.

(** [x <= y] on floats: every comparison with NaN is false. *)
Definition fle (x y : float) : bool :=
  match x, y with
  | NaN, _ => false
  | _, NaN => false
  | NInf, _ => true
  | _, PInf => true
  | Fin a, Fin b => Rleb a b
  | _, _ => false
  end.

(** [x < y]. *)
Definition flt (x y : float) : bool :=
  match x, y with
  | NaN, _ => false
  | _, NaN => false
  | NInf, NInf => false
  | PInf, PInf => false
  | NInf, _ => true
  | _, PInf => true
  | Fin a, Fin b => Rltb a b
  | _, _ => false
  end.

Definition fge (x y : float) : bool := fle y x.
Definition fgt (x y : float) : bool := flt y x.

Definition feqb (x y : float) : bool := fle x y && fle y x.

Definition fneg (x : float) : float :=
  match x with
  | Fin a => Fin (- a)
  | PInf => NInf
  | NInf => PInf
  | NaN => NaN
  end.

Definition fadd (x y : float) : float :=
  match x, y with
  | NaN, _ => NaN
  | _, NaN => NaN
  | Fin a, Fin b => Fin (a + b)
  | PInf, NInf => NaN
  | NInf, PInf => NaN
  | PInf, _ => PInf
  | _, PInf => PInf
  | NInf, _ => NInf
  | _, NInf => NInf
  end.

Definition fsub (x y : float) : float := fadd x (fneg y).

(** The sign of a float that is not NaN: [1], [0] or [-1]. *)
Definition fsign (x : float) : Z :=
  match x with
  | Fin a => if Rltb 0 a then 1%Z else if Rltb a 0 then (-1)%Z else 0%Z
  | PInf => 1%Z
  | NInf => (-1)%Z
  | NaN => 0%Z
  end.

Definition finf (s : Z) : float :=
  match s with
  | Z0 => NaN
  | Zpos _ => PInf
  | Zneg _ => NInf
  end.

Definition fmul (x y : float) : float :=
  match x, y with
  | NaN, _ => NaN
  | _, NaN => NaN
  | Fin a, Fin b => Fin (a * b)
  | _, _ => finf (fsign x * fsign y)
  end.

(** NumPy's float division: a finite value divided by zero is an
    infinity (NaN for [0/0]), never an exception. *)
Definition fdiv (x y : float) : float :=
  match y with
  | NaN => NaN
  | Fin b =>
      match x with
      | NaN => NaN
      | Fin a => if Rltb 0 b || Rltb b 0 then Fin (a / b) else finf (fsign x)
      | _ => finf (fsign x * (if Rltb b 0 then -1 else 1))
      end
  | _ =>
      match x with
      | Fin _ => Fin 0
      | _ => NaN
      end
  end.

Definition fexp (x : float) : float :=
  match x with
  | Fin a => Fin (exp a)
  | PInf => PInf
  | NInf => Fin 0
  | NaN => NaN
  end.

(** [np.log]: the logarithm of zero is minus infinity, of a negative
    number NaN. *)
Definition flog (x : float) : float :=
  match x with
  | Fin a => if Rltb 0 a then Fin (ln a) else if Rltb a 0 then NaN else NInf
  | PInf => PInf
  | NInf => NaN
  | NaN => NaN
  end.

Definition fabs (x : float) : float :=
  match x with
  | Fin a => Fin (Rabs a)
  | PInf => PInf
  | NInf => PInf
  | NaN => NaN
  end.

Definition isnan (x : float) : bool :=
  match x with
  | NaN => true
  | _ => false
  end.

Definition of_nat (n : nat) : float := Fin (IZR (Z.of_nat n)).

(** [ZEROLOGPROB = -1e200]. *)
Definition zerologprob : R := - 1e200.
Arguments zerologprob : simpl never.
Definition ZEROLOGPROB : float := Fin zerologprob.

(** A log-probability or log-density: finite or minus infinity. *)
Definition logval (x : float) : Prop :=
  match x with
  | Fin _ => True
  | NInf => True
  | _ => False
  end.

(** ** NumPy and Python primitives *)

(** [np.maximum] and [np.minimum] on two floats; NaN propagates. *)
Definition fmaximum (x y : float) : float :=
  if isnan x then x else if isnan y then y else if fle y x then x else y.

Definition fminimum (x y : float) : float :=
  if isnan x then x else if isnan y then y else if fle x y then x else y.

(** [a.max()]: raises [ValueError] on an empty array. *)
Definition np_max (a : list float) : result float :=
  match a with
  | [] => Err (ValueError "zero-size array to reduction operation maximum")
  | x :: rest => Ok (fold_left fmaximum rest x)
  end.

(** [a.min()]. *)
Definition np_min (a : list float) : result float :=
  match a with
  | [] => Err (ValueError "zero-size array to reduction operation minimum")
  | x :: rest => Ok (fold_left fminimum rest x)
  end.

(** The scan of [argmax]: [(best value, its index)] after the elements
    of [a], which start at index [i]; a later element wins only when it
    is strictly greater, so the first occurrence of the maximum is
    kept. *)
Fixpoint argmax_from (a : list float) (i : nat) (best : float) (bi : nat) : nat :=
  match a with
  | [] => bi
  | x :: rest =>
      if fgt x best then argmax_from rest (S i) x i
      else argmax_from rest (S i) best bi
  end.

(** [a.argmax()]: raises [ValueError] on an empty array. *)
Definition np_argmax (a : list float) : result nat :=
  match a with
  | [] => Err (ValueError "attempt to get argmax of an empty sequence")
  | x :: rest => Ok (argmax_from rest 1 x 0)
  end.

(** [np.sum(a)]. *)
Definition np_sum (a : list float) : float := fold_left fadd a (Fin 0).

(** [np.cumsum(a)], with the running total [acc] before [a]. *)
Fixpoint cumsum_from (acc : float) (a : list float) : list float :=
  match a with
  | [] => []
  | x :: rest => fadd acc x :: cumsum_from (fadd acc x) rest
  end.

Definition np_cumsum (a : list float) : list float := cumsum_from (Fin 0) a.

(** [cumsum] of an integer array. *)
Fixpoint icumsum_from (acc : nat) (a : list nat) : list nat :=
  match a with
  | [] => []
  | x :: rest => (acc + x)%nat :: icumsum_from (acc + x) rest
  end.

(** Elementwise sum of two vectors of one shape. *)
Fixpoint vadd (a b : list float) : list float :=
  match a, b with
  | x :: a', y :: b' => fadd x y :: vadd a' b'
  | _, _ => []
  end.

(** [np.nonzero(mask)] for a mask computed elementwise by [p]: the
    indices, in increasing order, of the elements that satisfy [p];
    [i] is the index of the head of [a]. *)
Fixpoint nonzero_from (p : float -> bool) (a : list float) (i : nat) : list nat :=
  match a with
  | [] => []
  | x :: rest =>
      if p x then i :: nonzero_from p rest (S i) else nonzero_from p rest (S i)
  end.

Definition np_nonzero (p : float -> bool) (a : list float) : list nat :=
  nonzero_from p a 0.

(** Python's built-in [max(a, b)]: [b] only when [b > a]. *)
Definition pymax (a b : float) : float := if fgt b a then b else a.

(** Element [i] of a vector and element [(i, j)] of a matrix. *)
Definition vget (a : list float) (i : nat) : float := nth i a NaN.
Definition mget (m : list (list float)) (i j : nat) : float := vget (nth i m []) j.

(** Boolean-mask indexing [a[mask]]: the elements of [a] at the
    positions where [mask] is true.  The NumPy of this program accepts a
    mask shorter than the array: the positions beyond the mask select
    nothing. *)
Fixpoint mask_select (mask : list bool) (a : list float) : list float :=
  match mask, a with
  | b :: mask', x :: a' =>
      if b then x :: mask_select mask' a' else mask_select mask' a'
  | _, _ => []
  end.

(** [np.linspace(start, stop, num)] with the end point included: the
    last element is [stop] itself. *)
Definition linspace (start stop : float) (num : nat) : list float :=
  match num with
  | O => []
  | S O => [start]
  | S m =>
      let step := fdiv (fsub stop start) (of_nat m) in
      map (fun i => fadd (fmul (of_nat i) step) start) (seq 0 m) ++ [stop]
  end.

Definition count (p : float -> bool) (a : list float) : nat :=
  length (filter p a).

(** Bin [k] of a histogram with [bins] bins on [edges]: half-open
    [[e_k, e_{k+1})], except the last bin, which is closed. *)
Definition in_bin (edges : list float) (bins k : nat) (v : float) : bool :=
  fle (vget edges k) v &&
  (if (S k =? bins)%nat then fle v (vget edges (S k)) else flt v (vget edges (S k))).

(** [np.histogram(a, bins=bins, range=(mn, mx), new=True)]: the counts
    per bin and the [bins + 1] bin edges. *)
Definition np_histogram (a : list float) (bins : nat) (range : float * float)
  : result (list nat * list float) :=
  let '(mn, mx) := range in
  if fgt mn mx
  then Err (AttributeError "max must be larger than min in range parameter.")
  else
    let '(mn, mx) :=
      if feqb mn mx then (fsub mn (Fin (1 / 2)), fadd mx (Fin (1 / 2))) else (mn, mx) in
    let edges := linspace mn mx (S bins) in
    Ok (map (fun k => count (in_bin edges bins k) a) (seq 0 bins), edges).

(** ** Log-domain summation *)

(** Modelled from the spec: [logsum] is imported from the module [gmm],
    which is not part of the sources.  The specification (4.1) gives
    [logSumExp] as [log (sum (exp x_i))] computed stably -- the maximum
    is subtracted before exponentiating and added back -- and requires
    minus infinity, not an invalid value, on an input that is all minus
    infinity. *)
Definition logsum (a : list float) : float :=
  let amax := fold_left fmaximum a NInf in
  if feqb amax NInf then NInf
  else fadd (flog (np_sum (map (fun x => fexp (fsub x amax)) a))) amax.

(** ** The model *)

(** The attributes of a [_BaseHMM] object that inference reads. *)
Record hmm : Type := {
  _nstates : nat;
  _log_startprob : list float;
  _log_transmat : list (list float)
}.

(** A Python value used as a condition: [None] and [0] are false. *)
Definition truthy (maxrank : option Z) : bool :=
  match maxrank with
  | None => false
  | Some k => negb (k =? 0)%Z
  end.

Definition rank_of (maxrank : option Z) : Z :=
  match maxrank with
  | None => 0%Z
  | Some k => k
  end.

(** The rank-pruning branch of [_prune_states] (the body of
    [if maxrank:]), which computes [rankthresh]. *)
Definition rank_threshold (self : hmm) (lattice_frame : list float) (maxrank : Z)
  : result float :=
  let nbins := (3 * length lattice_frame)%nat in
  m <- np_min (filter (fun x => fgt x ZEROLOGPROB) lattice_frame) ;;
  let lattice_min := fsub m (Fin 1) in
  mx <- np_max lattice_frame ;;
  hc <- np_histogram lattice_frame nbins (lattice_min, mx) ;;
  let hst := icumsum_from 0 (rev (fst hc)) in
  let cdf := rev (snd hc) in
  np_max (mask_select
            (map (fun h => (Z.min maxrank (Z.of_nat (_nstates self)) <=? Z.of_nat h)%Z) hst)
            cdf).

(** [_BaseHMM._prune_states]: the indices of the active states of
    [lattice_frame] after rank and beam pruning. *)
Definition _prune_states (self : hmm) (lattice_frame : list float)
  (maxrank : option Z) (beamlogprob : float) : result (list nat) :=
  let threshlogprob := fadd (logsum lattice_frame) beamlogprob in
  threshlogprob <-
    (if truthy maxrank
     then rankthresh <- rank_threshold self lattice_frame (rank_of maxrank) ;;
          Ok (pymax threshlogprob rankthresh)
     else Ok threshlogprob) ;;
  Ok (np_nonzero (fun x => fge x threshlogprob) lattice_frame).


(** ** The inference passes *)

Fixpoint mapM {A B : Type} (f : A -> result B) (l : list A) : result (list B) :=
  match l with
  | [] => Ok []
  | x :: rest => y <- f x ;; ys <- mapM f rest ;; Ok (y :: ys)
  end.

(** [lattice[lattice <= ZEROLOGPROB] = -np.Inf]. *)
Definition clamp (x : float) : float := if fle x ZEROLOGPROB then NInf else x.
Definition clamp_lattice (lattice : list (list float)) : list (list float) :=
  map (map clamp) lattice.

(** Column [d] of [self._log_transmat[idx].T + lattice[n-1, idx]]: one
    entry per active source state, in the order of [idx]. *)
Definition pr_row (self : hmm) (prev : list float) (idx : list nat) (d : nat)
  : list float :=
  map (fun s => fadd (mget (_log_transmat self) s d) (vget prev s)) idx.

(** One iteration of the loop of [_do_forward_pass]: the row
    [fwdlattice[n]] from [fwdlattice[n-1]] and [framelogprob[n]]. *)
Definition forward_step (self : hmm) (maxrank : option Z) (beamlogprob : float)
  (prev frame : list float) : result (list float) :=
  idx <- _prune_states self prev maxrank beamlogprob ;;
  Ok (vadd (map (fun d => logsum (pr_row self prev idx d)) (seq 0 (_nstates self)))
           frame).

(** The loop [for n in xrange(1, nobs)] of [_do_forward_pass], on the
    frames that remain after the one that produced [prev]. *)
Fixpoint forward_rows (self : hmm) (maxrank : option Z) (beamlogprob : float)
  (prev : list float) (frames : list (list float)) : result (list (list float)) :=
  match frames with
  | [] => Ok []
  | frame :: rest =>
      row <- forward_step self maxrank beamlogprob prev frame ;;
      rows <- forward_rows self maxrank beamlogprob row rest ;;
      Ok (row :: rows)
  end.

(** [_BaseHMM._do_forward_pass]: [(logprob, fwdlattice)].  Indexing row
    [0] of a lattice without rows raises [IndexError]. *)
Definition _do_forward_pass (self : hmm) (framelogprob : list (list float))
  (maxrank : option Z) (beamlogprob : float) : result (float * list (list float)) :=
  match framelogprob with
  | [] => Err IndexError
  | frame0 :: rest =>
      let row0 := vadd (_log_startprob self) frame0 in
      rows <- forward_rows self maxrank beamlogprob row0 rest ;;
      let fwdlattice := clamp_lattice (row0 :: rows) in
      Ok (logsum (last fwdlattice []), fwdlattice)
  end.

(** One iteration of the loop of [_do_viterbi_pass]: the rows
    [lattice[n]] and [traceback[n]]. *)
Definition viterbi_step (self : hmm) (maxrank : option Z) (beamlogprob : float)
  (prev frame : list float) : result (list float * list nat) :=
  idx <- _prune_states self prev maxrank beamlogprob ;;
  mx <- mapM (fun d => np_max (pr_row self prev idx d)) (seq 0 (_nstates self)) ;;
  am <- mapM (fun d => np_argmax (pr_row self prev idx d)) (seq 0 (_nstates self)) ;;
  Ok (vadd mx frame, am).

Fixpoint viterbi_rows (self : hmm) (maxrank : option Z) (beamlogprob : float)
  (prev : list float) (frames : list (list float))
  : result (list (list float * list nat)) :=
  match frames with
  | [] => Ok []
  | frame :: rest =>
      row <- viterbi_step self maxrank beamlogprob prev frame ;;
      rows <- viterbi_rows self maxrank beamlogprob (fst row) rest ;;
      Ok (row :: rows)
  end.

(** The traceback loop
    [for frame in reversed(traceback): reverse_state_sequence.append(s); s = frame[s]],
    on the rows of [traceback] from the last to the first. *)
Fixpoint walk_traceback (reversed_traceback : list (list nat)) (s : nat) : list nat :=
  match reversed_traceback with
  | [] => []
  | frame :: rest => s :: walk_traceback rest (nth s frame O)
  end.

(** The lattice and the traceback table of [_do_viterbi_pass], before
    the lattice is clamped. *)
Definition viterbi_tables (self : hmm) (framelogprob : list (list float))
  (maxrank : option Z) (beamlogprob : float)
  : result (list (list float) * list (list nat)) :=
  match framelogprob with
  | [] => Err IndexError
  | frame0 :: rest =>
      let row0 := vadd (_log_startprob self) frame0 in
      rows <- viterbi_rows self maxrank beamlogprob row0 rest ;;
      Ok (row0 :: map fst rows, repeat O (_nstates self) :: map snd rows)
  end.

(** [_BaseHMM._do_viterbi_pass]: [(logprob, state_sequence)]. *)
Definition _do_viterbi_pass (self : hmm) (framelogprob : list (list float))
  (maxrank : option Z) (beamlogprob : float) : result (float * list nat) :=
  tables <- viterbi_tables self framelogprob maxrank beamlogprob ;;
  let lattice := clamp_lattice (fst tables) in
  let traceback := snd tables in
  s <- np_argmax (last lattice []) ;;
  let reverse_state_sequence := walk_traceback (rev traceback) s in
  Ok (logsum (last lattice []), rev reverse_state_sequence).

(** Row [i] of
    [self._log_transmat[:,idx] + bwdlattice[n,idx] + framelogprob[n,idx]]. *)
Definition bwd_row (self : hmm) (bwd frame : list float) (idx : list nat) (i : nat)
  : list float :=
  map (fun j => fadd (fadd (mget (_log_transmat self) i j) (vget bwd j)) (vget frame j))
      idx.

(** One iteration of the loop of [_do_backward_pass]: the row
    [bwdlattice[n-1]] from [bwdlattice[n]], [fwdlattice[n]] and
    [framelogprob[n]].  The pruning arguments are the constants of the
    source: no rank pruning and a beam of [-50]. *)
Definition backward_step (self : hmm) (bwd fwd frame : list float)
  : result (list float) :=
  idx <- _prune_states self (vadd bwd fwd) None (Fin (-50)) ;;
  Ok (map (fun i => logsum (bwd_row self bwd frame idx i)) (seq 0 (_nstates self))).

(** The loop [for n in xrange(nobs - 1, 0, -1)]: [pairs] holds
    [(fwdlattice[n], framelogprob[n])] for [n = k, ..., nobs - 1], and
    the result is the rows [k - 1, ..., nobs - 1] of [bwdlattice]; the
    last row keeps the zeros it was created with. *)
Fixpoint backward_rows (self : hmm) (pairs : list (list float * list float))
  : result (list (list float)) :=
  match pairs with
  | [] => Ok [repeat (Fin 0) (_nstates self)]
  | (fwd, frame) :: rest =>
      rows <- backward_rows self rest ;;
      row <- backward_step self (hd [] rows) fwd frame ;;
      Ok (row :: rows)
  end.

(** [_BaseHMM._do_backward_pass]; [maxrank] and [beamlogprob] are
    parameters of the method. *)
Definition _do_backward_pass (self : hmm) (framelogprob fwdlattice : list (list float))
  (maxrank : option Z) (beamlogprob : float) : result (list (list float)) :=
  match framelogprob with
  | [] => Ok []
  | _ :: _ =>
      rows <- backward_rows self (tl (combine fwdlattice framelogprob)) ;;
      Ok (clamp_lattice rows)
  end.

(** ** The public inference methods *)

Section Facade.

  (** The emission distribution of a subclass:
      [_compute_log_likelihood] maps the observations to the matrix of
      per-frame, per-state log-likelihoods. *)
  Context {observations : Type}.
  Variable _compute_log_likelihood : observations -> list (list float).

  (** [gamma = fwdlattice + bwdlattice]. *)
Definition madd (a b : list (list float)) : list (list float) :=
    map (fun p => vadd (fst p) (snd p)) (combine a b).

  (** A row of [np.exp(gamma.T - logsum(gamma, axis=1)).T]. *)
Definition normalize_frame (g : list float) : list float :=
    map (fun x => fexp (fsub x (logsum g))) g.


  (** [_BaseHMM.eval]: [(logprob, posteriors)]. *)
Definition eval (self : hmm) (obs : observations) (maxrank : option Z)
    (beamlogprob : float) : result (float * list (list float)) :=
    let framelogprob := _compute_log_likelihood obs in
    fwd <- _do_forward_pass self framelogprob maxrank beamlogprob ;;
    bwdlattice <- _do_backward_pass self framelogprob (snd fwd) maxrank beamlogprob ;;
    let gamma := madd (snd fwd) bwdlattice in
    Ok (fst fwd, map normalize_frame gamma).

  (** [_BaseHMM.lpdf]. *)
Definition lpdf (self : hmm) (obs : observations) (maxrank : option Z)
    (beamlogprob : float) : result float :=
    let framelogprob := _compute_log_likelihood obs in
    fwd <- _do_forward_pass self framelogprob maxrank beamlogprob ;;
    Ok (fst fwd).

  (** [_BaseHMM.decode]. *)
Definition decode (self : hmm) (obs : observations) (maxrank : option Z)
    (beamlogprob : float) : result (float * list nat) :=
    let framelogprob := _compute_log_likelihood obs in
    _do_viterbi_pass self framelogprob maxrank beamlogprob.

End Facade.

(** ** The parameter store: the object and its properties

    The properties [startprob] and [transmat] build a new array on
    every read, and the setters bind the attribute to a new array, so
    which array a statement writes to matters.  The arrays therefore
    live in a heap and the attributes of the object hold addresses. *)

Inductive ndarray : Type :=
| Arr1 (v : list float)
| Arr2 (m : list (list float)).

(** What the setter of [trainer] reads of a trainer object (the module
    [hmm_trainers] is not part of the sources). *)
Record trainer_obj : Type := { trainer_emission_type : string }.

Record object : Type := {
  heap : list ndarray;
  emission_type : string;
  self_nstates : nat;
  self_log_startprob : option nat;
  self_log_transmat : option nat;
  self_labels : option (list (option string));
  self_trainer : option trainer_obj
}.

(** A method that reads and writes the object and can raise. *)
Definition M (A : Type) : Type := object -> result A * object.

Definition ret {A : Type} (a : A) : M A := fun self => (Ok a, self).
Definition raise {A : Type} (e : exn) : M A := fun self => (Err e, self).
Definition bindM {A B : Type} (m : M A) (k : A -> M B) : M B :=
  fun self =>
    match m self with
    | (Ok a, self') => k a self'
    | (Err e, self') => (Err e, self')
    end.

Notation "x <~ m ;; k" := (bindM m (fun x => k))
  (at level 61, m at next level, right associativity).

(** Allocation of a new array: its address is the next free one. *)
Definition alloc (a : ndarray) : M nat :=
  fun self =>
    (Ok (List.length (heap self)),
     {| heap := heap self ++ [a];
        emission_type := emission_type self;
        self_nstates := self_nstates self;
        self_log_startprob := self_log_startprob self;
        self_log_transmat := self_log_transmat self;
        self_labels := self_labels self;
        self_trainer := self_trainer self |}).

Fixpoint list_set {A : Type} (l : list A) (i : nat) (x : A) : list A :=
  match l, i with
  | [], _ => []
  | _ :: rest, O => x :: rest
  | y :: rest, S i' => y :: list_set rest i' x
  end.

(** [a[:] = c] on the array at address [addr]: every element of that
    array is overwritten, no other array is touched. *)
Definition setitem_all (addr : nat) (c : float) : M unit :=
  fun self =>
    match nth_error (heap self) addr with
    | None => (Err IndexError, self)
    | Some a =>
        let a' := match a with
                  | Arr1 v => Arr1 (map (fun _ => c) v)
                  | Arr2 m => Arr2 (map (map (fun _ => c)) m)
                  end in
        (Ok tt,
         {| heap := list_set (heap self) addr a';
            emission_type := emission_type self;
            self_nstates := self_nstates self;
            self_log_startprob := self_log_startprob self;
            self_log_transmat := self_log_transmat self;
            self_labels := self_labels self;
            self_trainer := self_trainer self |})
    end.

Definition no_attribute {A : Type} (name : string) : M A :=
  raise (AttributeError name).

(** The array an attribute refers to. *)
Definition deref (ref : option nat) (name : string) : M ndarray :=
  fun self =>
    match ref with
    | None => no_attribute name self
    | Some addr =>
        match nth_error (heap self) addr with
        | Some a => (Ok a, self)
        | None => (Err IndexError, self)
        end
    end.

Definition arr_map (f : float -> float) (a : ndarray) : ndarray :=
  match a with
  | Arr1 v => Arr1 (map f v)
  | Arr2 m => Arr2 (map (map f) m)
  end.

(** The getter of the property [startprob]:
    [np.exp(self._log_startprob)], a new array. *)
Definition get_startprob : M nat :=
  fun self =>
    (a <~ deref (self_log_startprob self) "_log_startprob" ;;
     alloc (arr_map fexp a)) self.

(** The getter of the property [transmat]. *)
Definition get_transmat : M nat :=
  fun self =>
    (a <~ deref (self_log_transmat self) "_log_transmat" ;;
     alloc (arr_map fexp a)) self.

Definition bind_log_startprob (addr : nat) : M unit :=
  fun self =>
    (Ok tt,
     {| heap := heap self;
        emission_type := emission_type self;
        self_nstates := self_nstates self;
        self_log_startprob := Some addr;
        self_log_transmat := self_log_transmat self;
        self_labels := self_labels self;
        self_trainer := self_trainer self |}).

Definition bind_log_transmat (addr : nat) : M unit :=
  fun self =>
    (Ok tt,
     {| heap := heap self;
        emission_type := emission_type self;
        self_nstates := self_nstates self;
        self_log_startprob := self_log_startprob self;
        self_log_transmat := Some addr;
        self_labels := self_labels self;
        self_trainer := self_trainer self |}).

Definition bind_labels (labels : list (option string)) : M unit :=
  fun self =>
    (Ok tt,
     {| heap := heap self;
        emission_type := emission_type self;
        self_nstates := self_nstates self;
        self_log_startprob := self_log_startprob self;
        self_log_transmat := self_log_transmat self;
        self_labels := Some labels;
        self_trainer := self_trainer self |}).

Definition bind_trainer (t : trainer_obj) : M unit :=
  fun self =>
    (Ok tt,
     {| heap := heap self;
        emission_type := emission_type self;
        self_nstates := self_nstates self;
        self_log_startprob := self_log_startprob self;
        self_log_transmat := self_log_transmat self;
        self_labels := self_labels self;
        self_trainer := Some t |}).

(** Python's [1.0 / n] for an integer [n]. *)
Definition pydiv_one (n : nat) : result float :=
  match n with
  | O => Err ZeroDivisionError
  | S _ => Ok (Fin (1 / IZR (Z.of_nat n)))
  end.

Definition lift {A : Type} (r : result A) : M A := fun self => (r, self).

(** ['c' in params] for a one-character string ['c']. *)
Fixpoint char_in (c : Ascii.ascii) (params : string) : bool :=
  match params with
  | EmptyString => false
  | String c' rest => if Ascii.eqb c c' then true else char_in c rest
  end.

Section Store.

  (** Modelled from the spec: [almost_equal] is imported from the module
      [gmm], which is not part of the sources.  The specification (3, 7)
      asks for a sum equal to one "within tolerance"; the tolerance
      [eps] is a parameter. *)
  Variable eps : R.

Definition almost_equal (actual desired : float) : bool :=
    flt (fabs (fsub desired actual)) (Fin eps).

  (** The setter of the property [startprob]. *)
Definition set_startprob (startprob : list float) : M unit :=
    fun self =>
      if negb (List.length startprob =? self_nstates self)%nat
      then raise (ValueError "startprob must have length nstates") self
      else if negb (almost_equal (np_sum startprob) (Fin 1))
      then raise (ValueError "startprob must sum to 1.0") self
      else (addr <~ alloc (Arr1 (map flog startprob)) ;;
            bind_log_startprob addr) self.

  (** [np.asarray(transmat).shape == (n, n)] for a matrix given by its
      rows: an empty or ragged list of rows is not two-dimensional. *)
Definition has_shape (transmat : list (list float)) (n : nat) : bool :=
    match transmat with
    | [] => false
    | _ :: _ =>
        (List.length transmat =? n)%nat
        && forallb (fun row => (List.length row =? n)%nat) transmat
    end.

  (** The setter of the property [transmat]; a NaN logarithm is replaced
      by minus infinity. *)
Definition set_transmat (transmat : list (list float)) : M unit :=
    fun self =>
      if negb (has_shape transmat (self_nstates self))
      then raise (ValueError "transmat must have shape (nstates, nstates)") self
      else if negb (forallb (fun row => almost_equal (np_sum row) (Fin 1)) transmat)
      then raise (ValueError "each row of transmat must sum to 1.0") self
      else (addr <~ alloc (Arr2 (map (map (fun x => let y := flog x in
                                                     if isnan y then NInf else y))
                                      transmat)) ;;
            bind_log_transmat addr) self.

  (** The setter of the property [trainer]. *)
Definition set_trainer (t : trainer_obj) : M unit :=
    fun self =>
      if negb (String.eqb (emission_type self) (trainer_emission_type t))
      then raise (ValueError "trainer has incompatible emission_type") self
      else bind_trainer t self.

  (** The object as [__init__] finds it: no attribute is bound yet. *)
Definition new_object (h : list ndarray) (etype : string) (nstates : nat) : object :=
    {| heap := h;
       emission_type := etype;
       self_nstates := nstates;
       self_log_startprob := None;
       self_log_transmat := None;
       self_labels := None;
       self_trainer := None |}.

  (** The body of [_BaseHMM.__init__] after [self._nstates = nstates]. *)
Definition init_body (startprob : option (list float))
    (transmat : option (list (list float))) (labels : option (list (option string)))
    (t : trainer_obj) : M unit :=
    fun self =>
      (startprob <~ match startprob with
                    | Some v => ret v
                    | None => c <~ lift (pydiv_one (self_nstates self)) ;;
                              ret (repeat c (self_nstates self))
                    end ;;
       _ <~ set_startprob startprob ;;
       transmat <~ match transmat with
                   | Some m => ret m
                   | None => c <~ lift (pydiv_one (self_nstates self)) ;;
                             ret (repeat (repeat c (self_nstates self)) (self_nstates self))
                   end ;;
       _ <~ set_transmat transmat ;;
       _ <~ bind_labels match labels with
                        | Some l => l
                        | None => repeat None (self_nstates self)
                        end ;;
       set_trainer t) self.

  (** [_BaseHMM.__init__]: the constructed object, or the exception that
      leaves no object. *)
Definition __init__ (h : list ndarray) (etype : string) (nstates : nat)
    (startprob : option (list float)) (transmat : option (list (list float)))
    (labels : option (list (option string))) (t : trainer_obj) : result object :=
    match init_body startprob transmat labels t (new_object h etype nstates) with
    | (Ok _, self) => Ok self
    | (Err e, _) => Err e
    end.

  (** [prop[:] = c] for a property [prop] of the object: the getter is
      called, and the slice of the array it returns is assigned. *)
Definition assign_slice (getter : M nat) (c : float) : M unit :=
  a <~ getter ;; setitem_all a c.

  (** [_BaseHMM._init]: under ['s'] and ['t'] the statements
      [self.startprob[:] = 1.0 / self._nstates] and
      [self.transmat[:] = 1.0 / self._nstates]; the right-hand side is
      evaluated first. *)
Definition _init (params : string) : M unit :=
  fun self =>
    (_ <~ (if char_in "s"%char params
           then c <~ lift (pydiv_one (self_nstates self)) ;;
                assign_slice get_startprob c
           else ret tt) ;;
     if char_in "t"%char params
     then c <~ lift (pydiv_one (self_nstates self)) ;;
          assign_slice get_transmat c
     else ret tt) self.

  (** [_BaseHMM.init]. *)
Definition init (params : string) : M unit := _init params.

  (** The values of the properties as a caller reads them: the array
      the getter returns. *)
Definition read_startprob (self : object) : result ndarray :=
    match get_startprob self with
    | (Ok addr, self') =>
        match nth_error (heap self') addr with
        | Some a => Ok a
        | None => Err IndexError
        end
    | (Err e, _) => Err e
    end.

Definition read_transmat (self : object) : result ndarray :=
    match get_transmat self with
    | (Ok addr, self') =>
        match nth_error (heap self') addr with
        | Some a => Ok a
        | None => Err IndexError
        end
    | (Err e, _) => Err e
    end.

End Store.

(** The attributes that inference reads, taken out of the heap. *)
Definition hmm_of (self : object) : option hmm :=
  match self_log_startprob self, self_log_transmat self with
  | Some a, Some b =>
      match nth_error (heap self) a, nth_error (heap self) b with
      | Some (Arr1 v), Some (Arr2 m) =>
          Some {| _nstates := self_nstates self;
                  _log_startprob := v;
                  _log_transmat := m |}
      | _, _ => None
      end
  | _, _ => None
  end.

(** ** Sampling *)

Section Sampler.

  (** The random generator of [np.random] and the emission distribution
      of a subclass: [rand] draws a uniform number of [[0, 1)], and
      [_generate_sample_from_state] draws one observation, both from the
      state of the generator. *)
  Context {rng sample : Type}.
  Variable rand : rng -> float * rng.
  Variable _generate_sample_from_state : nat -> rng -> sample * rng.

  (** [mask.argmax()] on a boolean array: the first true position, [0]
      when there is none; an empty array raises. *)
Fixpoint first_true (mask : list bool) (i : nat) : nat :=
    match mask with
    | [] => O
    | b :: rest => if b then i else first_true rest (S i)
    end.

Definition bool_argmax (mask : list bool) : result nat :=
    match mask with
    | [] => Err (ValueError "attempt to get argmax of an empty sequence")
    | _ :: _ => Ok (first_true mask 0)
    end.

  (** The loop [for x in xrange(n-1)] of [rvs], with [k] iterations
      left. *)
Fixpoint rvs_loop (transmat_cdf : list (list float)) (k : nat) (currstate : nat)
    (g : rng) : result (list sample * rng) :=
    match k with
    | O => Ok ([], g)
    | S k' =>
        let (r, g1) := rand g in
        currstate <- bool_argmax (map (fun c => fgt c r) (nth currstate transmat_cdf [])) ;;
        let (o, g2) := _generate_sample_from_state currstate g1 in
        rest <- rvs_loop transmat_cdf k' currstate g2 ;;
        Ok (o :: fst rest, snd rest)
    end.

  (** [_BaseHMM.rvs]; [xrange(n-1)] is empty for [n = 0]. *)
Definition rvs (self : hmm) (n : nat) (g : rng) : result (list sample * rng) :=
    let startprob_pdf := map fexp (_log_startprob self) in
    let startprob_cdf := np_cumsum startprob_pdf in
    let transmat_pdf := map (map fexp) (_log_transmat self) in
    let transmat_cdf := map np_cumsum transmat_pdf in
    let (r, g1) := rand g in
    currstate <- bool_argmax (map (fun c => fgt c r) startprob_cdf) ;;
    let (o, g2) := _generate_sample_from_state currstate g1 in
    rest <- rvs_loop transmat_cdf (n - 1) currstate g2 ;;
    Ok (o :: fst rest, snd rest).

End Sampler.

(** ** Predicates used in the statements *)

(** Every row of the cumulative transition matrix is as long as the
    matrix and is not empty. *)
Definition rows_nonempty (cdf : list (list float)) : Prop :=
  forall i, (i < List.length cdf)%nat ->
    nth i cdf [] <> [] /\ (List.length (nth i cdf []) = List.length cdf)%nat.

(** The attributes of the object that are bound refer to arrays of the
    heap. *)
Definition wf_object (self : object) : Prop :=
  (forall a, self_log_startprob self = Some a -> (a < List.length (heap self))%nat)
  /\ (forall a, self_log_transmat self = Some a -> (a < List.length (heap self))%nat).

(** A vector of log-probabilities of length [n]. *)
Definition logvec (n : nat) (v : list float) : Prop :=
  List.length v = n /\ Forall logval v.

(** The shapes and the value range of the stored parameters of a model:
    [_log_startprob] has [nstates] entries and [_log_transmat] is
    [nstates] by [nstates], all of them log-probabilities. *)
Definition well_formed (self : hmm) : Prop :=
  logvec (_nstates self) (_log_startprob self)
  /\ List.length (_log_transmat self) = _nstates self
  /\ Forall (logvec (_nstates self)) (_log_transmat self).

(** A matrix of frame log-likelihoods for a model of [n] states. *)
Definition frames_ok (n : nat) (framelogprob : list (list float)) : Prop :=
  Forall (logvec n) framelogprob.

(** ** The forward lattice of the specification

    The recursion of the specification (4.3) without pruning: the first
    row is [logStartProb + frameLogLik[0]], and every later row sums,
    for each destination state, over all source states. *)

Definition all_states (self : hmm) : list nat := seq 0 (_nstates self).

Definition unpruned_row (self : hmm) (prev frame : list float) : list float :=
  vadd (map (fun d =>
               logsum (map (fun s => fadd (mget (_log_transmat self) s d) (vget prev s))
                           (all_states self)))
            (all_states self))
       frame.

Fixpoint unpruned_rows (self : hmm) (prev : list float) (frames : list (list float))
  : list (list float) :=
  match frames with
  | [] => []
  | frame :: rest =>
      let row := unpruned_row self prev frame in
      row :: unpruned_rows self row rest
  end.

Definition unpruned_forward_lattice (self : hmm) (framelogprob : list (list float))
  : list (list float) :=
  match framelogprob with
  | [] => []
  | frame0 :: rest =>
      let row0 := vadd (_log_startprob self) frame0 in
      row0 :: unpruned_rows self row0 rest
  end.

(** ** The rank threshold of the specification

    The wording of the specification (4.2): on the histogram of the
    frame ([3 * stateCount] bins from just below the minimum finite
    value to the maximum), the rank threshold is the smallest bin edge
    such that the number of states at or above it reaches
    [min(maxRank, stateCount)]. *)




(** ** Example models *)

(** The two-state model with uniform [startprob] and [transmat]: every
    stored logarithm is [log (1/2) = - log 2]. *)
Definition uniform2 : hmm :=
  {| _nstates := 2;
     _log_startprob := [Fin (- ln 2); Fin (- ln 2)];
     _log_transmat := [[Fin (- ln 2); Fin (- ln 2)]; [Fin (- ln 2); Fin (- ln 2)]] |}.

(** The probabilities of a model sum to one: [startprob] and every row
    of [transmat]. *)
Definition stochastic (self : hmm) : Prop :=
  np_sum (map fexp (_log_startprob self)) = Fin 1
  /\ Forall (fun row => np_sum (map fexp row) = Fin 1) (_log_transmat self).

(** ** Probabilities behind log-values *)

(** The probability of a log-value, with [exp (-inf) = 0]. *)
Definition expval (x : float) : R :=
  match x with
  | Fin r => exp r
  | _ => 0
  end.

(** The sum of the probabilities of a vector of log-values. *)
Definition expsum (a : list float) : R :=
  fold_right (fun x s => expval x + s) 0 a.

(** Pointwise order of two vectors. *)
Definition vle (a b : list float) : Prop :=
  Forall2 (fun x y => fle x y = true) a b.

(** A three-state model: [startprob = [1/2, 1/2, 0]] and
    [transmat = [[1/2, 1/2, 0]; [0, 1/2, 1/2]; [0, 0, 1]]]. *)
Definition chain3 : hmm :=
  {| _nstates := 3;
     _log_startprob := [Fin (- ln 2); Fin (- ln 2); NInf];
     _log_transmat := [[Fin (- ln 2); Fin (- ln 2); NInf];
                       [NInf; Fin (- ln 2); Fin (- ln 2)];
                       [NInf; NInf; Fin 0]] |}.

(** Three frames of log-likelihoods for [chain3]. *)
Definition chain3_frames : list (list float) :=
  [[Fin 0; Fin 0; Fin 0];
   [Fin (1 / 2); Fin 0; Fin (-5)];
   [Fin 0; Fin (-5); Fin (-5)]].

(** ** Auxiliary definitions of the proofs *)

(** [self'] has the attributes of [self] and its heap with new arrays
    after it. *)
Definition extends (self self' : object) : Prop :=
  emission_type self' = emission_type self
  /\ self_nstates self' = self_nstates self
  /\ self_log_startprob self' = self_log_startprob self
  /\ self_log_transmat self' = self_log_transmat self
  /\ self_labels self' = self_labels self
  /\ self_trainer self' = self_trainer self
  /\ exists extra, heap self' = heap self ++ extra.

(** The maximum and its position in a vector, with a default for the
    empty vector. *)
Definition max_or_nan (a : list float) : float :=
  match a with
  | [] => NaN
  | x :: rest => fold_left fmaximum rest x
  end.

Definition argmax_or_zero (a : list float) : nat :=
  match a with
  | [] => O
  | x :: rest => argmax_from rest 1 x 0
  end.


(** ** Further definitions *)

(** The logarithm that the setter of [transmat] stores: [np.log], with
    NaN replaced by minus infinity. *)
Definition log_or_ninf (x : float) : float :=
  let y := flog x in if isnan y then NInf else y.

(** A finite, non-negative number. *)
Definition nonneg (x : float) : Prop := exists r, x = Fin r /\ 0 <= r.

(** The object after a successful assignment of [transmat]. *)
Definition with_transmat (self : object) (transmat : list (list float)) : object :=
  {| heap := heap self ++ [Arr2 (map (map log_or_ninf) transmat)];
     emission_type := emission_type self;
     self_nstates := self_nstates self;
     self_log_startprob := self_log_startprob self;
     self_log_transmat := Some (List.length (heap self));
     self_labels := self_labels self;
     self_trainer := self_trainer self |}.

(** The checks of the setter of [transmat]. *)
Definition rows_sum_to_one (eps : R) (transmat : list (list float)) : bool :=
  forallb (fun row => almost_equal eps (np_sum row) (Fin 1)) transmat.

(** The emission that returns the state itself: with it, the
    observations of [rvs] are the states of the walk. *)
Definition emit_state {rng : Type} (state : nat) (g : rng) : nat * rng := (state, g).

(** Every draw of the generator is a number of [[0, 1)]. *)
Definition uniform_draws {rng : Type} (rand : rng -> float * rng) : Prop :=
  forall g, exists r, fst (rand g) = Fin r /\ 0 <= r < 1.

(** The probability of starting in [s], and of moving from [s] to [s']. *)
Definition startprob_of (self : hmm) (s : nat) : R :=
  expval (vget (_log_startprob self) s).
Definition transprob_of (self : hmm) (s s' : nat) : R :=
  expval (mget (_log_transmat self) s s').

(** A path whose every transition has positive probability. *)
Fixpoint positive_steps (self : hmm) (s : nat) (path : list nat) : Prop :=
  match path with
  | [] => True
  | s' :: rest => 0 < transprob_of self s s' /\ positive_steps self s' rest
  end.

Definition positive_path (self : hmm) (path : list nat) : Prop :=
  match path with
  | [] => True
  | s :: rest => 0 < startprob_of self s /\ positive_steps self s rest
  end.


(** A log-value that survives the clamp of the lattices: minus infinity,
    or a finite number above [ZEROLOGPROB]. *)
Definition above_zerologprob (x : float) : Prop :=
  x = NInf \/ exists r, x = Fin r /\ zerologprob < r.

(** A probability: a finite number of [[0, 1]]. *)
Definition probability (p : float) : Prop :=
  exists r, p = Fin r /\ 0 <= r <= 1.

(** A list of indices in strictly increasing order, none below [lo]. *)
Fixpoint increasing_from (lo : nat) (l : list nat) : Prop :=
  match l with
  | [] => True
  | x :: rest => (lo <= x)%nat /\ increasing_from (S x) rest
  end.

(** The joint log-probability of a state path and the frames it
    explains, accumulated in the order of the Viterbi recursion: [acc]
    is the log-probability of the path up to the state [prev], and every
    further state [s] adds the transition from [prev] and the frame
    log-likelihood of [s]. *)
Fixpoint path_score_from (self : hmm) (acc : float) (prev : nat)
  (frames : list (list float)) (path : list nat) : float :=
  match frames, path with
  | frame :: frames', s :: path' =>
      path_score_from self
        (fadd (fadd (mget (_log_transmat self) prev s) acc) (vget frame s))
        s frames' path'
  | _, _ => acc
  end.

Definition path_score (self : hmm) (framelogprob : list (list float))
  (path : list nat) : float :=
  match framelogprob, path with
  | frame0 :: rest, s0 :: path' =>
      path_score_from self (fadd (vget (_log_startprob self) s0) (vget frame0 s0))
                      s0 rest path'
  | _, _ => NaN
  end.

(** The state that the traceback loop holds after its last iteration. *)
Fixpoint walk_end (reversed_traceback : list (list nat)) (s : nat) : nat :=
  match reversed_traceback with
  | [] => s
  | frame :: rest => walk_end rest (nth s frame O)
  end.

(** The object that the constructor returns when every check passes:
    the two arrays of logarithms are new, the labels default to
    [[None] * nstates]. *)
Definition constructed (h : list ndarray) (etype : string) (n : nat)
  (startprob : list float) (transmat : list (list float))
  (labels : option (list (option string))) (t : trainer_obj) : object :=
  {| heap := (h ++ [Arr1 (map flog startprob)])
             ++ [Arr2 (map (map log_or_ninf) transmat)];
     emission_type := etype;
     self_nstates := n;
     self_log_startprob := Some (List.length h);
     self_log_transmat := Some (List.length (h ++ [Arr1 (map flog startprob)]));
     self_labels := Some match labels with
                         | Some l => l
                         | None => repeat None n
                         end;
     self_trainer := Some t |}.





(** A probability that is exactly zero or exactly one. *)
Definition zero_or_one (x : float) : Prop := x = Fin 0 \/ x = Fin 1.

(** A value that, when it is finite, lies above [ZEROLOGPROB]. *)
Definition finite_above_zerologprob (x : float) : Prop :=
  forall r, x = Fin r -> zerologprob < r.
(** * Properties *)

(** ** Comparisons of reals and floats *)

Lemma Rleb_true a b : a <= b -> Rleb a b = true.
Proof. unfold Rleb; destruct (Rle_dec a b); tauto. Qed.

Lemma Rleb_false a b : b < a -> Rleb a b = false.
Proof. unfold Rleb; destruct (Rle_dec a b); auto; lra. Qed.

Lemma Rltb_true a b : a < b -> Rltb a b = true.
Proof. unfold Rltb; destruct (Rlt_dec a b); tauto. Qed.

Lemma Rltb_false a b : b <= a -> Rltb a b = false.
Proof. unfold Rltb; destruct (Rlt_dec a b); auto; lra. Qed.

Lemma Rleb_spec a b : Rleb a b = true <-> a <= b.
Proof. unfold Rleb; destruct (Rle_dec a b); split; auto; discriminate. Qed.

Lemma Rltb_spec a b : Rltb a b = true <-> a < b.
Proof. unfold Rltb; destruct (Rlt_dec a b); split; auto; discriminate. Qed.

Lemma zerologprob_neg : zerologprob < -100.
Proof. unfold zerologprob; lra. Qed.

(** Decides one comparison of two real expressions in the goal. *)
Ltac rlra := unfold zerologprob in *; lra.
Ltac rdecide :=
  match goal with
  | |- context [Rleb ?a ?b] =>
      first [rewrite (Rleb_true a b) by rlra | rewrite (Rleb_false a b) by rlra]
  | |- context [Rltb ?a ?b] =>
      first [rewrite (Rltb_true a b) by rlra | rewrite (Rltb_false a b) by rlra]
  end.
Ltac reval := cbn; repeat (first [rdecide | progress unfold feqb]; cbn).

Arguments logsum : simpl never.

(** ** C6: the backward pass and the pruning arguments of its caller *)

(** C6.  For every model, frame log-likelihood matrix and forward
    lattice, [_do_backward_pass] returns the same backward lattice for
    any two values of its arguments [maxrank] and [beamlogprob]; every
    step of its loop prunes on the sum of the backward and forward rows
    with no rank pruning and the fixed beam [-50]. *)
Theorem backward_pass_noninterference :
  forall (self : hmm) (framelogprob fwdlattice : list (list float))
         (maxrank1 maxrank2 : option Z) (beamlogprob1 beamlogprob2 : float),
    _do_backward_pass self framelogprob fwdlattice maxrank1 beamlogprob1
    = _do_backward_pass self framelogprob fwdlattice maxrank2 beamlogprob2
    /\ forall bwd fwd frame,
         backward_step self bwd fwd frame
         = (idx <- _prune_states self (vadd bwd fwd) None (Fin (-50)) ;;
            Ok (map (fun i => logsum (bwd_row self bwd frame idx i))
                    (seq 0 (_nstates self)))).
Proof.
  intros self framelogprob fwdlattice mr1 mr2 b1 b2.
  split.
  - destruct framelogprob as [|frame0 rest]; reflexivity.
  - intros bwd fwd frame; reflexivity.
Qed.

(** ** C10: the number of samples *)

Section SamplerFacts.

  Context {rng sample : Type}.
  Variable rand : rng -> float * rng.
  Variable gen : nat -> rng -> sample * rng.

Lemma cumsum_from_length acc a : List.length (cumsum_from acc a) = List.length a.
  Proof.
    revert acc; induction a as [|x a IH]; intros acc; simpl; [reflexivity|].
    now rewrite IH.
  Qed.

Lemma bool_argmax_bound mask :
    mask <> [] -> exists i, bool_argmax mask = Ok i /\ (i < List.length mask)%nat.
  Proof.
    intros Hne. destruct mask as [|b rest]; [congruence|].
    exists (first_true (b :: rest) 0). split; [reflexivity|].
    assert (H : forall m k, m <> [] -> (first_true m k < k + List.length m)%nat).
    { induction m as [|c m IH]; intros k Hm; [congruence|].
      simpl. destruct c; [lia|].
      destruct m as [|c' m']; [simpl; lia|].
      specialize (IH (S k) ltac:(discriminate)). simpl in *. lia. }
    apply (H (b :: rest) O). discriminate.
  Qed.

Lemma rvs_loop_length cdf k :
    rows_nonempty cdf ->
    forall s g, (s < List.length cdf)%nat ->
      exists obs g', rvs_loop rand gen cdf k s g = Ok (obs, g')
                     /\ List.length obs = k.
  Proof.
    intros Hrows. induction k as [|k IH]; intros s g Hs.
    - exists [], g. split; reflexivity.
    - simpl. destruct (rand g) as [r g1].
      destruct (Hrows s Hs) as [Hne Hlen].
      destruct (bool_argmax_bound (map (fun c => fgt c r) (nth s cdf [])))
        as [i [Hi Hbound]].
      { destruct (nth s cdf []); [congruence|discriminate]. }
      rewrite Hi. simpl. destruct (gen i g1) as [o g2].
      rewrite length_map, Hlen in Hbound.
      destruct (IH i g2 Hbound) as [obs [g' [Hrec Hl]]].
      rewrite Hrec. simpl. exists (o :: obs), g'. split; [reflexivity|].
      simpl. now rewrite Hl.
  Qed.

End SamplerFacts.

Lemma nth_map_default {A B : Type} (f : A -> B) (l : list A) (k : nat) (dA : A) (dB : B) :
  f dA = dB -> nth k (map f l) dB = f (nth k l dA).
Proof. intros <-. apply map_nth. Qed.

Lemma rvs_length {rng sample : Type} (rand : rng -> float * rng)
  (gen : nat -> rng -> sample * rng) (self : hmm) (n : nat) (g : rng) :
  rows_nonempty (_log_transmat self) ->
  List.length (_log_startprob self) = List.length (_log_transmat self) ->
  _log_startprob self <> [] ->
  exists obs g', rvs rand gen self n g = Ok (obs, g')
                 /\ List.length obs = Nat.max 1 n.
Proof.
  intros Hrows Hlen Hne. unfold rvs.
  destruct (rand g) as [r g1].
  destruct (bool_argmax_bound
              (map (fun c => fgt c r) (np_cumsum (map fexp (_log_startprob self)))))
    as [i [Hi Hbound]].
  { unfold np_cumsum. destruct (_log_startprob self); [congruence|discriminate]. }
  rewrite Hi. simpl. destruct (gen i g1) as [o g2].
  unfold np_cumsum in Hbound.
  rewrite length_map, cumsum_from_length, length_map, Hlen in Hbound.
  destruct (rvs_loop_length rand gen
              (map np_cumsum (map (map fexp) (_log_transmat self))) (n - 1))
    with (s := i) (g := g2) as [obs [g' [Hloop Hl]]].
  - intros k Hk. rewrite !length_map in Hk.
    destruct (Hrows k Hk) as [Hrow Hrowlen].
    rewrite !length_map.
    assert (Hnth : nth k (map np_cumsum (map (map fexp) (_log_transmat self))) []
                   = np_cumsum (map fexp (nth k (_log_transmat self) []))).
    { rewrite (nth_map_default np_cumsum _ k (map fexp [])) by reflexivity.
      rewrite (nth_map_default (map fexp) _ k []) by reflexivity. reflexivity. }
    rewrite Hnth. unfold np_cumsum. rewrite cumsum_from_length, length_map.
    split; [|assumption].
    destruct (nth k (_log_transmat self) []); [congruence|discriminate].
  - now rewrite !length_map.
  - rewrite Hloop. simpl. exists (o :: obs), g'. split; [reflexivity|].
    cbn [List.length]. rewrite Hl. destruct n; simpl; lia.
Qed.

(** C10.  [rvs(0)] returns one observation, not none: the first sample
    is drawn before the loop, and the loop [xrange(n-1)] is empty for
    [n = 0].  (For [n >= 1] the result has [n] observations, see
    [rvs_length].) *)
Theorem rvs_zero_returns_one_sample :
  forall (rng sample : Type) (rand : rng -> float * rng)
         (gen : nat -> rng -> sample * rng)
         (nstates : nat) (p : float) (ps : list float) (transmat : list (list float))
         (g : rng),
  exists o g',
    rvs rand gen
        {| _nstates := nstates; _log_startprob := p :: ps; _log_transmat := transmat |}
        0 g
    = Ok ([o], g').
Proof.
  intros. unfold rvs. simpl.
  destruct (rand g) as [r g1]. simpl.
  match goal with |- context [gen ?i g1] => destruct (gen i g1) as [o g2] end.
  exists o, g2. reflexivity.
Qed.

(** ** C8: the setter of [startprob] *)

Lemma set_startprob_cases eps startprob self :
  (List.length startprob <> self_nstates self
   /\ set_startprob eps startprob self
      = (Err (ValueError "startprob must have length nstates"), self))
  \/ (List.length startprob = self_nstates self
      /\ almost_equal eps (np_sum startprob) (Fin 1) = false
      /\ set_startprob eps startprob self
         = (Err (ValueError "startprob must sum to 1.0"), self))
  \/ (List.length startprob = self_nstates self
      /\ almost_equal eps (np_sum startprob) (Fin 1) = true
      /\ set_startprob eps startprob self
         = (Ok tt,
            {| heap := heap self ++ [Arr1 (map flog startprob)];
               emission_type := emission_type self;
               self_nstates := self_nstates self;
               self_log_startprob := Some (List.length (heap self));
               self_log_transmat := self_log_transmat self;
               self_labels := self_labels self;
               self_trainer := self_trainer self |})).
Proof.
  unfold set_startprob.
  destruct (Nat.eqb_spec (List.length startprob) (self_nstates self)) as [Hlen|Hlen];
    simpl.
  - destruct (almost_equal eps (np_sum startprob) (Fin 1)) eqn:Hsum; simpl.
    + right; right. repeat split; auto.
    + right; left. repeat split; auto.
  - left. split; auto.
Qed.

(** C8.  Assigning [startprob] raises exactly when the length of the
    vector differs from [nstates] (the length error) or its sum is not
    within the tolerance of one (the sum error); a vector of the right
    length that sums to one within the tolerance is accepted and its
    logarithm is stored; a failed assignment leaves the object as it
    was; and the constructor, which assigns [startprob] first, returns
    no object when the length is wrong. *)
Theorem set_startprob_validates :
  forall (eps : R) (startprob : list float) (self : object),
    let out := set_startprob eps startprob self in
    ((exists e, fst out = Err e) <->
       (List.length startprob <> self_nstates self
        \/ almost_equal eps (np_sum startprob) (Fin 1) = false))
    /\ (List.length startprob <> self_nstates self ->
        fst out = Err (ValueError "startprob must have length nstates"))
    /\ (List.length startprob = self_nstates self ->
        almost_equal eps (np_sum startprob) (Fin 1) = false ->
        fst out = Err (ValueError "startprob must sum to 1.0"))
    /\ (List.length startprob = self_nstates self ->
        almost_equal eps (np_sum startprob) (Fin 1) = true ->
        fst out = Ok tt
        /\ nth_error (heap (snd out)) (List.length (heap self))
           = Some (Arr1 (map flog startprob))
        /\ self_log_startprob (snd out) = Some (List.length (heap self)))
    /\ (forall e, fst out = Err e -> snd out = self)
    /\ (forall h etype nstates transmat labels t,
          List.length startprob <> nstates ->
          __init__ eps h etype nstates (Some startprob) transmat labels t
          = Err (ValueError "startprob must have length nstates")).
Proof.
  intros eps startprob self out.
  destruct (set_startprob_cases eps startprob self)
    as [[Hlen Hout] | [[Hlen [Hsum Hout]] | [Hlen [Hsum Hout]]]];
    subst out; rewrite Hout; simpl.
  - repeat split; try congruence; eauto; try tauto.
    intros h etype nstates transmat labels t Hn.
    unfold __init__, init_body, bindM, ret. simpl.
    destruct (set_startprob_cases eps startprob (new_object h etype nstates))
      as [[_ H] | [[H _] | [H _]]]; [now rewrite H | simpl in H; congruence ..].
  - repeat split; try congruence; eauto; try tauto.
    intros h etype nstates transmat labels t Hn.
    unfold __init__, init_body, bindM, ret. simpl.
    destruct (set_startprob_cases eps startprob (new_object h etype nstates))
      as [[_ H] | [[H _] | [H _]]]; [now rewrite H | simpl in H; congruence ..].
  - repeat split; try congruence; eauto.
    + intros [e He]; discriminate.
    + intros [H|H]; congruence.
    + rewrite nth_error_app2 by lia. now rewrite Nat.sub_diag.
    + intros h etype nstates transmat labels t Hn.
      unfold __init__, init_body, bindM, ret. simpl.
      destruct (set_startprob_cases eps startprob (new_object h etype nstates))
        as [[_ H] | [[H _] | [H _]]]; [now rewrite H | simpl in H; congruence ..].
Qed.

Lemma set_startprob_validates_witness :
  let self := new_object [] "gaussian" 2 in
  let eps := 1 / 10000000 in
  fst (set_startprob eps [Fin (1 / 2); Fin (1 / 2)] self) = Ok tt
  /\ fst (set_startprob eps [Fin (1 / 2)] self)
     = Err (ValueError "startprob must have length nstates")
  /\ fst (set_startprob eps [Fin (1 / 2); Fin (1 / 4)] self)
     = Err (ValueError "startprob must sum to 1.0")
  /\ snd (set_startprob eps [Fin (1 / 2); Fin (1 / 4)] self) = self
  /\ __init__ eps [] "gaussian" 3 (Some [Fin (1 / 2); Fin (1 / 2)]) None None
              {| trainer_emission_type := "gaussian" |}
     = Err (ValueError "startprob must have length nstates").
Proof.
  intros self eps.
  assert (Hgood : almost_equal eps (np_sum [Fin (1 / 2); Fin (1 / 2)]) (Fin 1) = true).
  { unfold almost_equal, np_sum, eps. cbn.
    apply Rltb_true. replace (1 + - (0 + 1 / 2 + 1 / 2)) with 0 by lra.
    rewrite Rabs_R0. lra. }
  assert (Hbad : almost_equal eps (np_sum [Fin (1 / 2); Fin (1 / 4)]) (Fin 1) = false).
  { unfold almost_equal, np_sum, eps. cbn.
    apply Rltb_false. replace (1 + - (0 + 1 / 2 + 1 / 4)) with (1 / 4) by lra.
    rewrite Rabs_right by lra. lra. }
  destruct (set_startprob_validates eps [Fin (1 / 2); Fin (1 / 2)] self)
    as (_ & _ & _ & Hok & _ & Hinit).
  destruct (set_startprob_validates eps [Fin (1 / 2)] self) as (_ & Hlen & _).
  destruct (set_startprob_validates eps [Fin (1 / 2); Fin (1 / 4)] self)
    as (_ & _ & Hsum & _ & Hsame & _).
  split; [apply (Hok eq_refl Hgood)|].
  split; [apply Hlen; discriminate|].
  split; [apply (Hsum eq_refl Hbad)|].
  split; [apply (Hsame _ (Hsum eq_refl Hbad))|].
  apply Hinit. discriminate.
Defined.

(** ** C9: [init] and the stored parameters *)

Lemma extends_refl self : extends self self.
Proof. repeat split; auto. exists []. now rewrite app_nil_r. Qed.

Lemma extends_trans s1 s2 s3 : extends s1 s2 -> extends s2 s3 -> extends s1 s3.
Proof.
  intros (A1 & A2 & A3 & A4 & A5 & A6 & x & Hx) (B1 & B2 & B3 & B4 & B5 & B6 & y & Hy).
  repeat split; try congruence.
  exists (x ++ y). now rewrite Hy, Hx, app_assoc.
Qed.

Lemma list_set_last {A : Type} (l : list A) (x y : A) :
  list_set (l ++ [x]) (List.length l) y = l ++ [y].
Proof. induction l as [|z l IH]; simpl; [reflexivity|]. now rewrite IH. Qed.

(** Reading a property and assigning to the slice of what was read
    writes to the new array only. *)
Lemma assign_slice_startprob_extends (c : float) self :
  extends self (snd (assign_slice get_startprob c self)).
Proof.
  unfold assign_slice, get_startprob, bindM, deref, no_attribute, raise, alloc.
  destruct (self_log_startprob self) as [addr|]; simpl; [|apply extends_refl].
  destruct (nth_error (heap self) addr) as [x|]; simpl; [|apply extends_refl].
  unfold setitem_all. simpl.
  rewrite nth_error_app2 by lia. rewrite Nat.sub_diag. simpl.
  rewrite list_set_last.
  repeat split; simpl; auto. eexists; reflexivity.
Qed.

Lemma assign_slice_transmat_extends (c : float) self :
  extends self (snd (assign_slice get_transmat c self)).
Proof.
  unfold assign_slice, get_transmat, bindM, deref, no_attribute, raise, alloc.
  destruct (self_log_transmat self) as [addr|]; simpl; [|apply extends_refl].
  destruct (nth_error (heap self) addr) as [x|]; simpl; [|apply extends_refl].
  unfold setitem_all. simpl.
  rewrite nth_error_app2 by lia. rewrite Nat.sub_diag. simpl.
  rewrite list_set_last.
  repeat split; simpl; auto. eexists; reflexivity.
Qed.

Lemma init_extends params self : extends self (snd (init params self)).
Proof.
  unfold init, _init, bindM, lift, ret.
  destruct (pydiv_one (self_nstates self)) as [c|e];
    destruct (char_in "s" params); destruct (char_in "t" params);
    try apply extends_refl.
  - pose proof (assign_slice_startprob_extends c self) as H1.
    destruct (assign_slice get_startprob c self) as [[u|e] self1]; simpl in H1;
      [|exact H1].
    pose proof (assign_slice_transmat_extends c self1) as H2.
    eapply extends_trans; [exact H1 | exact H2].
  - pose proof (assign_slice_startprob_extends c self) as H1.
    destruct (assign_slice get_startprob c self) as [[u|e] self1]; exact H1.
  - apply assign_slice_transmat_extends.
Qed.

Lemma extends_nth_error self self' a :
  extends self self' -> (a < List.length (heap self))%nat ->
  nth_error (heap self') a = nth_error (heap self) a.
Proof.
  intros (_ & _ & _ & _ & _ & _ & extra & He) Ha.
  rewrite He. now apply nth_error_app1.
Qed.

Lemma extends_read_startprob self self' :
  wf_object self -> extends self self' -> read_startprob self' = read_startprob self.
Proof.
  intros [Hs _] Hext.
  assert (Hattr : self_log_startprob self' = self_log_startprob self) by apply Hext.
  unfold read_startprob, get_startprob, bindM, deref, no_attribute, raise, alloc.
  rewrite Hattr.
  destruct (self_log_startprob self) as [a|]; [|reflexivity].
  rewrite (extends_nth_error self self' a Hext (Hs a eq_refl)).
  destruct (nth_error (heap self) a); [|reflexivity]. simpl.
  rewrite !nth_error_app2 by lia. now rewrite !Nat.sub_diag.
Qed.

Lemma extends_read_transmat self self' :
  wf_object self -> extends self self' -> read_transmat self' = read_transmat self.
Proof.
  intros [_ Ht] Hext.
  assert (Hattr : self_log_transmat self' = self_log_transmat self) by apply Hext.
  unfold read_transmat, get_transmat, bindM, deref, no_attribute, raise, alloc.
  rewrite Hattr.
  destruct (self_log_transmat self) as [a|]; [|reflexivity].
  rewrite (extends_nth_error self self' a Hext (Ht a eq_refl)).
  destruct (nth_error (heap self) a); [|reflexivity]. simpl.
  rewrite !nth_error_app2 by lia. now rewrite !Nat.sub_diag.
Qed.

Lemma extends_hmm_of self self' :
  wf_object self -> extends self self' -> hmm_of self' = hmm_of self.
Proof.
  intros [Hs Ht] Hext.
  destruct Hext as (A1 & A2 & A3 & A4 & A5 & A6 & extra & He).
  unfold hmm_of. rewrite A2, A3, A4.
  destruct (self_log_startprob self) as [a|]; [|reflexivity].
  destruct (self_log_transmat self) as [b|]; [|reflexivity].
  rewrite He, !nth_error_app1 by auto. reflexivity.
Qed.

(** C9.  [init] leaves the stored parameters as they were, whatever
    [params] holds: the arrays it fills with [1/nstates] are the ones
    the getters of the properties built, not the ones the attributes
    [_log_startprob] and [_log_transmat] refer to.  The values of
    [startprob] and [transmat] read after the call are the values read
    before it. *)
Theorem init_leaves_parameters :
  forall (params : string) (self : object),
    wf_object self ->
    read_startprob (snd (init params self)) = read_startprob self
    /\ read_transmat (snd (init params self)) = read_transmat self
    /\ hmm_of (snd (init params self)) = hmm_of self.
Proof.
  intros params self Hwf.
  pose proof (init_extends params self) as Hext.
  split; [|split].
  - now apply extends_read_startprob.
  - now apply extends_read_transmat.
  - now apply extends_hmm_of.
Qed.

(** Decides a tolerance test [|x| < eps] whose [x] is zero. *)
Ltac rabs_decide :=
  match goal with
  | |- context [Rltb (Rabs ?x) ?e] =>
      rewrite (Rltb_true (Rabs x) e)
        by (replace x with 0 by lra; rewrite Rabs_R0; lra)
  end.

(** A two-state model built by the constructor with
    [startprob = [1, 0]] and the default uniform [transmat]. *)
Lemma construct_example :
  __init__ (1 / 10000000) [] "gaussian" 2 (Some [Fin 1; Fin 0]) None None
           {| trainer_emission_type := "gaussian" |}
  = Ok {| heap := [Arr1 [Fin (ln 1); NInf];
                   Arr2 [[Fin (ln (1 / 2)); Fin (ln (1 / 2))];
                         [Fin (ln (1 / 2)); Fin (ln (1 / 2))]]];
          emission_type := "gaussian";
          self_nstates := 2;
          self_log_startprob := Some 0%nat;
          self_log_transmat := Some 1%nat;
          self_labels := Some [None; None];
          self_trainer := Some {| trainer_emission_type := "gaussian" |} |}.
Proof.
  unfold __init__, init_body, bindM, ret, lift, new_object. cbn.
  unfold set_startprob, almost_equal. cbn. rabs_decide.
  cbn. unfold set_transmat, almost_equal. cbn. repeat rabs_decide. cbn.
  repeat rdecide. cbn. reflexivity.
Qed.

(** The claim fails on the model of [construct_example]: after
    [init(obs, 'st')] the property [startprob] still reads [[1, 0]],
    not the uniform [[1/2, 1/2]]. *)
Lemma init_leaves_parameters_witness :
  let self :=
    {| heap := [Arr1 [Fin (ln 1); NInf];
                Arr2 [[Fin (ln (1 / 2)); Fin (ln (1 / 2))];
                      [Fin (ln (1 / 2)); Fin (ln (1 / 2))]]];
       emission_type := "gaussian";
       self_nstates := 2;
       self_log_startprob := Some 0%nat;
       self_log_transmat := Some 1%nat;
       self_labels := Some [None; None];
       self_trainer := Some {| trainer_emission_type := "gaussian" |} |} in
  wf_object self
  /\ read_startprob (snd (init "st" self)) = Ok (Arr1 [Fin 1; Fin 0]).
Proof.
  intros self.
  assert (Hwf : wf_object self).
  { split; intros a Ha; inversion Ha; subst; simpl; lia. }
  split; [exact Hwf|].
  destruct (init_leaves_parameters "st" self Hwf) as [Hs _].
  rewrite Hs. unfold read_startprob. cbn.
  rewrite ln_1, exp_0. reflexivity.
Defined.

(** ** Log-probabilities are closed under the operations of the passes *)

Lemma logval_fadd x y : logval x -> logval y -> logval (fadd x y).
Proof. destruct x, y; simpl; tauto. Qed.

Lemma logval_clamp x : logval x -> logval (clamp x).
Proof. unfold clamp. destruct (fle x ZEROLOGPROB); simpl; tauto. Qed.

Lemma logval_fmaximum x y : logval x -> logval y -> logval (fmaximum x y).
Proof.
  unfold fmaximum. destruct x, y; simpl; try tauto;
    match goal with |- context [if ?b then _ else _] => destruct b end; simpl; tauto.
Qed.

Lemma logval_fold_fmaximum a acc :
  Forall logval a -> logval acc -> logval (fold_left fmaximum a acc).
Proof.
  intros Ha. revert acc. induction Ha as [|x a Hx Ha IH]; intros acc Hacc; simpl; auto.
  apply IH. now apply logval_fmaximum.
Qed.

Lemma vadd_length a b : List.length (vadd a b) = Nat.min (List.length a) (List.length b).
Proof.
  revert b; induction a as [|x a IH]; intros [|y b]; simpl; auto.
Qed.

Lemma logval_vadd a b : Forall logval a -> Forall logval b -> Forall logval (vadd a b).
Proof.
  intros Ha. revert b. induction Ha as [|x a Hx Ha IH]; intros b Hb; simpl.
  - constructor.
  - destruct Hb as [|y b Hy Hb]; constructor; auto using logval_fadd.
Qed.

Lemma logvec_vadd n a b : logvec n a -> logvec n b -> logvec n (vadd a b).
Proof.
  intros [La Ha] [Lb Hb]. split.
  - rewrite vadd_length, La, Lb. apply Nat.min_id.
  - now apply logval_vadd.
Qed.

(** The partial sums of non-negative finite terms. *)
Lemma fold_fadd_nonneg (ts : list float) (acc : R) :
  0 <= acc ->
  Forall (fun t => exists r, t = Fin r /\ 0 <= r) ts ->
  exists s, fold_left fadd ts (Fin acc) = Fin s /\ acc <= s.
Proof.
  intros Hacc Hts. revert acc Hacc.
  induction Hts as [|t ts [r [-> Hr]] Hts IH]; intros acc Hacc; simpl.
  - exists acc. split; [reflexivity|lra].
  - destruct (IH (acc + r) ltac:(lra)) as [s [Hs Hle]].
    exists s. split; [exact Hs|lra].
Qed.

Lemma exp_term_nonneg x m :
  logval x -> exists r, fexp (fsub x (Fin m)) = Fin r /\ 0 <= r.
Proof.
  destruct x; simpl; try tauto; intros _.
  - eexists; split; [reflexivity|]. left; apply exp_pos.
  - exists 0; split; [reflexivity|lra].
Qed.

Lemma logval_logsum a : Forall logval a -> logval (logsum a).
Proof.
  intros Ha. unfold logsum.
  pose proof (logval_fold_fmaximum a NInf Ha I) as Hmax.
  destruct (fold_left fmaximum a NInf) as [m| | |] eqn:Em; simpl in Hmax;
    [|tauto|exact I|tauto].
  simpl.
  destruct (fold_fadd_nonneg (map (fun x => fexp (fsub x (Fin m))) a) 0 (Rle_refl 0))
    as [s [Hs Hle]].
  { apply Forall_map. revert Ha. apply Forall_impl. intros x Hx.
    now apply exp_term_nonneg. }
  unfold np_sum. rewrite Hs. simpl.
  destruct (Rltb 0 s); simpl; [exact I|].
  destruct (Rltb s 0) eqn:E; simpl; [|exact I].
  apply Rltb_spec in E. lra.
Qed.

(** ** Pruning with the default arguments *)

Lemma nonzero_from_all (p : float -> bool) a i :
  Forall (fun x => p x = true) a -> nonzero_from p a i = seq i (List.length a).
Proof.
  intros Ha. revert i. induction Ha as [|x a Hx Ha IH]; intros i; simpl; auto.
  rewrite Hx, IH. reflexivity.
Qed.

(** With [maxrank = None] and [beamlogprob = -inf] every state of a
    frame of log-probabilities is active. *)
Lemma prune_states_default self frame :
  Forall logval frame ->
  _prune_states self frame None NInf = Ok (seq 0 (List.length frame)).
Proof.
  intros Hf. unfold _prune_states. simpl.
  assert (Ht : fadd (logsum frame) NInf = NInf).
  { pose proof (logval_logsum frame Hf) as Hl.
    destruct (logsum frame); simpl in *; tauto. }
  rewrite Ht. unfold np_nonzero. f_equal.
  apply nonzero_from_all. revert Hf. apply Forall_impl.
  intros x Hx. destruct x; simpl in *; tauto.
Qed.

(** ** C1: the forward pass without pruning *)

Lemma vget_logval n v i : logvec n v -> (i < n)%nat -> logval (vget v i).
Proof.
  intros [Hl Hv] Hi. unfold vget.
  rewrite Forall_forall in Hv. apply Hv. apply nth_In. lia.
Qed.

Lemma mget_logval self s d :
  well_formed self -> (s < _nstates self)%nat -> (d < _nstates self)%nat ->
  logval (mget (_log_transmat self) s d).
Proof.
  intros (_ & Hlen & Hrows) Hs Hd. unfold mget.
  apply vget_logval with (n := _nstates self); [|exact Hd].
  rewrite Forall_forall in Hrows. apply Hrows. apply nth_In. lia.
Qed.

Lemma logval_pr_row self prev idx d :
  well_formed self -> logvec (_nstates self) prev ->
  Forall (fun s => (s < _nstates self)%nat) idx -> (d < _nstates self)%nat ->
  Forall logval (pr_row self prev idx d).
Proof.
  intros Hwf Hprev Hidx Hd. unfold pr_row. apply Forall_map.
  revert Hidx. apply Forall_impl. intros s Hs.
  apply logval_fadd; [now apply mget_logval | now apply vget_logval with (n := _nstates self)].
Qed.

Lemma Forall_seq_lt n : Forall (fun s => (s < n)%nat) (seq 0 n).
Proof. apply Forall_forall. intros s Hs. apply in_seq in Hs. lia. Qed.

(** A row of the forward lattice is a vector of log-probabilities,
    whatever the set of active states. *)
Lemma logvec_forward_row self prev idx frame :
  well_formed self -> logvec (_nstates self) prev ->
  Forall (fun s => (s < _nstates self)%nat) idx ->
  logvec (_nstates self) frame ->
  logvec (_nstates self)
         (vadd (map (fun d => logsum (pr_row self prev idx d)) (seq 0 (_nstates self)))
               frame).
Proof.
  intros Hwf Hprev Hidx Hframe. apply logvec_vadd; [|exact Hframe].
  split; [now rewrite length_map, length_seq|].
  apply Forall_map. apply Forall_forall. intros d Hd. apply in_seq in Hd.
  apply logval_logsum. apply logval_pr_row; auto. lia.
Qed.

Lemma forward_step_unpruned self prev frame :
  logvec (_nstates self) prev ->
  forward_step self None NInf prev frame = Ok (unpruned_row self prev frame).
Proof.
  intros [Hl Hv]. unfold forward_step.
  rewrite (prune_states_default self prev Hv). simpl. rewrite Hl. reflexivity.
Qed.

Lemma forward_rows_unpruned self frames :
  well_formed self -> frames_ok (_nstates self) frames ->
  forall prev, logvec (_nstates self) prev ->
    forward_rows self None NInf prev frames = Ok (unpruned_rows self prev frames).
Proof.
  intros Hwf Hframes. induction Hframes as [|frame rest Hframe Hrest IH];
    intros prev Hprev; cbn [forward_rows unpruned_rows]; [reflexivity|].
  rewrite (forward_step_unpruned self prev frame Hprev). cbn [bind].
  rewrite IH; [reflexivity|].
  apply logvec_forward_row; auto. apply Forall_seq_lt.
Qed.

Lemma forward_pass_unpruned self framelogprob :
  well_formed self -> frames_ok (_nstates self) framelogprob -> framelogprob <> [] ->
  _do_forward_pass self framelogprob None NInf
  = Ok (logsum (last (clamp_lattice (unpruned_forward_lattice self framelogprob)) []),
        clamp_lattice (unpruned_forward_lattice self framelogprob)).
Proof.
  intros Hwf Hframes Hne.
  destruct framelogprob as [|frame0 rest]; [congruence|].
  inversion Hframes as [|? ? Hframe0 Hrest]; subst.
  unfold _do_forward_pass, unpruned_forward_lattice.
  rewrite (forward_rows_unpruned self rest Hwf Hrest); [reflexivity|].
  apply logvec_vadd; [apply Hwf | exact Hframe0].
Qed.

(** C1, amended.  For a model with well-formed parameters and a
    non-empty matrix of frame log-likelihoods, [lpdf] with
    [maxrank = None] and [beamlogprob = -inf] is the [logsum] of the
    last row of the unpruned forward lattice of the specification,
    after the entries of the lattice at or below [ZEROLOGPROB] have
    been replaced by minus infinity. *)
Theorem lpdf_unpruned_exact :
  forall (observations : Type)
         (_compute_log_likelihood : observations -> list (list float))
         (self : hmm) (obs : observations),
    well_formed self ->
    frames_ok (_nstates self) (_compute_log_likelihood obs) ->
    _compute_log_likelihood obs <> [] ->
    lpdf _compute_log_likelihood self obs None NInf
    = Ok (logsum
            (last (clamp_lattice
                     (unpruned_forward_lattice self (_compute_log_likelihood obs)))
                  [])).
Proof.
  intros observations cll self obs Hwf Hframes Hne. unfold lpdf.
  rewrite (forward_pass_unpruned self (cll obs) Hwf Hframes Hne). reflexivity.
Qed.

Lemma lpdf_unpruned_exact_witness :
  let self := {| _nstates := 1; _log_startprob := [Fin 0]; _log_transmat := [[Fin 0]] |} in
  let obs := [[Fin (-1)]; [Fin (-2)]] in
  well_formed self
  /\ frames_ok 1 obs
  /\ lpdf (fun o : list (list float) => o) self obs None NInf
     = Ok (logsum (last (clamp_lattice (unpruned_forward_lattice self obs)) [])).
Proof.
  intros self obs.
  assert (Hwf : well_formed self).
  { repeat split; simpl; repeat constructor. }
  assert (Hobs : frames_ok 1 obs).
  { repeat constructor. }
  split; [exact Hwf|]. split; [exact Hobs|].
  apply (lpdf_unpruned_exact (list (list float)) (fun o => o) self obs Hwf Hobs).
  discriminate.
Defined.

(** The claim C1 as it is stated fails where the lattice is clamped: on
    a one-state model and the single frame [[-2e200]], [lpdf] returns
    minus infinity, and the [logsum] of the last row of the lattice of
    the recursion is [-2e200]. *)
Lemma lpdf_unclamped_counterexample :
  let self := {| _nstates := 1; _log_startprob := [Fin 0]; _log_transmat := [[Fin 0]] |} in
  let obs := [[Fin (2 * zerologprob)]] in
  lpdf (fun o : list (list float) => o) self obs None NInf = Ok NInf
  /\ logsum (last (unpruned_forward_lattice self obs) []) = Fin (2 * zerologprob).
Proof.
  intros self obs. split.
  - unfold lpdf, _do_forward_pass, obs, self. cbn.
    unfold clamp, ZEROLOGPROB. cbn. rdecide. reflexivity.
  - unfold obs, self, unpruned_forward_lattice. cbn.
    unfold logsum. cbn.
    replace (0 + 2 * zerologprob + - (0 + 2 * zerologprob)) with 0 by lra.
    rewrite exp_0. rdecide. cbn.
    replace (0 + 1) with 1 by lra. rewrite ln_1. f_equal. lra.
Qed.

(** ** Rank pruning on a concrete frame *)

(** Proves an equation between lists of finite floats whose entries are
    equal real expressions. *)
Ltac fin_eq := repeat (f_equal; try lra).

Lemma linspace_example :
  linspace (Fin (-2)) (Fin 0) 7
  = [Fin (-2); Fin (-5 / 3); Fin (-4 / 3); Fin (-1); Fin (-2 / 3); Fin (-1 / 3); Fin 0].
Proof.
  unfold linspace. cbn. repeat rdecide. cbn. fin_eq.
Qed.

Lemma histogram_example :
  np_histogram [Fin 0; Fin (-1)] 6 (Fin (-2), Fin 0)
  = Ok ([0; 0; 0; 1; 0; 1]%nat,
        [Fin (-2); Fin (-5 / 3); Fin (-4 / 3); Fin (-1); Fin (-2 / 3); Fin (-1 / 3); Fin 0]).
Proof.
  unfold np_histogram.
  replace (fgt (Fin (-2)) (Fin 0)) with false by (cbn; now rdecide).
  replace (feqb (Fin (-2)) (Fin 0)) with false by (reval; reflexivity).
  rewrite linspace_example.
  unfold count, in_bin, vget. reval. reflexivity.
Qed.

(** On the frame [[0, -1]] of a two-state model, [maxrank = 2] gives
    the rank threshold [-2/3], the upper edge of the bin that holds the
    second value. *)
Lemma rank_threshold_example transmat startprob :
  rank_threshold {| _nstates := 2; _log_startprob := startprob; _log_transmat := transmat |}
                 [Fin 0; Fin (-1)] 2
  = Ok (Fin (-2 / 3)).
Proof.
  unfold rank_threshold.
  replace (np_min (filter (fun x => fgt x ZEROLOGPROB) [Fin 0; Fin (-1)]))
    with (Ok (Fin (-1))) by (unfold ZEROLOGPROB; reval; reflexivity).
  cbn [bind].
  replace (fsub (Fin (-1)) (Fin 1)) with (Fin (-2)) by (cbn; fin_eq).
  replace (np_max [Fin 0; Fin (-1)]) with (Ok (Fin 0)) by (reval; reflexivity).
  cbn [bind List.length Nat.mul Nat.add].
  rewrite histogram_example. reval. reflexivity.
Qed.

Lemma beam_threshold_off frame :
  Forall logval frame -> fadd (logsum frame) NInf = NInf.
Proof.
  intros Hf. pose proof (logval_logsum frame Hf) as Hl.
  destruct (logsum frame); simpl in *; tauto.
Qed.

(** On the frame [[0, -1]] of a two-state model, rank pruning with
    [maxrank = 2] keeps state [0] alone. *)
Lemma prune_states_example startprob transmat :
  _prune_states {| _nstates := 2; _log_startprob := startprob; _log_transmat := transmat |}
                [Fin 0; Fin (-1)] (Some 2%Z) NInf
  = Ok [0]%nat.
Proof.
  unfold _prune_states. cbn [truthy rank_of Z.eqb negb].
  rewrite rank_threshold_example. cbn [bind].
  rewrite beam_threshold_off by repeat constructor.
  unfold np_nonzero. reval. reflexivity.
Qed.

(** ** C2: the pruning configurations that should exclude no state *)

(** C2.  The claim fails on the frame [[0, -1]] of a two-state model:
    with [maxrank = None] and [beamlogprob = -inf], [_prune_states]
    returns both states, and with [maxrank = 2 = nstates] and the same
    beam it returns state [0] alone. *)
Theorem prune_states_full_rank_drops_state :
  forall (startprob : list float) (transmat : list (list float)),
    let self :=
      {| _nstates := 2; _log_startprob := startprob; _log_transmat := transmat |} in
    _prune_states self [Fin 0; Fin (-1)] None NInf = Ok [0; 1]%nat
    /\ _prune_states self [Fin 0; Fin (-1)] (Some 2%Z) NInf = Ok [0]%nat.
Proof.
  intros startprob transmat self. split.
  - apply (prune_states_default self [Fin 0; Fin (-1)]). repeat constructor.
  - apply prune_states_example.
Qed.

(** *** The order on floats *)

Lemma fle_refl x : isnan x = false -> fle x x = true.
Proof. destruct x; simpl; try congruence. intros _. apply Rleb_true; lra. Qed.

Lemma fle_trans x y z : fle x y = true -> fle y z = true -> fle x z = true.
Proof.
  destruct x, y, z; simpl; try congruence.
  rewrite !Rleb_spec. lra.
Qed.

Lemma fle_total x y : isnan x = false -> isnan y = false -> fle y x = false -> fle x y = true.
Proof.
  destruct x, y; simpl; try congruence. intros _ _ H.
  apply Rleb_true. unfold Rleb in H. destruct (Rle_dec r0 r); [discriminate|lra].
Qed.

Lemma fmaximum_cases x y : fmaximum x y = x \/ fmaximum x y = y.
Proof.
  unfold fmaximum. destruct (isnan x); auto. destruct (isnan y); auto.
  destruct (fle y x); auto.
Qed.

Lemma fmaximum_upper x y :
  isnan x = false -> isnan y = false ->
  fle x (fmaximum x y) = true /\ fle y (fmaximum x y) = true
  /\ isnan (fmaximum x y) = false.
Proof.
  intros Hx Hy. unfold fmaximum. rewrite Hx, Hy.
  destruct (fle y x) eqn:E.
  - repeat split; auto using fle_refl.
  - repeat split; auto using fle_refl, fle_total.
Qed.

Lemma fold_fmaximum_in rest x : In (fold_left fmaximum rest x) (x :: rest).
Proof.
  revert x. induction rest as [|y rest IH]; intros x; simpl; [auto|].
  destruct (IH (fmaximum x y)) as [H|H]; [|auto].
  rewrite <- H. destruct (fmaximum_cases x y) as [E|E]; rewrite E; auto.
Qed.

Lemma fold_fmaximum_upper rest x :
  isnan x = false -> Forall (fun e => isnan e = false) rest ->
  fle x (fold_left fmaximum rest x) = true
  /\ Forall (fun e => fle e (fold_left fmaximum rest x) = true) rest.
Proof.
  intros Hx Hrest. revert x Hx.
  induction Hrest as [|y rest Hy Hrest IH]; intros x Hx; simpl.
  - split; [now apply fle_refl | constructor].
  - destruct (fmaximum_upper x y Hx Hy) as (Hxm & Hym & Hm).
    destruct (IH (fmaximum x y) Hm) as [H1 H2].
    split; [eapply fle_trans; eauto|].
    constructor; [eapply fle_trans; eauto | exact H2].
Qed.

(** [a.max()] returns an element of [a] that no element of [a] exceeds
    (when [a] holds no NaN). *)
Lemma np_max_spec a t :
  np_max a = Ok t ->
  In t a /\ (Forall (fun e => isnan e = false) a -> Forall (fun e => fle e t = true) a).
Proof.
  destruct a as [|x rest]; simpl; [discriminate|].
  intros H; inversion H; subst. split.
  - apply (fold_fmaximum_in rest x).
  - intros Hn. inversion Hn as [|? ? Hx Hrest]; subst.
    destruct (fold_fmaximum_upper rest x Hx Hrest) as [Ha Hb]. now constructor.
Qed.

Lemma np_histogram_length a bins range hist edges :
  np_histogram a bins range = Ok (hist, edges) -> List.length hist = bins.
Proof.
  unfold np_histogram. destruct range as [mn mx].
  destruct (fgt mn mx); [discriminate|].
  destruct (feqb mn mx); intros H; inversion H; now rewrite length_map, length_seq.
Qed.

(** ** Rank pruning with [maxrank = 1] *)

Lemma IZR_of_nat_pos N : (0 < N)%nat -> 0 < IZR (Z.of_nat N).
Proof. intros H. apply IZR_lt. lia. Qed.

Lemma linspace_fin a b N :
  (0 < N)%nat ->
  linspace (Fin a) (Fin b) (S N)
  = map (fun i => Fin (IZR (Z.of_nat i) * ((b + - a) / IZR (Z.of_nat N)) + a)) (seq 0 N)
    ++ [Fin b].
Proof.
  intros HN. destruct N as [|N']; [lia|].
  unfold linspace. f_equal. apply map_ext. intros i.
  unfold of_nat, fsub, fneg, fadd, fdiv.
  rewrite (Rltb_true 0 (IZR (Z.of_nat (S N')))) by (apply IZR_of_nat_pos; lia).
  reflexivity.
Qed.

Lemma edge_le a b N i :
  a < b -> (i <= N)%nat -> (0 < N)%nat ->
  IZR (Z.of_nat i) * ((b + - a) / IZR (Z.of_nat N)) + a <= b.
Proof.
  intros Hab Hi HN.
  pose proof (IZR_of_nat_pos N HN) as HNpos.
  assert (Hi' : IZR (Z.of_nat i) <= IZR (Z.of_nat N)) by (apply IZR_le; lia).
  assert (Hw : 0 < (b + - a) / IZR (Z.of_nat N)).
  { apply Rdiv_lt_0_compat; lra. }
  assert (HNw : IZR (Z.of_nat N) * ((b + - a) / IZR (Z.of_nat N)) = b + - a).
  { field. lra. }
  assert (IZR (Z.of_nat i) * ((b + - a) / IZR (Z.of_nat N))
          <= IZR (Z.of_nat N) * ((b + - a) / IZR (Z.of_nat N))).
  { apply Rmult_le_compat_r; lra. }
  lra.
Qed.

Lemma fminimum_cases x y : fminimum x y = x \/ fminimum x y = y.
Proof.
  unfold fminimum. destruct (isnan x); auto. destruct (isnan y); auto.
  destruct (fle x y); auto.
Qed.

Lemma fold_fminimum_in rest x : In (fold_left fminimum rest x) (x :: rest).
Proof.
  revert x. induction rest as [|y rest IH]; intros x; simpl; [auto|].
  destruct (IH (fminimum x y)) as [H|H]; [|auto].
  rewrite <- H. destruct (fminimum_cases x y) as [E|E]; rewrite E; auto.
Qed.

Lemma np_min_in a : a <> [] -> exists m, np_min a = Ok m /\ In m a.
Proof.
  destruct a as [|x rest]; [congruence|]. intros _.
  exists (fold_left fminimum rest x). split; [reflexivity|apply fold_fminimum_in].
Qed.

Lemma logval_notnan x : logval x -> isnan x = false.
Proof. destruct x; simpl; tauto. Qed.

Lemma icumsum_from_ge acc l : Forall (fun h => (acc <= h)%nat) (icumsum_from acc l).
Proof.
  revert acc. induction l as [|x l IH]; intros acc; simpl; constructor; [lia|].
  eapply Forall_impl; [|apply IH]. intros h Hh. simpl in Hh. lia.
Qed.


Lemma mask_select_all mask a :
  Forall (fun b => b = true) mask -> mask_select mask a = firstn (List.length mask) a.
Proof.
  intros Hm. revert a. induction Hm as [|b mask Hb Hm IH]; intros a; simpl; [reflexivity|].
  destruct a as [|x a]; [reflexivity|]. subst b. now rewrite IH.
Qed.

Lemma fold_fmaximum_dominated rest x :
  isnan x = false -> Forall (fun e => fle e x = true) rest ->
  fold_left fmaximum rest x = x.
Proof.
  intros Hx Hrest. induction Hrest as [|y rest Hy Hrest IH]; simpl; [reflexivity|].
  assert (E : fmaximum x y = x).
  { unfold fmaximum. rewrite Hx.
    destruct y; simpl in *; try congruence; now rewrite ?Hy. }
  now rewrite E.
Qed.

Lemma count_pos (p : float -> bool) a x : In x a -> p x = true -> (1 <= count p a)%nat.
Proof.
  intros Hin Hp. unfold count.
  assert (H : In x (filter p a)) by (apply filter_In; auto).
  destruct (filter p a); [contradiction|simpl; lia].
Qed.

Lemma Forall_firstn {A : Type} (P : A -> Prop) n (l : list A) :
  Forall P l -> Forall P (firstn n l).
Proof.
  intros H. revert n. induction H as [|x l Hx Hl IH]; intros [|n]; simpl;
    constructor; auto.
Qed.

(** The top bin of the histogram of [_prune_states] holds the maximum
    of the frame. *)
Lemma top_bin_holds_max frame a b N' :
  a < b -> In (Fin b) frame ->
  (1 <= count (in_bin (linspace (Fin a) (Fin b) (S (S N'))) (S N') N') frame)%nat.
Proof.
  intros Hab Hin. apply count_pos with (x := Fin b); [exact Hin|].
  rewrite linspace_fin by lia.
  unfold in_bin, vget. rewrite Nat.eqb_refl.
  set (g := fun i => Fin (IZR (Z.of_nat i) * ((b + - a) / IZR (Z.of_nat (S N'))) + a)).
  assert (HlenE : List.length (map g (seq 0 (S N'))) = S N')
    by now rewrite length_map, length_seq.
  rewrite app_nth1 by lia.
  rewrite app_nth2 by lia. rewrite HlenE, Nat.sub_diag. cbn [nth].
  rewrite (nth_indep (map g (seq 0 (S N'))) NaN (g O)) by lia.
  rewrite (nth_map_default g (seq 0 (S N')) N' O (g O)) by reflexivity.
  rewrite seq_nth by lia. cbn [Nat.add]. unfold g. cbn [fle].
  rewrite Rleb_true by (apply edge_le; [lra|lia|lia]).
  rewrite Rleb_true by lra. reflexivity.
Qed.

(** With [maxrank = 1] the rank threshold is the maximum of the frame,
    for a frame of log-probabilities that has an entry above
    [ZEROLOGPROB]. *)
Lemma rank_threshold_one self frame :
  Forall logval frame ->
  Exists (fun x => fgt x ZEROLOGPROB = true) frame ->
  exists b, np_max frame = Ok (Fin b) /\ rank_threshold self frame 1 = Ok (Fin b).
Proof.
  intros Hlog Hex.
  assert (Hact : filter (fun x => fgt x ZEROLOGPROB) frame <> []).
  { apply Exists_exists in Hex. destruct Hex as [x [Hx Hp]].
    intros E. assert (Hf : In x (filter (fun x => fgt x ZEROLOGPROB) frame))
      by (apply filter_In; auto).
    rewrite E in Hf. contradiction. }
  destruct (np_min_in _ Hact) as [m [Hm Hmin]].
  apply filter_In in Hmin. destruct Hmin as [Hmframe Hmz].
  assert (Hne : frame <> []) by (intros E; rewrite E in Hmframe; contradiction).
  destruct frame as [|x0 rest0] eqn:Eframe; [congruence|]. rewrite <- Eframe in *.
  assert (Hmx : np_max frame = Ok (fold_left fmaximum rest0 x0)) by now rewrite Eframe.
  destruct (np_max_spec _ _ Hmx) as [Hmxin Hmxup].
  set (mx := fold_left fmaximum rest0 x0) in *.
  assert (Hnn : Forall (fun e => isnan e = false) frame).
  { revert Hlog. apply Forall_impl. intros; now apply logval_notnan. }
  specialize (Hmxup Hnn). rewrite Forall_forall in Hmxup, Hlog.
  pose proof (Hmxup m Hmframe) as Hmle.
  pose proof (Hlog m Hmframe) as Hmlog.
  pose proof (Hlog mx Hmxin) as Hmxlog.
  destruct m as [rmin| | |]; simpl in Hmlog; try tauto;
    [|unfold fgt, ZEROLOGPROB in Hmz; simpl in Hmz; discriminate].
  destruct mx as [b| | |] eqn:Emx; simpl in Hmxlog; try tauto;
    [|simpl in Hmle; discriminate].
  simpl in Hmle. apply Rleb_spec in Hmle.
  exists b. split; [exact Hmx|].
  unfold rank_threshold. rewrite Hm, Hmx. cbn [bind].
  remember (3 * List.length frame)%nat as N eqn:EN.
  assert (HN : (0 < N)%nat) by (rewrite EN, Eframe; simpl; lia).
  destruct N as [|N']; [lia|].
  unfold np_histogram. cbn [fsub fneg fadd fgt flt].
  rewrite (Rltb_false b (rmin + - (1))) by lra.
  unfold feqb. cbn [fle].
  rewrite (Rleb_false b (rmin + - (1))) by lra. rewrite andb_false_r.
  cbn [bind fst snd].
  pose proof (top_bin_holds_max frame (rmin + - (1)) b N' ltac:(lra) Hmxin) as Htop.
  rewrite (linspace_fin (rmin + - (1)) b (S N')) in * by lia.
  set (E := map (fun i => Fin (IZR (Z.of_nat i)
                               * ((b + - (rmin + - (1))) / IZR (Z.of_nat (S N')))
                               + (rmin + - (1)))) (seq 0 (S N'))) in *.
  rewrite rev_unit.
  rewrite seq_S, map_app. cbn [map Nat.add]. rewrite rev_unit. cbn [icumsum_from].
  rewrite mask_select_all.
  2:{ apply Forall_map. constructor.
      - apply Z.leb_le. lia.
      - eapply Forall_impl; [|apply icumsum_from_ge].
        intros h Hh. cbn beta in Hh. apply Z.leb_le. lia. }
  rewrite length_map. cbn [List.length firstn]. unfold np_max.
  rewrite fold_fmaximum_dominated; [reflexivity|reflexivity|].
  apply Forall_firstn. apply Forall_rev. unfold E. apply Forall_map.
  apply Forall_forall. intros i Hi. apply in_seq in Hi. cbn [fle].
  apply Rleb_true. apply edge_le; [lra|lia|lia].
Qed.

(** With [maxrank = 1] and no beam, the active states are the states
    that attain the maximum of the frame. *)
Lemma prune_states_rank_one self frame :
  Forall logval frame ->
  Exists (fun x => fgt x ZEROLOGPROB = true) frame ->
  exists b, np_max frame = Ok (Fin b)
            /\ _prune_states self frame (Some 1%Z) NInf
               = Ok (np_nonzero (fun x => fge x (Fin b)) frame).
Proof.
  intros Hlog Hex.
  destruct (rank_threshold_one self frame Hlog Hex) as [b [Hmx Hrank]].
  exists b. split; [exact Hmx|].
  unfold _prune_states. cbn [truthy rank_of Z.eqb negb]. rewrite Hrank. cbn [bind].
  rewrite beam_threshold_off by exact Hlog. reflexivity.
Qed.

(** The same, for a frame whose maximum is known. *)
Lemma prune_states_rank_one_at self frame b :
  Forall logval frame ->
  Exists (fun x => fgt x ZEROLOGPROB = true) frame ->
  np_max frame = Ok (Fin b) ->
  _prune_states self frame (Some 1%Z) NInf
  = Ok (np_nonzero (fun x => fge x (Fin b)) frame).
Proof.
  intros Hlog Hex Hmx.
  destruct (prune_states_rank_one self frame Hlog Hex) as [b' [Hmx' Hp]].
  rewrite Hmx in Hmx'. inversion Hmx'; subst. exact Hp.
Qed.

(** ** C5: the rank threshold *)

Lemma Rleb_false_inv a b : Rleb a b = false -> b < a.
Proof. unfold Rleb; destruct (Rle_dec a b); [discriminate|lra]. Qed.


(** *** The bin edges *)







(** *** Counting the states of the bins *)







(** *** The selection of the edges *)







Lemma exp_neg_ln2 : exp (- ln 2) = 1 / 2.
Proof. rewrite exp_Ropp, exp_ln by lra. lra. Qed.

Lemma uniform2_stochastic : stochastic uniform2.
Proof.
  unfold stochastic, uniform2, np_sum. cbn. rewrite !exp_neg_ln2.
  split; [fin_eq|].
  repeat apply Forall_cons; try apply Forall_nil;
    cbn; rewrite !exp_neg_ln2; fin_eq.
Qed.

Lemma uniform2_well_formed : well_formed uniform2.
Proof. unfold well_formed, uniform2, logvec; cbn. repeat split; repeat constructor. Qed.

Lemma ln2_bounds : 1 / 2 < ln 2 < 1.
Proof.
  split.
  - pose proof ln_lt_2. lra.
  - apply Rlt_le_trans with (ln (exp 1)); [|rewrite ln_exp; lra].
    apply ln_increasing; [lra|]. pose proof (exp_ineq1 1). lra.
Qed.

(** ** C3: the traceback of the Viterbi pass *)

(** On the uniform two-state model and the frames [[-1, 0]; [0, 0]],
    rank pruning with [maxrank = 1] leaves state [1] as the only active
    source of the second frame. *)
Lemma uniform2_frame0_active :
  _prune_states uniform2 (vadd (_log_startprob uniform2) [Fin (-1); Fin 0])
                (Some 1%Z) NInf
  = Ok [1]%nat.
Proof.
  pose proof ln2_bounds as HL.
  cbn [uniform2 _log_startprob vadd fadd].
  rewrite (prune_states_rank_one_at uniform2 _ (- ln 2 + 0)).
  - unfold np_nonzero. reval. reflexivity.
  - repeat constructor.
  - apply Exists_cons_hd. unfold ZEROLOGPROB. reval. reflexivity.
  - reval. reflexivity.
Qed.

(** C3.  The claim fails under pruning.  On the uniform two-state model
    with the frame log-likelihoods [[-1, 0]; [0, 0]] and [maxrank = 1],
    the only active source state of the second frame is state [1], and
    the traceback row of that frame holds [0] for both destinations:
    the position of the source in the array of active states, not its
    state index.  [decode] returns the state sequence [[0, 0]];
    without pruning it returns [[1, 0]]. *)
Theorem viterbi_traceback_holds_positions :
  let obs := [[Fin (-1); Fin 0]; [Fin 0; Fin 0]] in
  _prune_states uniform2 (vadd (_log_startprob uniform2) [Fin (-1); Fin 0])
                (Some 1%Z) NInf
  = Ok [1]%nat
  /\ (exists lattice,
        viterbi_tables uniform2 obs (Some 1%Z) NInf
        = Ok (lattice, [[0; 0]; [0; 0]]%nat))
  /\ (exists score,
        decode (fun o : list (list float) => o) uniform2 obs (Some 1%Z) NInf
        = Ok (score, [0; 0]%nat))
  /\ (exists score,
        decode (fun o : list (list float) => o) uniform2 obs None NInf
        = Ok (score, [1; 0]%nat)).
Proof.
  intros obs. pose proof ln2_bounds as HL.
  assert (Htab : viterbi_tables uniform2 obs (Some 1%Z) NInf
                 = Ok ([[Fin (- ln 2 + -1); Fin (- ln 2 + 0)];
                        [Fin (- ln 2 + (- ln 2 + 0) + 0);
                         Fin (- ln 2 + (- ln 2 + 0) + 0)]],
                       [[0; 0]; [0; 0]]%nat)).
  { unfold viterbi_tables, obs. cbn [viterbi_rows]. unfold viterbi_step.
    rewrite uniform2_frame0_active. reval. reflexivity. }
  split; [exact uniform2_frame0_active|]. split; [eexists; exact Htab|]. split.
  - unfold decode, _do_viterbi_pass. rewrite Htab. cbn [bind fst snd].
    unfold clamp_lattice, clamp, ZEROLOGPROB. reval.
    eexists. reflexivity.
  - unfold decode, _do_viterbi_pass, viterbi_tables, obs. cbn [viterbi_rows].
    unfold viterbi_step.
    rewrite prune_states_default by (cbn; repeat constructor).
    unfold clamp_lattice, clamp, ZEROLOGPROB. reval.
    eexists. reflexivity.
Qed.

(** ** [logsum] on log-probabilities *)

Lemma expval_nonneg x : 0 <= expval x.
Proof. destruct x; simpl; try lra. left; apply exp_pos. Qed.

Lemma expsum_nonneg a : 0 <= expsum a.
Proof.
  induction a as [|x a IH]; simpl; [lra|].
  pose proof (expval_nonneg x). lra.
Qed.

Lemma expsum_ge_in a r : In (Fin r) a -> exp r <= expsum a.
Proof.
  induction a as [|x a IH]; simpl; [tauto|].
  pose proof (expval_nonneg x). pose proof (expsum_nonneg a).
  intros [E|Hin].
  - subst x. simpl. lra.
  - specialize (IH Hin). lra.
Qed.

Lemma expsum_all_ninf a : Forall (fun x => x = NInf) a -> expsum a = 0.
Proof. induction 1 as [|x a Hx Ha IH]; simpl; [reflexivity|]. subst x. simpl. lra. Qed.

(** The sum of the shifted exponentials that [logsum] computes. *)
Lemma shifted_sum a m acc :
  Forall logval a ->
  exists s, fold_left fadd (map (fun x => fexp (fsub x (Fin m))) a) (Fin acc) = Fin s
            /\ s = acc + expsum a * exp (- m).
Proof.
  intros Ha. revert acc. induction Ha as [|x a Hx Ha IH]; intros acc.
  - exists acc. split; [reflexivity|]. simpl. lra.
  - cbn [map fold_left expsum fold_right].
    destruct x as [r| | |]; simpl in Hx; try tauto.
    + cbn [fsub fneg fadd fexp].
      destruct (IH (acc + exp (r + - m))) as [s [Hs Es]].
      exists s. split; [exact Hs|]. rewrite Es. cbn [expval].
      rewrite exp_plus. fold (expsum a). lra.
    + cbn [fsub fneg fadd fexp].
      destruct (IH (acc + 0)) as [s [Hs Es]].
      exists s. split; [exact Hs|]. rewrite Es. cbn [expval]. fold (expsum a). lra.
Qed.

Lemma fle_ninf_inv x : logval x -> fle x NInf = true -> x = NInf.
Proof. destruct x; simpl; try tauto; try discriminate. Qed.

(** [logsum] computes the logarithm of the sum of the probabilities. *)
Lemma logsum_spec a :
  Forall logval a ->
  (expsum a = 0 /\ logsum a = NInf)
  \/ (0 < expsum a /\ logsum a = Fin (ln (expsum a))).
Proof.
  intros Ha.
  assert (Hnn : Forall (fun e => isnan e = false) a).
  { revert Ha. apply Forall_impl. intros; now apply logval_notnan. }
  destruct (fold_fmaximum_upper a NInf eq_refl Hnn) as [_ Hup].
  pose proof (fold_fmaximum_in a NInf) as Hin.
  pose proof (logval_fold_fmaximum a NInf Ha I) as Hmax.
  unfold logsum.
  destruct (fold_left fmaximum a NInf) as [m| | |] eqn:Em; simpl in Hmax; try tauto.
  - right.
    destruct Hin as [Hin|Hin]; [discriminate|].
    pose proof (expsum_ge_in a m Hin) as Hge. pose proof (exp_pos m) as Hpos.
    split; [lra|].
    cbn [feqb fle andb].
    destruct (shifted_sum a m 0 Ha) as [s [Hs Es]].
    unfold np_sum. rewrite Hs.
    assert (Hspos : 0 < s).
    { rewrite Es. pose proof (exp_pos (- m)). nra. }
    cbn [flog]. rewrite (Rltb_true 0 s) by exact Hspos. cbn [fadd].
    f_equal. rewrite Es, Rplus_0_l.
    rewrite ln_mult by (try apply exp_pos; lra). rewrite ln_exp. lra.
  - left. split; [|reflexivity].
    apply expsum_all_ninf.
    rewrite Forall_forall in Hup, Ha |- *. intros x Hx.
    apply fle_ninf_inv; auto.
Qed.

Lemma ln_le x y : 0 < x -> x <= y -> ln x <= ln y.
Proof.
  intros Hx [Hlt|Heq]; [left; now apply ln_increasing | subst; lra].
Qed.

Lemma expval_mono x y : logval x -> logval y -> fle x y = true -> expval x <= expval y.
Proof.
  destruct x, y; simpl; try tauto; try discriminate; intros _ _ H.
  - apply Rleb_spec in H. destruct H as [H|H]; [left; now apply exp_increasing | subst; lra].
  - left; apply exp_pos.
  - lra.
Qed.

Lemma expsum_mono a b :
  Forall logval a -> Forall logval b -> vle a b -> expsum a <= expsum b.
Proof.
  intros Ha Hb Hab. revert Ha Hb.
  induction Hab as [|x y a b Hxy Hab IH]; intros Ha Hb; simpl; [lra|].
  inversion Ha; inversion Hb; subst.
  pose proof (expval_mono x y ltac:(assumption) ltac:(assumption) Hxy).
  specialize (IH ltac:(assumption) ltac:(assumption)). lra.
Qed.

(** [logsum] is monotone. *)
Lemma logsum_mono a b :
  Forall logval a -> Forall logval b -> vle a b -> fle (logsum a) (logsum b) = true.
Proof.
  intros Ha Hb Hab.
  pose proof (expsum_mono a b Ha Hb Hab) as Hle.
  destruct (logsum_spec a Ha) as [[Ea La]|[Pa La]];
    destruct (logsum_spec b Hb) as [[Eb Lb]|[Pb Lb]]; rewrite La, Lb; simpl; auto.
  - lra.
  - apply Rleb_true. now apply ln_le.
Qed.

(** The maximum of a vector is at most its [logsum]. *)
Lemma max_le_logsum a m :
  Forall logval a -> np_max a = Ok m -> fle m (logsum a) = true.
Proof.
  intros Ha Hm. destruct (np_max_spec a m Hm) as [Hin _].
  assert (Hml : logval m) by (rewrite Forall_forall in Ha; auto).
  destruct m as [r| | |]; simpl in Hml; try tauto.
  - pose proof (expsum_ge_in a r Hin) as Hge. pose proof (exp_pos r) as Hpos.
    destruct (logsum_spec a Ha) as [[Ea La]|[Pa La]]; [lra|].
    rewrite La. simpl. apply Rleb_true.
    rewrite <- (ln_exp r) at 1. now apply ln_le.
  - pose proof (logval_logsum a Ha) as Hl. destruct (logsum a); simpl in *; tauto.
Qed.

(** ** C4: the score of [decode] and [lpdf] *)

Lemma fadd_mono_r t x y :
  logval t -> logval x -> logval y -> fle x y = true -> fle (fadd t x) (fadd t y) = true.
Proof.
  destruct t, x, y; simpl; try tauto; try discriminate; intros _ _ _ H; auto.
  apply Rleb_spec in H. apply Rleb_true. lra.
Qed.

Lemma fadd_mono_l e x y :
  logval e -> logval x -> logval y -> fle x y = true -> fle (fadd x e) (fadd y e) = true.
Proof.
  destruct e, x, y; simpl; try tauto; try discriminate; intros _ _ _ H; auto.
  apply Rleb_spec in H. apply Rleb_true. lra.
Qed.

Lemma clamp_mono x y :
  logval x -> logval y -> fle x y = true -> fle (clamp x) (clamp y) = true.
Proof.
  intros Hx Hy H. unfold clamp.
  destruct (fle x ZEROLOGPROB) eqn:Ex; destruct (fle y ZEROLOGPROB) eqn:Ey; auto.
  - destruct y; simpl in *; tauto.
  - rewrite (fle_trans x y ZEROLOGPROB H Ey) in Ex. discriminate.
Qed.

Lemma vle_refl a : Forall logval a -> vle a a.
Proof.
  induction 1 as [|x a Hx Ha IH]; constructor; auto.
  apply fle_refl. now apply logval_notnan.
Qed.

Lemma vle_nth a b i :
  vle a b -> (i < List.length a)%nat -> fle (vget a i) (vget b i) = true.
Proof.
  intros Hab. revert i. induction Hab as [|x y a b Hxy Hab IH]; intros i Hi;
    simpl in Hi; [lia|].
  destruct i as [|i]; [exact Hxy|]. apply IH. lia.
Qed.


Lemma vle_vadd_maps {A : Type} (g h : A -> float) (l : list A) frame :
  Forall logval frame ->
  Forall (fun d => logval (g d) /\ logval (h d) /\ fle (g d) (h d) = true) l ->
  vle (vadd (map g l) frame) (vadd (map h l) frame).
Proof.
  intros Hf Hl. revert frame Hf.
  induction Hl as [|d l (Hg & Hh & Hgh) Hl IH]; intros frame Hf; simpl; [constructor|].
  destruct Hf as [|e frame He Hf]; constructor.
  - now apply fadd_mono_l.
  - now apply IH.
Qed.

Lemma mapM_map {A B : Type} (f : A -> result B) (g : A -> B) (l : list A) :
  Forall (fun x => f x = Ok (g x)) l -> mapM f l = Ok (map g l).
Proof.
  induction 1 as [|x l Hx Hl IH]; simpl; [reflexivity|].
  rewrite Hx, IH. reflexivity.
Qed.

Lemma np_max_nonempty a : a <> [] -> np_max a = Ok (max_or_nan a).
Proof. destruct a; [congruence|reflexivity]. Qed.

Lemma np_argmax_nonempty a : a <> [] -> np_argmax a = Ok (argmax_or_zero a).
Proof. destruct a; [congruence|reflexivity]. Qed.

Lemma pr_row_nonempty self prev idx d : idx <> [] -> pr_row self prev idx d <> [].
Proof. unfold pr_row. destruct idx; [congruence|discriminate]. Qed.

Lemma vle_pr_row self vprev fprev idx d :
  well_formed self -> logvec (_nstates self) vprev -> logvec (_nstates self) fprev ->
  vle vprev fprev ->
  Forall (fun s => (s < _nstates self)%nat) idx -> (d < _nstates self)%nat ->
  vle (pr_row self vprev idx d) (pr_row self fprev idx d).
Proof.
  intros Hwf Hv Hf Hvf Hidx Hd. unfold pr_row, vle.
  induction Hidx as [|s idx Hs Hidx IH]; simpl; constructor; auto.
  apply fadd_mono_r.
  - now apply mget_logval.
  - now apply vget_logval with (n := _nstates self).
  - now apply vget_logval with (n := _nstates self).
  - apply vle_nth; auto. destruct Hv as [Hl _]. lia.
Qed.

(** One step of the Viterbi pass without pruning: it returns a row of
    log-probabilities that is pointwise at most the row of the forward
    recursion computed from a larger previous row. *)
Lemma viterbi_step_unpruned self vprev frame :
  well_formed self -> (0 < _nstates self)%nat ->
  logvec (_nstates self) vprev -> logvec (_nstates self) frame ->
  exists vrow tb,
    viterbi_step self None NInf vprev frame = Ok (vrow, tb)
    /\ logvec (_nstates self) vrow
    /\ forall fprev, logvec (_nstates self) fprev -> vle vprev fprev ->
         vle vrow (unpruned_row self fprev frame).
Proof.
  intros Hwf Hn Hv Hframe. unfold viterbi_step.
  rewrite (prune_states_default self vprev) by apply Hv.
  destruct Hv as [Hvl Hvv]. rewrite Hvl. cbn [bind].
  assert (Hidx : seq 0 (_nstates self) <> []).
  { destruct (_nstates self); [lia|discriminate]. }
  rewrite (mapM_map _ (fun d => max_or_nan (pr_row self vprev (seq 0 (_nstates self)) d))).
  2:{ apply Forall_forall. intros d _. apply np_max_nonempty.
      now apply pr_row_nonempty. }
  cbn [bind].
  rewrite (mapM_map _ (fun d => argmax_or_zero (pr_row self vprev (seq 0 (_nstates self)) d))).
  2:{ apply Forall_forall. intros d _. apply np_argmax_nonempty.
      now apply pr_row_nonempty. }
  cbn [bind]. eexists. eexists. split; [reflexivity|].
  assert (Hmaxlog : forall d, (d < _nstates self)%nat ->
            logval (max_or_nan (pr_row self vprev (seq 0 (_nstates self)) d))).
  { intros d Hd.
    pose proof (logval_pr_row self vprev (seq 0 (_nstates self)) d Hwf
                  (conj Hvl Hvv) (Forall_seq_lt _) Hd) as Hrow.
    pose proof (np_max_nonempty _ (pr_row_nonempty self vprev _ d Hidx)) as Hm.
    destruct (np_max_spec _ _ Hm) as [Hin _].
    rewrite Forall_forall in Hrow. now apply Hrow. }
  split.
  - apply logvec_vadd; [|exact Hframe].
    split; [now rewrite length_map, length_seq|].
    apply Forall_map. apply Forall_forall. intros d Hd. apply in_seq in Hd.
    apply Hmaxlog. lia.
  - intros fprev Hf Hvf. unfold unpruned_row, all_states.
    apply vle_vadd_maps; [apply Hframe|].
    apply Forall_forall. intros d Hd. apply in_seq in Hd.
    assert (Hd' : (d < _nstates self)%nat) by lia.
    pose proof (logval_pr_row self vprev (seq 0 (_nstates self)) d Hwf
                  (conj Hvl Hvv) (Forall_seq_lt _) Hd') as Hrowv.
    pose proof (logval_pr_row self fprev (seq 0 (_nstates self)) d Hwf
                  Hf (Forall_seq_lt _) Hd') as Hrowf.
    split; [now apply Hmaxlog|]. split; [now apply logval_logsum|].
    apply fle_trans with (y := logsum (pr_row self vprev (seq 0 (_nstates self)) d)).
    + apply max_le_logsum; [exact Hrowv|].
      apply np_max_nonempty. now apply pr_row_nonempty.
    + apply logsum_mono; auto.
      apply vle_pr_row; auto using Forall_seq_lt. now split.
Qed.

Lemma logvec_unpruned_row self prev frame :
  well_formed self -> logvec (_nstates self) prev -> logvec (_nstates self) frame ->
  logvec (_nstates self) (unpruned_row self prev frame).
Proof.
  intros Hwf Hprev Hframe. unfold unpruned_row, all_states.
  apply (logvec_forward_row self prev (seq 0 (_nstates self)) frame); auto.
  apply Forall_seq_lt.
Qed.

Lemma viterbi_rows_unpruned self frames :
  well_formed self -> (0 < _nstates self)%nat -> frames_ok (_nstates self) frames ->
  forall vprev fprev,
    logvec (_nstates self) vprev -> logvec (_nstates self) fprev -> vle vprev fprev ->
    exists rows,
      viterbi_rows self None NInf vprev frames = Ok rows
      /\ Forall2 vle (map fst rows) (unpruned_rows self fprev frames)
      /\ Forall (logvec (_nstates self)) (map fst rows)
      /\ Forall (logvec (_nstates self)) (unpruned_rows self fprev frames).
Proof.
  intros Hwf Hn Hframes.
  induction Hframes as [|frame rest Hframe Hrest IH]; intros vprev fprev Hv Hf Hvf.
  - exists []. repeat split; constructor.
  - cbn [viterbi_rows unpruned_rows].
    destruct (viterbi_step_unpruned self vprev frame Hwf Hn Hv Hframe)
      as (vrow & tb & Hstep & Hvrow & Hle).
    rewrite Hstep. cbn [bind fst].
    pose proof (logvec_unpruned_row self fprev frame Hwf Hf Hframe) as Hfrow.
    destruct (IH vrow (unpruned_row self fprev frame) Hvrow Hfrow (Hle fprev Hf Hvf))
      as (rows & Hrows & H2 & Hlv & Hlf).
    rewrite Hrows. cbn [bind]. exists ((vrow, tb) :: rows).
    split; [reflexivity|]. cbn [map fst].
    repeat split; constructor; auto.
Qed.


Lemma last_Forall {A : Type} (P : A -> Prop) (a : list A) d :
  Forall P a -> P d -> P (last a d).
Proof.
  intros Ha Hd. induction Ha as [|x a Hx Ha IH]; [exact Hd|].
  destruct Ha; [exact Hx|exact IH].
Qed.

Lemma last_nonempty_Forall {A : Type} (P : A -> Prop) (a : list A) d :
  a <> [] -> Forall P a -> P (last a d).
Proof.
  intros Hne Ha. induction Ha as [|x a Hx Ha IH]; [congruence|].
  destruct a as [|y a]; [exact Hx|]. apply IH. discriminate.
Qed.

Lemma logvec_map_clamp n a : logvec n a -> logvec n (map clamp a).
Proof.
  intros [Hl Ha]. split; [now rewrite length_map|].
  apply Forall_map. revert Ha. apply Forall_impl. intros; now apply logval_clamp.
Qed.

Lemma logvec_clamp_lattice n lattice :
  Forall (logvec n) lattice -> Forall (logvec n) (clamp_lattice lattice).
Proof.
  intros H. unfold clamp_lattice. apply Forall_map.
  revert H. apply Forall_impl. intros; now apply logvec_map_clamp.
Qed.


Lemma logsum_fin_of_expsum a r :
  Forall logval a -> 0 < expsum a -> ln (expsum a) = r -> logsum a = Fin r.
Proof.
  intros Ha Hpos Hr. destruct (logsum_spec a Ha) as [[E _]|[_ E]]; [lra|].
  rewrite E, Hr. reflexivity.
Qed.

Lemma logsum_one a : logsum [Fin a] = Fin a.
Proof.
  apply logsum_fin_of_expsum; [repeat constructor| |]; cbn.
  - pose proof (exp_pos a). lra.
  - rewrite Rplus_0_r. apply ln_exp.
Qed.

Lemma logsum_one_ninf : logsum [NInf] = NInf.
Proof. reflexivity. Qed.

Lemma logsum_pair_l a : logsum [Fin a; NInf] = Fin a.
Proof.
  apply logsum_fin_of_expsum; [repeat constructor| |]; cbn.
  - pose proof (exp_pos a). lra.
  - replace (exp a + (0 + 0)) with (exp a) by lra. apply ln_exp.
Qed.

Lemma logsum_pair_r a : logsum [NInf; Fin a] = Fin a.
Proof.
  apply logsum_fin_of_expsum; [repeat constructor| |]; cbn.
  - pose proof (exp_pos a). lra.
  - replace (0 + (exp a + 0)) with (exp a) by lra. apply ln_exp.
Qed.

Lemma logsum_pair_eq a : logsum [Fin a; Fin a] = Fin (a + ln 2).
Proof.
  apply logsum_fin_of_expsum; [repeat constructor| |]; cbn.
  - pose proof (exp_pos a). lra.
  - replace (exp a + (exp a + 0)) with (exp a * 2) by lra.
    rewrite ln_mult by (try apply exp_pos; lra). now rewrite ln_exp.
Qed.

Lemma chain3_prune0 :
  _prune_states chain3 [Fin (- ln 2); Fin (- ln 2); NInf] (Some 1%Z) NInf
  = Ok [0; 1]%nat.
Proof.
  pose proof ln2_bounds as HL.
  rewrite (prune_states_rank_one_at chain3 _ (- ln 2)).
  - unfold np_nonzero. reval. reflexivity.
  - repeat constructor.
  - apply Exists_cons_hd. unfold ZEROLOGPROB. reval. reflexivity.
  - reval. reflexivity.
Qed.

Lemma chain3_forward1 :
  forward_step chain3 (Some 1%Z) NInf [Fin (- ln 2); Fin (- ln 2); NInf]
               [Fin (1 / 2); Fin 0; Fin (-5)]
  = Ok [Fin (1 / 2 - 2 * ln 2); Fin (- ln 2); Fin (-5 - 2 * ln 2)].
Proof.
  unfold forward_step. rewrite chain3_prune0. cbn.
  rewrite logsum_pair_l, logsum_pair_eq, logsum_pair_r. cbn. fin_eq.
Qed.


Lemma chain3_prune_forward1 :
  _prune_states chain3 [Fin (1 / 2 - 2 * ln 2); Fin (- ln 2); Fin (-5 - 2 * ln 2)]
                (Some 1%Z) NInf
  = Ok [1]%nat.
Proof.
  pose proof ln2_bounds as HL.
  rewrite (prune_states_rank_one_at chain3 _ (- ln 2)).
  - unfold np_nonzero. reval. reflexivity.
  - repeat constructor.
  - apply Exists_cons_hd. unfold ZEROLOGPROB. reval. reflexivity.
  - reval. reflexivity.
Qed.


Lemma chain3_forward2 :
  forward_step chain3 (Some 1%Z) NInf
               [Fin (1 / 2 - 2 * ln 2); Fin (- ln 2); Fin (-5 - 2 * ln 2)]
               [Fin 0; Fin (-5); Fin (-5)]
  = Ok [NInf; Fin (-5 - 2 * ln 2); Fin (-5 - 2 * ln 2)].
Proof.
  unfold forward_step. rewrite chain3_prune_forward1. cbn.
  rewrite logsum_one_ninf, !logsum_one. cbn. fin_eq.
Qed.


Lemma chain3_well_formed : well_formed chain3.
Proof. unfold well_formed, chain3, logvec; cbn. repeat split; repeat constructor. Qed.

Lemma chain3_stochastic : stochastic chain3.
Proof.
  unfold stochastic, chain3, np_sum. cbn. rewrite ?exp_neg_ln2, ?exp_0.
  split; [fin_eq|].
  repeat apply Forall_cons; try apply Forall_nil; cbn;
    rewrite ?exp_neg_ln2, ?exp_0; fin_eq.
Qed.

Lemma chain3_lpdf :
  lpdf (fun o : list (list float) => o) chain3 chain3_frames (Some 1%Z) NInf
  = Ok (Fin (-5 - ln 2)).
Proof.
  pose proof ln2_bounds as HL.
  unfold lpdf, _do_forward_pass, chain3_frames.
  replace (vadd (_log_startprob chain3) [Fin 0; Fin 0; Fin 0])
    with [Fin (- ln 2); Fin (- ln 2); NInf] by (cbn; fin_eq).
  cbn [forward_rows]. rewrite chain3_forward1. cbn [bind].
  rewrite chain3_forward2. cbn [bind fst].
  unfold clamp_lattice, clamp, ZEROLOGPROB. reval. f_equal.
  apply logsum_fin_of_expsum; [repeat constructor| |]; cbn.
  - pose proof (exp_pos (-5 - 2 * ln 2)). lra.
  - replace (0 + (exp (-5 - 2 * ln 2) + (exp (-5 - 2 * ln 2) + 0)))
      with (exp (-5 - 2 * ln 2) * 2) by lra.
    rewrite ln_mult by (try apply exp_pos; lra). rewrite ln_exp. lra.
Qed.




(** ** C7: the posteriors of [eval] *)

Lemma nonzero_from_bound p a i :
  Forall (fun k => (k < i + List.length a)%nat) (nonzero_from p a i).
Proof.
  revert i. induction a as [|x a IH]; intros i; simpl; [constructor|].
  assert (H : Forall (fun k => (k < i + S (List.length a))%nat) (nonzero_from p a (S i))).
  { eapply Forall_impl; [|apply (IH (S i))]. intros k Hk. simpl in Hk. lia. }
  destruct (p x); [constructor; [lia|exact H] | exact H].
Qed.

(** The active states are states of the frame. *)
Lemma prune_states_bound self frame maxrank beamlogprob idx :
  _prune_states self frame maxrank beamlogprob = Ok idx ->
  Forall (fun s => (s < List.length frame)%nat) idx.
Proof.
  unfold _prune_states. intros H.
  destruct (if truthy maxrank then _ else _) as [t|e]; [|discriminate].
  cbn [bind] in H. inversion H; subst. apply (nonzero_from_bound _ frame 0).
Qed.

(** The rows of the forward lattice are vectors of log-probabilities
    under every pruning setting. *)
Lemma forward_rows_logvec self maxrank beamlogprob frames :
  well_formed self -> frames_ok (_nstates self) frames ->
  forall prev rows,
    logvec (_nstates self) prev ->
    forward_rows self maxrank beamlogprob prev frames = Ok rows ->
    Forall (logvec (_nstates self)) rows.
Proof.
  intros Hwf Hframes.
  induction Hframes as [|frame rest Hframe Hrest IH]; intros prev rows Hprev Hrun.
  - inversion Hrun. constructor.
  - cbn [forward_rows] in Hrun. unfold forward_step in Hrun.
    destruct (_prune_states self prev maxrank beamlogprob) as [idx|e] eqn:Hidx;
      [|discriminate].
    cbn [bind] in Hrun.
    set (row := vadd (map (fun d => logsum (pr_row self prev idx d))
                          (seq 0 (_nstates self))) frame) in *.
    assert (Hrow : logvec (_nstates self) row).
    { apply logvec_forward_row; auto.
      pose proof (prune_states_bound _ _ _ _ _ Hidx) as Hb.
      destruct Hprev as [Hl _]. now rewrite Hl in Hb. }
    destruct (forward_rows self maxrank beamlogprob row rest) as [rows'|e] eqn:Hrows;
      [|discriminate].
    cbn [bind] in Hrun. inversion Hrun; subst.
    constructor; [exact Hrow|]. eapply IH; eauto.
Qed.

Lemma forward_pass_logvec self framelogprob maxrank beamlogprob logprob fwdlattice :
  well_formed self -> frames_ok (_nstates self) framelogprob ->
  _do_forward_pass self framelogprob maxrank beamlogprob = Ok (logprob, fwdlattice) ->
  Forall (logvec (_nstates self)) fwdlattice.
Proof.
  intros Hwf Hframes Hrun. unfold _do_forward_pass in Hrun.
  destruct framelogprob as [|frame0 rest]; [discriminate|].
  inversion Hframes as [|? ? Hframe0 Hrest]; subst.
  assert (Hrow0 : logvec (_nstates self) (vadd (_log_startprob self) frame0)).
  { apply logvec_vadd; [apply Hwf|exact Hframe0]. }
  destruct (forward_rows self maxrank beamlogprob _ rest) as [rows|e] eqn:Hrows;
    [|discriminate].
  cbn [bind] in Hrun.
  assert (E : fwdlattice = clamp_lattice (vadd (_log_startprob self) frame0 :: rows))
    by congruence.
  rewrite E. apply logvec_clamp_lattice. constructor; [exact Hrow0|].
  exact (forward_rows_logvec self maxrank beamlogprob rest Hwf Hrest _ _ Hrow0 Hrows).
Qed.

Lemma logval_bwd_row self bwd frame idx i :
  well_formed self -> logvec (_nstates self) bwd -> logvec (_nstates self) frame ->
  Forall (fun s => (s < _nstates self)%nat) idx -> (i < _nstates self)%nat ->
  Forall logval (bwd_row self bwd frame idx i).
Proof.
  intros Hwf Hbwd Hframe Hidx Hi. unfold bwd_row. apply Forall_map.
  revert Hidx. apply Forall_impl. intros j Hj.
  apply logval_fadd; [apply logval_fadd|].
  - now apply mget_logval.
  - now apply vget_logval with (n := _nstates self).
  - now apply vget_logval with (n := _nstates self).
Qed.

Lemma logvec_repeat_zero n : logvec n (repeat (Fin 0) n).
Proof.
  split; [apply repeat_length|].
  apply Forall_forall. intros x Hx. apply repeat_spec in Hx. now subst.
Qed.

(** The rows of the backward lattice are vectors of
    log-probabilities. *)
Lemma backward_rows_logvec self pairs :
  well_formed self ->
  Forall (fun p => logvec (_nstates self) (fst p) /\ logvec (_nstates self) (snd p)) pairs ->
  forall rows, backward_rows self pairs = Ok rows ->
    rows <> [] /\ Forall (logvec (_nstates self)) rows.
Proof.
  intros Hwf Hpairs.
  induction Hpairs as [|[fwd frame] rest [Hfwd Hframe] Hrest IH]; intros rows Hrun.
  - cbn in Hrun. inversion Hrun; subst. split; [discriminate|].
    constructor; [apply logvec_repeat_zero|constructor].
  - cbn [backward_rows] in Hrun. cbn [fst snd] in Hfwd, Hframe.
    destruct (backward_rows self rest) as [rows'|e] eqn:Hrows; [|discriminate].
    cbn [bind] in Hrun.
    destruct (IH rows' eq_refl) as [Hne Hl].
    destruct rows' as [|bwd rows']; [congruence|]. cbn [hd] in Hrun.
    inversion Hl as [|? ? Hbwd Hl']; subst.
    unfold backward_step in Hrun.
    destruct (_prune_states self (vadd bwd fwd) None (Fin (-50))) as [idx|e] eqn:Hidx;
      [|discriminate].
    cbn [bind] in Hrun. inversion Hrun; subst. split; [discriminate|].
    constructor; [|exact Hl].
    split; [now rewrite length_map, length_seq|].
    apply Forall_map. apply Forall_forall. intros i Hi. apply in_seq in Hi.
    apply logval_logsum. apply logval_bwd_row; auto; [|lia].
    pose proof (prune_states_bound _ _ _ _ _ Hidx) as Hb.
    destruct (logvec_vadd _ _ _ Hbwd Hfwd) as [Hlen _]. now rewrite Hlen in Hb.
Qed.

Lemma Forall_combine_logvec n (a b : list (list float)) :
  Forall (logvec n) a -> Forall (logvec n) b ->
  Forall (fun p => logvec n (fst p) /\ logvec n (snd p)) (combine a b).
Proof.
  intros Ha. revert b. induction Ha as [|x a Hx Ha IH]; intros b Hb; simpl;
    [constructor|].
  destruct Hb as [|y b Hy Hb]; constructor; auto.
Qed.

Lemma Forall_tl {A : Type} (P : A -> Prop) (l : list A) : Forall P l -> Forall P (tl l).
Proof. intros H. destruct H; simpl; auto. Qed.

Lemma backward_pass_logvec self framelogprob fwdlattice maxrank beamlogprob bwdlattice :
  well_formed self -> frames_ok (_nstates self) framelogprob ->
  Forall (logvec (_nstates self)) fwdlattice ->
  _do_backward_pass self framelogprob fwdlattice maxrank beamlogprob = Ok bwdlattice ->
  Forall (logvec (_nstates self)) bwdlattice.
Proof.
  intros Hwf Hframes Hfwd Hrun. unfold _do_backward_pass in Hrun.
  destruct framelogprob as [|frame0 rest] eqn:E; [inversion Hrun; constructor|].
  rewrite <- E in *.
  destruct (backward_rows self (tl (combine fwdlattice framelogprob))) as [rows|e] eqn:Hrows;
    [|discriminate].
  cbn [bind] in Hrun.
  assert (Eb : bwdlattice = clamp_lattice rows) by congruence.
  destruct (backward_rows_logvec self _ Hwf
              (Forall_tl _ _ (Forall_combine_logvec _ _ _ Hfwd Hframes)) rows Hrows)
    as [_ Hl].
  rewrite Eb. now apply logvec_clamp_lattice.
Qed.


Lemma madd_logvec n a b :
  Forall (logvec n) a -> Forall (logvec n) b -> Forall (logvec n) (madd a b).
Proof.
  intros Ha Hb. unfold madd. apply Forall_map.
  eapply Forall_impl; [|apply (Forall_combine_logvec n a b Ha Hb)].
  intros [x y] [Hx Hy]. now apply logvec_vadd.
Qed.

(** Without rank pruning [_prune_states] raises nothing. *)
Lemma prune_states_none_total self frame beamlogprob :
  exists idx, _prune_states self frame None beamlogprob = Ok idx.
Proof. eexists. reflexivity. Qed.

Lemma backward_rows_total self pairs : exists rows, backward_rows self pairs = Ok rows.
Proof.
  induction pairs as [|[fwd frame] rest [rows IH]].
  - eexists. reflexivity.
  - cbn [backward_rows]. rewrite IH. cbn [bind]. unfold backward_step.
    destruct (prune_states_none_total self (vadd (hd [] rows) fwd) (Fin (-50)))
      as [idx Hidx].
    rewrite Hidx. cbn [bind]. eexists. reflexivity.
Qed.

(** The backward pass always returns. *)
Lemma backward_pass_total self framelogprob fwdlattice maxrank beamlogprob :
  exists bwdlattice,
    _do_backward_pass self framelogprob fwdlattice maxrank beamlogprob = Ok bwdlattice.
Proof.
  unfold _do_backward_pass. destruct framelogprob as [|frame0 rest].
  - eexists. reflexivity.
  - destruct (backward_rows_total self (tl (combine fwdlattice (frame0 :: rest))))
      as [rows Hrows].
    rewrite Hrows. cbn [bind]. eexists. reflexivity.
Qed.




(** * Further properties of the code *)

(** ** The setter of [transmat] *)

Lemma set_transmat_cases eps transmat self :
  (has_shape transmat (self_nstates self) = false
   /\ set_transmat eps transmat self
      = (Err (ValueError "transmat must have shape (nstates, nstates)"), self))
  \/ (has_shape transmat (self_nstates self) = true
      /\ rows_sum_to_one eps transmat = false
      /\ set_transmat eps transmat self
         = (Err (ValueError "each row of transmat must sum to 1.0"), self))
  \/ (has_shape transmat (self_nstates self) = true
      /\ rows_sum_to_one eps transmat = true
      /\ set_transmat eps transmat self = (Ok tt, with_transmat self transmat)).
Proof.
  unfold set_transmat, rows_sum_to_one.
  destruct (has_shape transmat (self_nstates self)); simpl.
  - destruct (forallb _ transmat); simpl.
    + right; right. repeat split.
    + right; left. repeat split.
  - left. split; reflexivity.
Qed.

(** X1.  Assigning [transmat] raises exactly when the matrix is not
    [nstates] by [nstates] (an empty or ragged list of rows included)
    or some row does not sum to one within the tolerance; the shape is
    checked first.  A failed assignment leaves the object as it was,
    and a successful one binds [_log_transmat] to a new array and
    touches nothing else. *)
Theorem set_transmat_validates :
  forall (eps : R) (transmat : list (list float)) (self : object),
    let out := set_transmat eps transmat self in
    ((exists e, fst out = Err e) <->
       (has_shape transmat (self_nstates self) = false
        \/ rows_sum_to_one eps transmat = false))
    /\ (has_shape transmat (self_nstates self) = false ->
        fst out = Err (ValueError "transmat must have shape (nstates, nstates)"))
    /\ (has_shape transmat (self_nstates self) = true ->
        rows_sum_to_one eps transmat = false ->
        fst out = Err (ValueError "each row of transmat must sum to 1.0"))
    /\ (forall e, fst out = Err e -> snd out = self)
    /\ (fst out = Ok tt -> snd out = with_transmat self transmat).
Proof.
  intros eps transmat self out.
  destruct (set_transmat_cases eps transmat self)
    as [[Hs Hout] | [[Hs [Hr Hout]] | [Hs [Hr Hout]]]];
    subst out; rewrite Hout; simpl; repeat split; try congruence; eauto.
  - intros [e He]; discriminate.
  - intros [H|H]; congruence.
Qed.

Lemma has_shape_spec transmat n :
  has_shape transmat n = true <->
  (transmat <> [] /\ List.length transmat = n
   /\ Forall (fun row => List.length row = n) transmat).
Proof.
  unfold has_shape. destruct transmat as [|row rest].
  - split; [discriminate|]. intros [H _]. congruence.
  - rewrite andb_true_iff, forallb_forall, Nat.eqb_eq, Forall_forall.
    split.
    + intros [Hl Hr]. repeat split; [discriminate|exact Hl|].
      intros x Hx. apply Nat.eqb_eq. now apply Hr.
    + intros (_ & Hl & Hr). split; [exact Hl|].
      intros x Hx. apply Nat.eqb_eq. now apply Hr.
Qed.

Lemma log_or_ninf_notnan x : isnan (log_or_ninf x) = false.
Proof.
  unfold log_or_ninf. cbv zeta. destruct (isnan (flog x)) eqn:E; [reflexivity|exact E].
Qed.

Lemma log_or_ninf_nonneg x : nonneg x -> log_or_ninf x = flog x /\ logval (flog x).
Proof.
  intros [r [-> Hr]]. unfold log_or_ninf, flog. cbv zeta.
  destruct (Rltb 0 r) eqn:E1; [split; [reflexivity|exact I]|].
  destruct (Rltb r 0) eqn:E2; [apply Rltb_spec in E2; lra|].
  split; [reflexivity|exact I].
Qed.

(** X2.  After a successful assignment of [transmat] the stored matrix
    is [nstates] by [nstates] and holds no NaN: the logarithm of a
    negative entry, which is NaN, is stored as minus infinity. *)
Theorem set_transmat_stores_no_nan :
  forall (eps : R) (transmat : list (list float)) (self self' : object),
    set_transmat eps transmat self = (Ok tt, self') ->
    exists stored,
      deref (self_log_transmat self') "_log_transmat" self' = (Ok (Arr2 stored), self')
      /\ stored = map (map log_or_ninf) transmat
      /\ List.length stored = self_nstates self'
      /\ Forall (fun row => List.length row = self_nstates self'
                            /\ Forall (fun x => isnan x = false) row) stored.
Proof.
  intros eps transmat self self' Hrun.
  destruct (set_transmat_cases eps transmat self)
    as [[Hs Hout] | [[Hs [Hr Hout]] | [Hs [Hr Hout]]]];
    rewrite Hout in Hrun; try discriminate.
  injection Hrun as <-.
  apply has_shape_spec in Hs. destruct Hs as (_ & Hlen & Hrows).
  exists (map (map log_or_ninf) transmat). repeat split.
  - unfold deref, with_transmat. cbn [self_log_transmat heap].
    rewrite nth_error_app2 by lia. now rewrite Nat.sub_diag.
  - now rewrite length_map.
  - apply Forall_map. revert Hrows. apply Forall_impl. intros row Hrow.
    cbn [with_transmat self_nstates]. split; [now rewrite length_map|].
    apply Forall_map. apply Forall_forall. intros x _. apply log_or_ninf_notnan.
Qed.

Lemma set_transmat_stores_no_nan_witness :
  let eps := 1 / 10000000 in
  let self := new_object [] "gaussian" 2 in
  let transmat := [[Fin (3 / 2); Fin (-1 / 2)]; [Fin (1 / 2); Fin (1 / 2)]] in
  set_transmat eps transmat self = (Ok tt, with_transmat self transmat)
  /\ exists stored,
       deref (self_log_transmat (with_transmat self transmat)) "_log_transmat"
             (with_transmat self transmat)
       = (Ok (Arr2 stored), with_transmat self transmat)
       /\ stored = map (map log_or_ninf) transmat
       /\ List.length stored = self_nstates (with_transmat self transmat)
       /\ Forall (fun row => List.length row = self_nstates (with_transmat self transmat)
                             /\ Forall (fun x => isnan x = false) row) stored.
Proof.
  intros eps self transmat.
  assert (Hset : set_transmat eps transmat self = (Ok tt, with_transmat self transmat)).
  { destruct (set_transmat_cases eps transmat self)
      as [[Hs _] | [[_ [Hr _]] | [_ [_ Hout]]]]; [discriminate Hs| |exact Hout].
    exfalso. revert Hr. unfold rows_sum_to_one, almost_equal, np_sum, transmat, eps.
    cbn. repeat rabs_decide. discriminate. }
  split; [exact Hset|].
  exact (set_transmat_stores_no_nan eps transmat self _ Hset).
Defined.

(** ** Reading back what was assigned *)

Lemma exp_log_zero_or_one x : zero_or_one x -> fexp (flog x) = x.
Proof.
  intros [-> | ->]; unfold flog.
  - rewrite !Rltb_false by lra. reflexivity.
  - rewrite Rltb_true by lra. cbn [fexp]. now rewrite ln_1, exp_0.
Qed.

Lemma map_exp_log_zero_or_one v :
  Forall zero_or_one v -> map fexp (map flog v) = v.
Proof.
  induction 1 as [|x v Hx Hv IH]; simpl; [reflexivity|].
  now rewrite exp_log_zero_or_one, IH.
Qed.

Lemma read_after_alloc_startprob self v :
  read_startprob
    {| heap := heap self ++ [Arr1 v];
       emission_type := emission_type self;
       self_nstates := self_nstates self;
       self_log_startprob := Some (List.length (heap self));
       self_log_transmat := self_log_transmat self;
       self_labels := self_labels self;
       self_trainer := self_trainer self |}
  = Ok (Arr1 (map fexp v)).
Proof.
  unfold read_startprob, get_startprob, bindM, deref, alloc. cbn.
  rewrite nth_error_app2 by lia. rewrite Nat.sub_diag. cbn.
  rewrite nth_error_app2 by (rewrite length_app; simpl; lia).
  rewrite length_app. cbn [List.length].
  replace (List.length (heap self) + 1 - (List.length (heap self) + 1))%nat with O by lia.
  reflexivity.
Qed.

(** X3.  After a successful assignment of [startprob], reading the
    property returns the exponentials of the stored logarithms, entry
    by entry.  For a start distribution whose entries are exactly zero
    or one (all the mass on one state) that is exactly the assigned
    vector: the logarithm of one is zero and comes back as one, the
    logarithm of zero is minus infinity and comes back as zero. *)
Theorem startprob_round_trip :
  forall (eps : R) (startprob : list float) (self self' : object),
    set_startprob eps startprob self = (Ok tt, self') ->
    read_startprob self' = Ok (Arr1 (map fexp (map flog startprob)))
    /\ (Forall zero_or_one startprob -> read_startprob self' = Ok (Arr1 startprob)).
Proof.
  intros eps startprob self self' Hrun.
  destruct (set_startprob_cases eps startprob self)
    as [[_ Hout] | [[_ [_ Hout]] | [_ [_ Hout]]]];
    rewrite Hout in Hrun; try discriminate.
  injection Hrun as <-.
  rewrite read_after_alloc_startprob. split; [reflexivity|].
  intros Hzo. now rewrite map_exp_log_zero_or_one.
Qed.

Lemma startprob_round_trip_witness :
  let eps := 1 / 10000000 in
  let self := new_object [] "gaussian" 2 in
  exists self',
    set_startprob eps [Fin 1; Fin 0] self = (Ok tt, self')
    /\ read_startprob self' = Ok (Arr1 (map fexp (map flog [Fin 1; Fin 0])))
    /\ read_startprob self' = Ok (Arr1 [Fin 1; Fin 0]).
Proof.
  intros eps self.
  assert (Hzo : Forall zero_or_one [Fin 1; Fin 0]).
  { constructor; [now right|]. constructor; [now left|constructor]. }
  destruct (set_startprob_cases eps [Fin 1; Fin 0] self)
    as [[Hl _] | [[_ [Hs _]] | [_ [_ Hout]]]].
  - exfalso. apply Hl. reflexivity.
  - exfalso. revert Hs. unfold almost_equal, np_sum, eps. cbn. rabs_decide. discriminate.
  - eexists. split; [exact Hout|].
    destruct (startprob_round_trip eps [Fin 1; Fin 0] self _ Hout) as [H1 H2].
    split; [exact H1|exact (H2 Hzo)].
Defined.

(** A negative entry is not refused by the setter of [startprob]: the
    vector [[3/2, -1/2]] sums to one, and its second logarithm is
    stored as NaN. *)
Lemma set_startprob_negative_entry :
  let eps := 1 / 10000000 in
  let self := new_object [] "gaussian" 2 in
  exists self',
    set_startprob eps [Fin (3 / 2); Fin (-1 / 2)] self = (Ok tt, self')
    /\ deref (self_log_startprob self') "_log_startprob" self'
       = (Ok (Arr1 [Fin (ln (3 / 2)); NaN]), self').
Proof.
  intros eps self.
  destruct (set_startprob_cases eps [Fin (3 / 2); Fin (-1 / 2)] self)
    as [[Hl _] | [[_ [Hs _]] | [_ [_ Hout]]]].
  - exfalso. apply Hl. reflexivity.
  - exfalso. revert Hs. unfold almost_equal, np_sum, eps. cbn. rabs_decide. discriminate.
  - eexists. split; [exact Hout|].
    unfold deref. cbn. repeat rdecide. reflexivity.
Qed.

(** ** The constructor *)

Lemma init_result eps h etype n startprob transmat labels t :
  __init__ eps h etype n (Some startprob) (Some transmat) labels t
  = if negb (List.length startprob =? n)%nat
    then Err (ValueError "startprob must have length nstates")
    else if negb (almost_equal eps (np_sum startprob) (Fin 1))
    then Err (ValueError "startprob must sum to 1.0")
    else if negb (has_shape transmat n)
    then Err (ValueError "transmat must have shape (nstates, nstates)")
    else if negb (rows_sum_to_one eps transmat)
    then Err (ValueError "each row of transmat must sum to 1.0")
    else if negb (String.eqb etype (trainer_emission_type t))
    then Err (ValueError "trainer has incompatible emission_type")
    else Ok (constructed h etype n startprob transmat labels t).
Proof.
  unfold __init__, init_body.
  unfold bindM at 1. unfold ret at 1. unfold bindM at 1.
  destruct (set_startprob_cases eps startprob (new_object h etype n))
    as [[Hl Hout] | [[Hl [Hs Hout]] | [Hl [Hs Hout]]]]; rewrite Hout;
    cbn [new_object self_nstates] in Hl.
  { apply Nat.eqb_neq in Hl. rewrite Hl. reflexivity. }
  { apply Nat.eqb_eq in Hl. rewrite Hl, Hs. reflexivity. }
  apply Nat.eqb_eq in Hl. rewrite Hl, Hs. cbn [negb].
  cbn [new_object heap emission_type self_nstates self_log_startprob
       self_log_transmat self_labels self_trainer].
  unfold bindM at 1. unfold ret at 1. unfold bindM at 1.
  match goal with
  | |- context [set_transmat eps transmat ?s] =>
      destruct (set_transmat_cases eps transmat s)
        as [[Hshape Hout2] | [[Hshape [Hrows Hout2]] | [Hshape [Hrows Hout2]]]];
        rewrite Hout2; cbn [self_nstates] in Hshape
  end.
  { rewrite Hshape. reflexivity. }
  { rewrite Hshape, Hrows. reflexivity. }
  rewrite Hshape, Hrows. cbn [negb].
  unfold with_transmat.
  cbn [heap emission_type self_nstates self_log_startprob
       self_log_transmat self_labels self_trainer].
  unfold bindM at 1. unfold bind_labels at 1. unfold set_trainer.
  cbn [heap emission_type self_nstates self_log_startprob
       self_log_transmat self_labels self_trainer].
  destruct (String.eqb etype (trainer_emission_type t)); reflexivity.
Qed.

(** The defaults of the constructor: [np.tile(1.0 / nstates, ...)] for
    [startprob] and [transmat]. *)
Lemma init_defaults eps h etype n labels t :
  __init__ eps h etype n None None labels t
  = match pydiv_one n with
    | Err e => Err e
    | Ok c => __init__ eps h etype n (Some (repeat c n)) (Some (repeat (repeat c n) n))
                       labels t
    end.
Proof.
  unfold __init__, init_body. destruct n as [|n]; [reflexivity|].
  cbn [pydiv_one]. unfold bindM at 1. unfold bindM at 1. unfold lift at 1.
  cbn [new_object self_nstates pydiv_one]. unfold ret at 1. unfold bindM at 1.
  symmetry. unfold bindM at 1. unfold ret at 1. unfold bindM at 1. symmetry.
  destruct (set_startprob eps _ (new_object h etype (S n))) as [[u|e] self1];
    [|reflexivity].
  unfold bindM at 1. unfold bindM at 1. unfold lift at 1.
  cbn [new_object self_nstates pydiv_one]. unfold ret at 1. unfold bindM at 1.
  symmetry. unfold bindM at 1. unfold ret at 1. unfold bindM at 1. symmetry.
  reflexivity.
Qed.

Lemma hmm_of_constructed h etype n startprob transmat labels t :
  hmm_of (constructed h etype n startprob transmat labels t)
  = Some {| _nstates := n;
            _log_startprob := map flog startprob;
            _log_transmat := map (map log_or_ninf) transmat |}.
Proof.
  unfold hmm_of, constructed.
  cbn [heap emission_type self_nstates self_log_startprob
       self_log_transmat self_labels self_trainer].
  rewrite <- app_assoc. rewrite nth_error_app2 by lia. rewrite Nat.sub_diag.
  cbn [app nth_error].
  rewrite nth_error_app2 by (rewrite length_app; simpl; lia).
  rewrite length_app. cbn [List.length].
  replace (List.length h + 1 - List.length h)%nat with 1%nat by lia.
  reflexivity.
Qed.

(** What a returned object tells about the arguments: every check of
    the constructor has passed. *)
Lemma init_ok_inv eps h etype n startprob transmat labels t self :
  __init__ eps h etype n (Some startprob) (Some transmat) labels t = Ok self ->
  List.length startprob = n
  /\ has_shape transmat n = true
  /\ etype = trainer_emission_type t
  /\ self = constructed h etype n startprob transmat labels t.
Proof.
  rewrite init_result. intros Hrun.
  destruct (Nat.eqb_spec (List.length startprob) n) as [Hl|_];
    cbn [negb] in Hrun; [|discriminate].
  destruct (almost_equal eps (np_sum startprob) (Fin 1)); cbn [negb] in Hrun;
    [|discriminate].
  destruct (has_shape transmat n) eqn:Hs; cbn [negb] in Hrun; [|discriminate].
  destruct (rows_sum_to_one eps transmat); cbn [negb] in Hrun; [|discriminate].
  destruct (String.eqb_spec etype (trainer_emission_type t)) as [Het|_];
    cbn [negb] in Hrun; [|discriminate].
  injection Hrun as <-. repeat split; auto.
Qed.

Lemma fold_fadd_repeat c k a :
  exists s, fold_left fadd (repeat (Fin c) k) (Fin a) = Fin s
            /\ s = a + IZR (Z.of_nat k) * c.
Proof.
  revert a. induction k as [|k IH]; intros a.
  - exists a. split; [reflexivity|]. simpl. lra.
  - cbn [repeat fold_left fadd]. destruct (IH (a + c)) as [s [Hs Es]].
    exists s. split; [exact Hs|]. rewrite Es, Nat2Z.inj_succ, succ_IZR. lra.
Qed.

(** In exact arithmetic a uniform vector sums to one. *)
Lemma uniform_sums_to_one eps n :
  0 < eps -> (0 < n)%nat ->
  almost_equal eps (np_sum (repeat (Fin (1 / IZR (Z.of_nat n))) n)) (Fin 1) = true.
Proof.
  intros Heps Hn. unfold almost_equal, np_sum.
  destruct (fold_fadd_repeat (1 / IZR (Z.of_nat n)) n 0) as [s [Hs Es]].
  rewrite Hs. cbn. apply Rltb_true.
  assert (E1 : s = 1).
  { rewrite Es. pose proof (IZR_of_nat_pos n Hn). field. lra. }
  rewrite E1. replace (1 + - (1)) with 0 by lra. rewrite Rabs_R0. exact Heps.
Qed.

Lemma has_shape_repeat (c : float) n :
  (0 < n)%nat -> has_shape (repeat (repeat c n) n) n = true.
Proof.
  intros Hn. apply has_shape_spec. repeat split.
  - destruct n; [lia|discriminate].
  - apply repeat_length.
  - apply Forall_forall. intros row Hrow. apply repeat_spec in Hrow. subst.
    apply repeat_length.
Qed.

Lemma flog_pos r : 0 < r -> flog (Fin r) = Fin (ln r).
Proof. intros H. unfold flog. now rewrite Rltb_true. Qed.

Lemma log_or_ninf_pos r : 0 < r -> log_or_ninf (Fin r) = Fin (ln r).
Proof. intros H. unfold log_or_ninf. now rewrite flog_pos. Qed.

Lemma uniform_entry_pos n : (0 < n)%nat -> 0 < 1 / IZR (Z.of_nat n).
Proof. intros Hn. apply Rdiv_lt_0_compat; [lra|now apply IZR_of_nat_pos]. Qed.

Lemma map_repeat {A B : Type} (f : A -> B) (x : A) n :
  map f (repeat x n) = repeat (f x) n.
Proof. induction n as [|n IH]; simpl; [reflexivity|now rewrite IH]. Qed.

(** X4.  Constructed without [startprob] and [transmat], the
    constructor raises [ZeroDivisionError] when [nstates = 0], and an
    object that it returns is the uniform model: [nstates >= 1], every
    stored logarithm of [_log_startprob] and [_log_transmat] is
    [log (1.0 / nstates)], the labels default to [[None] * nstates],
    and the trainer is stored and has the emission type of the
    model. *)
Theorem default_model_is_uniform :
  forall (eps : R) (h : list ndarray) (etype : string) (n : nat)
         (labels : option (list (option string))) (t : trainer_obj),
    (n = O ->
     __init__ eps h etype n None None labels t = Err ZeroDivisionError)
    /\ (forall self,
          __init__ eps h etype n None None labels t = Ok self ->
          (0 < n)%nat
          /\ hmm_of self
             = Some {| _nstates := n;
                       _log_startprob := repeat (Fin (ln (1 / IZR (Z.of_nat n)))) n;
                       _log_transmat :=
                         repeat (repeat (Fin (ln (1 / IZR (Z.of_nat n)))) n) n |}
          /\ self_labels self = Some match labels with
                                     | Some l => l
                                     | None => repeat None n
                                     end
          /\ self_trainer self = Some t
          /\ etype = trainer_emission_type t).
Proof.
  intros eps h etype n labels t. split.
  - intros ->. reflexivity.
  - intros self Hrun. rewrite init_defaults in Hrun.
    destruct n as [|n']; [discriminate|].
    set (n := S n') in *.
    assert (Hn : (0 < n)%nat) by (unfold n; lia).
    pose proof (uniform_entry_pos n Hn) as Hc.
    change (pydiv_one n) with (Ok (Fin (1 / IZR (Z.of_nat n)))) in Hrun.
    cbn iota in Hrun.
    destruct (init_ok_inv _ _ _ _ _ _ _ _ _ Hrun) as (_ & _ & Het & ->).
    split; [exact Hn|]. split; [|repeat split; exact Het].
    rewrite hmm_of_constructed.
    now rewrite !map_repeat, flog_pos, log_or_ninf_pos by exact Hc.
Qed.

Lemma default_model_is_uniform_witness :
  exists self,
    __init__ (1 / 10000000) [] "gaussian" 2 None None None
             {| trainer_emission_type := "gaussian" |}
    = Ok self
    /\ (0 < 2)%nat
    /\ hmm_of self
       = Some {| _nstates := 2;
                 _log_startprob := repeat (Fin (ln (1 / IZR (Z.of_nat 2)))) 2;
                 _log_transmat :=
                   repeat (repeat (Fin (ln (1 / IZR (Z.of_nat 2)))) 2) 2 |}
    /\ self_labels self = Some [None; None]
    /\ self_trainer self = Some {| trainer_emission_type := "gaussian" |}
    /\ "gaussian"%string = "gaussian"%string.
Proof.
  assert (Heps : 0 < 1 / 10000000) by lra.
  destruct (__init__ (1 / 10000000) [] "gaussian" 2 None None None
                     {| trainer_emission_type := "gaussian" |}) as [self|e] eqn:Hrun.
  - exists self. split; [reflexivity|].
    destruct (default_model_is_uniform (1 / 10000000) [] "gaussian" 2 None
                {| trainer_emission_type := "gaussian" |}) as [_ H].
    exact (H self Hrun).
  - exfalso. rewrite init_defaults in Hrun.
    change (pydiv_one 2) with (Ok (Fin (1 / IZR (Z.of_nat 2)))) in Hrun.
    cbn iota in Hrun. rewrite init_result in Hrun.
    rewrite repeat_length, Nat.eqb_refl in Hrun. cbn [negb] in Hrun.
    rewrite (uniform_sums_to_one _ 2 Heps) in Hrun by lia. cbn [negb] in Hrun.
    rewrite (has_shape_repeat _ 2) in Hrun by lia. cbn [negb] in Hrun.
    assert (Hrows : rows_sum_to_one (1 / 10000000)
                      (repeat (repeat (Fin (1 / IZR (Z.of_nat 2))) 2) 2) = true).
    { unfold rows_sum_to_one. apply forallb_forall. intros row Hrow.
      apply repeat_spec in Hrow. subst. apply uniform_sums_to_one; [exact Heps|lia]. }
    rewrite Hrows in Hrun. cbn [negb] in Hrun.
    cbn in Hrun. discriminate.
Defined.

Lemma map_log_nonneg v :
  Forall nonneg v -> map log_or_ninf v = map flog v /\ Forall logval (map flog v).
Proof.
  induction 1 as [|x v Hx Hv [IH1 IH2]]; simpl; [split; [reflexivity|constructor]|].
  destruct (log_or_ninf_nonneg x Hx) as [E L].
  rewrite E, IH1. split; [reflexivity|now constructor].
Qed.

Lemma map_map_log_nonneg m :
  Forall (Forall nonneg) m -> map (map log_or_ninf) m = map (map flog) m.
Proof.
  induction 1 as [|row m Hrow Hm IH]; simpl; [reflexivity|].
  destruct (map_log_nonneg row Hrow) as [E _]. now rewrite E, IH.
Qed.

(** X5.  An object that the constructor returns for given [startprob]
    and [transmat] with finite, non-negative entries holds their
    logarithms in the shapes that inference relies on: [_log_startprob]
    has [nstates] entries, [_log_transmat] is [nstates] by [nstates],
    every entry is finite or minus infinity (never NaN), both
    attributes refer to arrays of the heap, and the trainer has the
    emission type of the model. *)
Theorem constructed_model_is_well_formed :
  forall (eps : R) (h : list ndarray) (etype : string) (n : nat)
         (startprob : list float) (transmat : list (list float))
         (labels : option (list (option string))) (t : trainer_obj) (self : object),
    Forall nonneg startprob ->
    Forall (Forall nonneg) transmat ->
    __init__ eps h etype n (Some startprob) (Some transmat) labels t = Ok self ->
    let m := {| _nstates := n;
                _log_startprob := map flog startprob;
                _log_transmat := map (map flog) transmat |} in
    hmm_of self = Some m
    /\ well_formed m
    /\ wf_object self
    /\ etype = trainer_emission_type t.
Proof.
  intros eps h etype n startprob transmat labels t self Hsp Htm Hrun m.
  destruct (init_ok_inv _ _ _ _ _ _ _ _ _ Hrun) as (Hl & Hshape & Het & ->).
  apply has_shape_spec in Hshape. destruct Hshape as (_ & Hlen & Hrows).
  split; [|split; [|split; [|exact Het]]].
  - rewrite hmm_of_constructed. unfold m.
    now rewrite (map_map_log_nonneg transmat Htm).
  - repeat split.
    + cbn [m _nstates _log_startprob]. now rewrite length_map.
    + cbn [m _log_startprob]. apply (map_log_nonneg startprob Hsp).
    + cbn [m _nstates _log_transmat]. now rewrite length_map.
    + cbn [m _nstates _log_transmat]. apply (proj2 (Forall_map _ _ _)).
      rewrite Forall_forall in Hrows, Htm |- *. intros row Hrow. split.
      * rewrite length_map. now apply Hrows.
      * apply (map_log_nonneg row). now apply Htm.
  - split; intros a Ha; cbn in Ha; injection Ha as <-; cbn [constructed heap];
      rewrite !length_app; simpl; lia.
Qed.

Lemma constructed_model_is_well_formed_witness :
  let startprob := [Fin 1; Fin 0] in
  let transmat := [[Fin (1 / 2); Fin (1 / 2)]; [Fin 0; Fin 1]] in
  let m := {| _nstates := 2;
              _log_startprob := map flog startprob;
              _log_transmat := map (map flog) transmat |} in
  Forall nonneg startprob
  /\ Forall (Forall nonneg) transmat
  /\ exists self,
       __init__ (1 / 10000000) [] "gaussian" 2 (Some startprob) (Some transmat) None
                {| trainer_emission_type := "gaussian" |}
       = Ok self
       /\ hmm_of self = Some m
       /\ well_formed m
       /\ wf_object self
       /\ "gaussian"%string = "gaussian"%string.
Proof.
  intros startprob transmat m.
  assert (Hsp : Forall nonneg startprob).
  { repeat constructor; eexists; (split; [reflexivity|lra]). }
  assert (Htm : Forall (Forall nonneg) transmat).
  { repeat constructor; eexists; (split; [reflexivity|lra]). }
  split; [exact Hsp|]. split; [exact Htm|].
  destruct (__init__ (1 / 10000000) [] "gaussian" 2 (Some startprob) (Some transmat) None
                     {| trainer_emission_type := "gaussian" |}) as [self|e] eqn:Hrun.
  - exists self. split; [reflexivity|].
    exact (constructed_model_is_well_formed _ _ _ _ _ _ _ _ _ Hsp Htm Hrun).
  - exfalso. revert Hrun.
    unfold __init__, init_body, bindM, ret, lift, new_object, startprob, transmat. cbn.
    unfold set_startprob, almost_equal. cbn. rabs_decide.
    cbn. unfold set_transmat, almost_equal. cbn. repeat rabs_decide. cbn.
    discriminate.
Defined.

(** ** Sampling *)

Lemma well_formed_rows_nonempty self :
  well_formed self -> (0 < _nstates self)%nat -> rows_nonempty (_log_transmat self).
Proof.
  intros (_ & Hlen & Hrows) Hn i Hi.
  rewrite Forall_forall in Hrows.
  destruct (Hrows (nth i (_log_transmat self) [])) as [Hl _]; [now apply nth_In|].
  split; [|lia].
  intros E. rewrite E in Hl. simpl in Hl. lia.
Qed.

(** X6.  On a model with well-formed parameters and at least one state,
    [rvs(n)] returns, and for [n >= 1] it returns exactly [n]
    observations. *)
Theorem rvs_returns_n_samples :
  forall (rng sample : Type) (rand : rng -> float * rng)
         (gen : nat -> rng -> sample * rng) (self : hmm) (n : nat) (g : rng),
    well_formed self ->
    (0 < _nstates self)%nat ->
    (1 <= n)%nat ->
    exists obs g', rvs rand gen self n g = Ok (obs, g') /\ List.length obs = n.
Proof.
  intros rng sample rand gen self n g Hwf Hn Hn1.
  destruct (rvs_length rand gen self n g) as (obs & g' & Hrun & Hlen).
  - now apply well_formed_rows_nonempty.
  - destruct Hwf as ([Hl _] & Hl' & _). lia.
  - destruct Hwf as ([Hl _] & _). intros E. rewrite E in Hl. simpl in Hl. lia.
  - exists obs, g'. split; [exact Hrun|]. lia.
Qed.

Lemma rvs_returns_n_samples_witness :
  well_formed uniform2
  /\ exists obs g',
       rvs (fun g : nat => (Fin (1 / 2), S g)) emit_state uniform2 3 O = Ok (obs, g')
       /\ List.length obs = 3%nat.
Proof.
  split; [exact uniform2_well_formed|].
  apply (rvs_returns_n_samples nat nat (fun g => (Fin (1 / 2), S g)) emit_state
           uniform2 3 O uniform2_well_formed).
  - simpl. lia.
  - lia.
Defined.

Lemma fexp_logval x : logval x -> fexp x = Fin (expval x).
Proof. destruct x; simpl; tauto. Qed.

Lemma sum_of_exp v acc :
  Forall logval v ->
  exists s, fold_left fadd (map fexp v) (Fin acc) = Fin s /\ s = acc + expsum v.
Proof.
  intros Hv. revert acc. induction Hv as [|x v Hx Hv IH]; intros acc.
  - exists acc. split; [reflexivity|]. simpl. lra.
  - cbn [map fold_left]. rewrite (fexp_logval x Hx). cbn [fadd].
    destruct (IH (acc + expval x)) as [s [Hs Es]].
    exists s. split; [exact Hs|]. rewrite Es. cbn [expsum fold_right].
    fold (expsum v). lra.
Qed.

Lemma stochastic_expsum v : Forall logval v -> np_sum (map fexp v) = Fin 1 -> expsum v = 1.
Proof.
  intros Hv Hs. unfold np_sum in Hs.
  destruct (sum_of_exp v 0 Hv) as [s [Hf Es]].
  rewrite Hf in Hs. injection Hs as Hs. lra.
Qed.

(** Inverse-CDF sampling: the first state whose cumulative probability
    exceeds the draw has positive probability. *)
Lemma inverse_cdf_positive v :
  Forall logval v ->
  forall a r k,
    a <= r -> r < a + expsum v ->
    let i := first_true (map (fun c => fgt c (Fin r)) (cumsum_from (Fin a) (map fexp v))) k in
    (k <= i < k + List.length v)%nat /\ 0 < expval (nth (i - k) v NaN).
Proof.
  induction 1 as [|x v Hx Hv IH]; intros a r k Har Hr.
  - simpl in Hr. lra.
  - cbn [map cumsum_from first_true]. rewrite (fexp_logval x Hx). cbn [fadd].
    change (fgt (Fin (a + expval x)) (Fin r)) with (Rltb r (a + expval x)).
    cbn [expsum fold_right] in Hr. fold (expsum v) in Hr.
    destruct (Rltb r (a + expval x)) eqn:E.
    + apply Rltb_spec in E. cbn zeta. rewrite Nat.sub_diag. cbn [nth List.length].
      split; [lia|lra].
    + assert (Hle : a + expval x <= r).
      { unfold Rltb in E. destruct (Rlt_dec r (a + expval x)); [discriminate|lra]. }
      specialize (IH (a + expval x) r (S k) Hle ltac:(lra)).
      cbn zeta in IH |- *. destruct IH as [Hb Hp]. cbn [List.length].
      split; [lia|].
      replace (first_true _ (S k) - k)%nat
        with (S (first_true (map (fun c => fgt c (Fin r))
                                 (cumsum_from (Fin (a + expval x)) (map fexp v))) (S k)
                 - S k)) by lia.
      exact Hp.
Qed.

Lemma draw_state_positive v r :
  Forall logval v -> expsum v = 1 -> 0 <= r < 1 ->
  exists s,
    bool_argmax (map (fun c => fgt c (Fin r)) (np_cumsum (map fexp v))) = Ok s
    /\ (s < List.length v)%nat /\ 0 < expval (vget v s).
Proof.
  intros Hv Hsum Hr.
  destruct (inverse_cdf_positive v Hv 0 r O ltac:(lra) ltac:(lra)) as [Hb Hp].
  cbn zeta in Hb, Hp. rewrite Nat.sub_0_r in Hp.
  exists (first_true (map (fun c => fgt c (Fin r)) (np_cumsum (map fexp v))) 0).
  unfold np_cumsum in *. repeat split; [|lia|exact Hp].
  destruct v as [|x v]; [simpl in Hsum; lra|]. reflexivity.
Qed.

Lemma nth_cdf_row self s :
  nth s (map np_cumsum (map (map fexp) (_log_transmat self))) []
  = np_cumsum (map fexp (nth s (_log_transmat self) [])).
Proof.
  rewrite (nth_map_default np_cumsum _ s (map fexp [])) by reflexivity.
  rewrite (nth_map_default (map fexp) _ s []) by reflexivity. reflexivity.
Qed.

Lemma rvs_loop_positive {rng : Type} (rand : rng -> float * rng) self :
  uniform_draws rand -> well_formed self -> stochastic self ->
  forall k s g path g',
    (s < _nstates self)%nat ->
    rvs_loop rand emit_state
             (map np_cumsum (map (map fexp) (_log_transmat self))) k s g
    = Ok (path, g') ->
    positive_steps self s path /\ Forall (fun s' => (s' < _nstates self)%nat) path.
Proof.
  intros Hdraw Hwf Hst. induction k as [|k IH]; intros s g path g' Hs Hrun.
  - cbn in Hrun. injection Hrun as <- <-. split; constructor.
  - cbn [rvs_loop] in Hrun.
    destruct (Hdraw g) as [r [Hr Hr01]].
    destruct (rand g) as [x g1]. cbn [fst] in Hr. subst x.
    rewrite nth_cdf_row in Hrun.
    destruct Hwf as (Hsp & Hlen & Hrows).
    assert (Hrow : logvec (_nstates self) (nth s (_log_transmat self) [])).
    { rewrite Forall_forall in Hrows. apply Hrows. apply nth_In. lia. }
    assert (Hsum : expsum (nth s (_log_transmat self) []) = 1).
    { apply stochastic_expsum; [apply Hrow|].
      destruct Hst as [_ Hst]. rewrite Forall_forall in Hst. apply Hst.
      apply nth_In. lia. }
    destruct (draw_state_positive _ r (proj2 Hrow) Hsum Hr01) as (s' & Hs' & Hb & Hp).
    rewrite Hs' in Hrun. cbn [bind emit_state] in Hrun.
    destruct (rvs_loop rand emit_state _ k s' g1) as [[rest g2]|e] eqn:Hrec;
      [|discriminate].
    cbn [bind fst snd] in Hrun. injection Hrun as <- <-.
    destruct Hrow as [Hrl _]. rewrite Hrl in Hb.
    destruct (IH s' g1 rest g2 Hb Hrec) as [Hpos Hall].
    split; [|constructor; assumption].
    cbn [positive_steps]. split; [exact Hp|exact Hpos].
Qed.

(** X7.  When the generator draws numbers of [[0, 1)] and the model is
    well formed with probabilities that sum to one, [rvs] walks a path
    of positive probability: it starts in a state of positive start
    probability, every step has positive transition probability, and
    every state is below [nstates].  (The emission [emit_state] makes
    the observations the states of the walk.) *)
Theorem rvs_path_has_positive_probability :
  forall (rng : Type) (rand : rng -> float * rng) (self : hmm) (n : nat) (g g' : rng)
         (path : list nat),
    uniform_draws rand ->
    well_formed self ->
    stochastic self ->
    rvs rand emit_state self n g = Ok (path, g') ->
    positive_path self path /\ Forall (fun s => (s < _nstates self)%nat) path.
Proof.
  intros rng rand self n g g' path Hdraw Hwf Hst Hrun.
  unfold rvs in Hrun.
  destruct (Hdraw g) as [r [Hr Hr01]].
  destruct (rand g) as [x g1]. cbn [fst] in Hr. subst x.
  pose proof Hwf as (Hsp & Hlen & Hrows).
  assert (Hsum : expsum (_log_startprob self) = 1).
  { apply stochastic_expsum; [apply Hsp|apply Hst]. }
  destruct (draw_state_positive _ r (proj2 Hsp) Hsum Hr01) as (s & Hs & Hb & Hp).
  rewrite Hs in Hrun. cbn [bind emit_state] in Hrun.
  destruct (rvs_loop rand emit_state _ (n - 1) s g1) as [[rest g2]|e] eqn:Hrec;
    [|discriminate].
  cbn [bind fst snd] in Hrun. injection Hrun as <- <-.
  destruct Hsp as [Hl _]. rewrite Hl in Hb.
  destruct (rvs_loop_positive rand self Hdraw Hwf Hst _ _ _ _ _ Hb Hrec) as [Hpos Hall].
  split; [|constructor; assumption].
  cbn [positive_path]. split; [exact Hp|exact Hpos].
Qed.

Lemma rvs_chain3_returns (rand : nat -> float * nat) n g :
  exists path g', rvs rand emit_state chain3 n g = Ok (path, g').
Proof.
  destruct (rvs_length rand emit_state chain3 n g) as (obs & g' & Hrun & _).
  - apply well_formed_rows_nonempty; [exact chain3_well_formed|simpl; lia].
  - reflexivity.
  - discriminate.
  - now exists obs, g'.
Qed.

Lemma rvs_path_has_positive_probability_witness :
  uniform_draws (fun g : nat => (Fin (1 / 2), S g))
  /\ well_formed chain3
  /\ stochastic chain3
  /\ exists path g',
       rvs (fun g : nat => (Fin (1 / 2), S g)) emit_state chain3 4 O = Ok (path, g')
       /\ positive_path chain3 path
       /\ Forall (fun s => (s < 3)%nat) path.
Proof.
  assert (Hdraw : uniform_draws (fun g : nat => (Fin (1 / 2), S g))).
  { intros g. exists (1 / 2). split; [reflexivity|lra]. }
  split; [exact Hdraw|]. split; [exact chain3_well_formed|].
  split; [exact chain3_stochastic|].
  destruct (rvs_chain3_returns (fun g : nat => (Fin (1 / 2), S g)) 4 O)
    as (path & g' & Hrun).
  exists path, g'. split; [exact Hrun|].
  exact (rvs_path_has_positive_probability nat _ chain3 4 O g' path Hdraw
           chain3_well_formed chain3_stochastic Hrun).
Defined.

(** ** The lattices of the inference passes *)

Ltac bind_ok H x E :=
  match type of H with
  | bind ?r _ = Ok _ => destruct r as [x|?] eqn:E; [cbn [bind] in H | discriminate]
  end.

Lemma forward_rows_length self maxrank beamlogprob frames :
  forall prev rows,
    forward_rows self maxrank beamlogprob prev frames = Ok rows ->
    List.length rows = List.length frames.
Proof.
  induction frames as [|frame rest IH]; intros prev rows Hrun.
  - injection Hrun as <-. reflexivity.
  - cbn [forward_rows] in Hrun.
    bind_ok Hrun row Hrow. bind_ok Hrun rows' Hrows.
    injection Hrun as <-. cbn [List.length]. f_equal. eapply IH; eauto.
Qed.

Lemma forward_pass_shape self framelogprob maxrank beamlogprob logprob fwdlattice :
  _do_forward_pass self framelogprob maxrank beamlogprob = Ok (logprob, fwdlattice) ->
  List.length fwdlattice = List.length framelogprob
  /\ framelogprob <> []
  /\ logprob = logsum (last fwdlattice []).
Proof.
  intros Hrun. unfold _do_forward_pass in Hrun.
  destruct framelogprob as [|frame0 rest]; [discriminate|].
  bind_ok Hrun rows Hrows. injection Hrun as <- <-.
  split; [|split; [discriminate|reflexivity]].
  cbn [List.length]. unfold clamp_lattice. rewrite length_map. f_equal.
  eapply forward_rows_length; eauto.
Qed.

Lemma backward_rows_shape self pairs rows :
  backward_rows self pairs = Ok rows ->
  List.length rows = S (List.length pairs)
  /\ last rows [] = repeat (Fin 0) (_nstates self)
  /\ Forall (fun row => List.length row = _nstates self) rows.
Proof.
  revert rows. induction pairs as [|[fwd frame] rest IH]; intros rows Hrun.
  - injection Hrun as <-. cbn. split; [reflexivity|]. split; [reflexivity|].
    constructor; [apply repeat_length|constructor].
  - cbn [backward_rows] in Hrun.
    bind_ok Hrun rows' Hrows. bind_ok Hrun row Hrow.
    injection Hrun as <-.
    destruct (IH rows' eq_refl) as (Hl & Hlast & Hall).
    split; [cbn [List.length]; now rewrite Hl|]. split.
    + destruct rows' as [|r rs]; [discriminate|]. exact Hlast.
    + constructor; [|exact Hall].
      unfold backward_step in Hrow. bind_ok Hrow idx Hidx.
      injection Hrow as <-. now rewrite length_map, length_seq.
Qed.

Lemma clamp_zero : clamp (Fin 0) = Fin 0.
Proof. unfold clamp, ZEROLOGPROB. cbn. now rewrite Rleb_false by rlra. Qed.

Lemma last_map {A B : Type} (f : A -> B) (l : list A) d :
  last (map f l) (f d) = f (last l d).
Proof.
  induction l as [|x l IH]; [reflexivity|].
  destruct l as [|y l]; [reflexivity|]. exact IH.
Qed.

Lemma clamp_finite_above x : finite_above_zerologprob (clamp x).
Proof.
  unfold clamp, finite_above_zerologprob. intros r Hr.
  destruct (fle x ZEROLOGPROB) eqn:E; [discriminate|]. subst x.
  unfold ZEROLOGPROB in E. cbn [fle] in E. apply Rleb_false_inv in E. exact E.
Qed.

Lemma clamp_lattice_finite_above rows :
  Forall (Forall finite_above_zerologprob) (clamp_lattice rows).
Proof.
  unfold clamp_lattice. apply (proj2 (Forall_map _ _ _)).
  apply Forall_forall. intros row _. apply (proj2 (Forall_map _ _ _)).
  apply Forall_forall. intros x _. apply clamp_finite_above.
Qed.

(** X8.  When the backward pass returns (given at least one row of the
    forward lattice per frame), its lattice has one row per frame and
    [nstates] entries per row, the last row is the zeros
    (log-probability of one) that it was created with, and no finite
    entry is at or below [ZEROLOGPROB]: such entries were replaced by
    minus infinity. *)
Theorem backward_pass_shape :
  forall (self : hmm) (framelogprob fwdlattice : list (list float))
         (maxrank : option Z) (beamlogprob : float) (bwdlattice : list (list float)),
    (List.length framelogprob <= List.length fwdlattice)%nat ->
    _do_backward_pass self framelogprob fwdlattice maxrank beamlogprob = Ok bwdlattice ->
    List.length bwdlattice = List.length framelogprob
    /\ Forall (fun row => List.length row = _nstates self) bwdlattice
    /\ (framelogprob <> [] -> last bwdlattice [] = repeat (Fin 0) (_nstates self))
    /\ Forall (Forall finite_above_zerologprob) bwdlattice.
Proof.
  intros self frames fwd maxrank beam bwd Hlen Hrun.
  unfold _do_backward_pass in Hrun. destruct frames as [|frame0 rest].
  - injection Hrun as <-. repeat split; [constructor|congruence|constructor].
  - bind_ok Hrun rows Hrows. injection Hrun as <-.
    destruct (backward_rows_shape _ _ _ Hrows) as (Hl & Hlast & Hall).
    split; [|split; [|split]].
    + unfold clamp_lattice. rewrite length_map, Hl.
      destruct fwd as [|f0 fwd]; [cbn in Hlen; lia|].
      cbn [combine tl List.length] in *. rewrite length_combine. lia.
    + unfold clamp_lattice. apply Forall_map. revert Hall. apply Forall_impl.
      intros row Hrow. now rewrite length_map.
    + intros _. unfold clamp_lattice. change (@nil float) with (map clamp []) at 1.
      rewrite last_map, Hlast.
      rewrite map_repeat. now rewrite clamp_zero.
    + apply clamp_lattice_finite_above.
Qed.

Lemma backward_pass_shape_witness :
  (List.length [[Fin (-1); Fin 0]; [Fin 0; Fin 0]]
   <= List.length [[Fin 0; Fin 0]; [Fin 0; Fin 0]])%nat
  /\ exists bwdlattice,
       _do_backward_pass uniform2 [[Fin (-1); Fin 0]; [Fin 0; Fin 0]]
                         [[Fin 0; Fin 0]; [Fin 0; Fin 0]] (Some 1%Z) NInf
       = Ok bwdlattice
       /\ List.length bwdlattice = 2%nat
       /\ Forall (fun row => List.length row = 2%nat) bwdlattice
       /\ last bwdlattice [] = [Fin 0; Fin 0]
       /\ Forall (Forall finite_above_zerologprob) bwdlattice.
Proof.
  assert (Hlen : (List.length [[Fin (-1); Fin 0]; [Fin 0; Fin 0]]
                  <= List.length [[Fin 0; Fin 0]; [Fin 0; Fin 0]])%nat)
    by (cbn; lia).
  split; [exact Hlen|].
  destruct (backward_pass_total uniform2 [[Fin (-1); Fin 0]; [Fin 0; Fin 0]]
              [[Fin 0; Fin 0]; [Fin 0; Fin 0]] (Some 1%Z) NInf) as [bwd Hrun].
  exists bwd. split; [exact Hrun|].
  destruct (backward_pass_shape uniform2 [[Fin (-1); Fin 0]; [Fin 0; Fin 0]]
              [[Fin 0; Fin 0]; [Fin 0; Fin 0]] (Some 1%Z) NInf bwd Hlen Hrun)
    as (Hl & Hall & Hlast & Habove).
  repeat split; [exact Hl|exact Hall| |exact Habove].
  apply Hlast. discriminate.
Defined.

Lemma madd_length a b :
  List.length (madd a b) = Nat.min (List.length a) (List.length b).
Proof. unfold madd. now rewrite length_map, length_combine. Qed.

(** X9.  [eval] and [lpdf] agree on the log-likelihood: what [lpdf]
    raises, [eval] raises too, and when [eval] returns, [lpdf] returns
    the same log-likelihood and the posteriors have one row per
    frame. *)
Theorem eval_agrees_with_lpdf :
  forall (observations : Type)
         (_compute_log_likelihood : observations -> list (list float))
         (self : hmm) (obs : observations) (maxrank : option Z) (beamlogprob : float),
    (forall e,
       lpdf _compute_log_likelihood self obs maxrank beamlogprob = Err e ->
       eval _compute_log_likelihood self obs maxrank beamlogprob = Err e)
    /\ (forall logprob posteriors,
          eval _compute_log_likelihood self obs maxrank beamlogprob
          = Ok (logprob, posteriors) ->
          lpdf _compute_log_likelihood self obs maxrank beamlogprob = Ok logprob
          /\ List.length posteriors = List.length (_compute_log_likelihood obs)).
Proof.
  intros observations cll self obs maxrank beam. unfold lpdf, eval.
  destruct (_do_forward_pass self (cll obs) maxrank beam) as [[lp fwd]|e'] eqn:Hfwd;
    cbn [bind fst snd]; (split; [intros e He|intros logprob posteriors Hrun]);
    try discriminate; try (injection He as ->; reflexivity).
  destruct (forward_pass_shape _ _ _ _ _ _ Hfwd) as (Hl & Hne & _).
  bind_ok Hrun bwd Hbwd. injection Hrun as <- <-. split; [reflexivity|].
  rewrite length_map, madd_length, Hl.
  unfold _do_backward_pass in Hbwd.
  destruct (cll obs) as [|frame0 rest] eqn:Hobs; [congruence|].
  bind_ok Hbwd rows Hrows. injection Hbwd as <-.
  destruct (backward_rows_shape _ _ _ Hrows) as (Hr & _ & _).
  unfold clamp_lattice. rewrite length_map, Hr.
  destruct fwd as [|f0 fwd]; [discriminate|].
  cbn [combine tl List.length] in *. rewrite length_combine. lia.
Qed.

Lemma eval_agrees_with_lpdf_witness :
  exists logprob posteriors,
    eval (fun o : list (list float) => o) chain3 chain3_frames (Some 1%Z) NInf
    = Ok (logprob, posteriors)
    /\ lpdf (fun o : list (list float) => o) chain3 chain3_frames (Some 1%Z) NInf
       = Ok logprob
    /\ List.length posteriors = List.length chain3_frames.
Proof.
  destruct (eval (fun o : list (list float) => o) chain3 chain3_frames (Some 1%Z) NInf)
    as [[logprob posteriors]|e] eqn:He.
  - exists logprob, posteriors. split; [reflexivity|].
    destruct (eval_agrees_with_lpdf (list (list float)) (fun o => o) chain3
                chain3_frames (Some 1%Z) NInf) as [_ H].
    exact (H logprob posteriors He).
  - exfalso. unfold eval in He.
    pose proof chain3_lpdf as Hl. unfold lpdf in Hl.
    destruct (_do_forward_pass chain3 chain3_frames (Some 1%Z) NInf) as [fwd|e'];
      [|discriminate].
    cbn [bind] in He.
    destruct (backward_pass_total chain3 chain3_frames (snd fwd) (Some 1%Z) NInf)
      as [bwd Hb].
    rewrite Hb in He. discriminate.
Defined.

Lemma above_logval x : above_zerologprob x -> logval x.
Proof. intros [->|[r [-> _]]]; exact I. Qed.

Lemma expsum_pos_in a : 0 < expsum a -> exists x, In x a /\ 0 < expval x.
Proof.
  induction a as [|x a IH]; simpl; [lra|]. intros H.
  destruct (Rlt_dec 0 (expval x)) as [Hx|Hx].
  - exists x. split; [now left|exact Hx].
  - pose proof (expval_nonneg x). destruct IH as [y [Hy Hp]]; [lra|].
    exists y. split; [now right|exact Hp].
Qed.

Lemma logsum_above a : Forall above_zerologprob a -> above_zerologprob (logsum a).
Proof.
  intros Ha.
  assert (Hl : Forall logval a).
  { revert Ha. apply Forall_impl. exact above_logval. }
  destruct (logsum_spec a Hl) as [[_ E]|[Hpos E]]; rewrite E; [now left|].
  right. eexists. split; [reflexivity|].
  destruct (expsum_pos_in a Hpos) as [x [Hin Hx]].
  rewrite Forall_forall in Ha. destruct (Ha x Hin) as [->|[r [-> Hr]]].
  - simpl in Hx. lra.
  - pose proof (expsum_ge_in a r Hin) as Hge.
    pose proof (ln_le (exp r) (expsum a) (exp_pos r) Hge) as Hln.
    rewrite ln_exp in Hln. lra.
Qed.

Lemma fmaximum_logval x y : logval (fmaximum x y) -> logval x /\ logval y.
Proof.
  destruct x as [a| | |], y as [b| | |]; unfold fmaximum; cbn [isnan fle];
    try (destruct (Rleb b a)); cbn [logval]; tauto.
Qed.

(** A maximum that is finite or minus infinity is the maximum of such
    values only: NaN and plus infinity would show in it. *)
Lemma fold_fmaximum_logval a :
  forall init, logval (fold_left fmaximum a init) -> logval init /\ Forall logval a.
Proof.
  induction a as [|x a IH]; intros init H; cbn [fold_left] in H.
  - split; [exact H|constructor].
  - destruct (IH _ H) as [Hm Ha]. destruct (fmaximum_logval _ _ Hm) as [Hi Hx].
    split; [exact Hi|now constructor].
Qed.

Lemma fadd_fin_inv x y r : fadd x y = Fin r -> logval x /\ logval y.
Proof. destruct x, y; cbn; try discriminate. intros _. split; exact I. Qed.

Lemma logsum_finite_above a :
  Forall finite_above_zerologprob a -> finite_above_zerologprob (logsum a).
Proof.
  intros Ha r Hr.
  assert (Hl : Forall logval a).
  { unfold logsum in Hr.
    destruct (feqb (fold_left fmaximum a NInf) NInf); [discriminate|].
    destruct (fadd_fin_inv _ _ _ Hr) as [_ Hm].
    exact (proj2 (fold_fmaximum_logval a NInf Hm)). }
  assert (Hab : Forall above_zerologprob a).
  { rewrite Forall_forall in Ha, Hl |- *. intros x Hx.
    specialize (Ha x Hx). specialize (Hl x Hx).
    destruct x as [q| | |]; cbn in Hl; try tauto; [right|now left].
    exists q. split; [reflexivity|]. now apply Ha. }
  destruct (logsum_above a Hab) as [E|[q [E Hq]]]; rewrite Hr in E.
  - discriminate.
  - injection E as ->. exact Hq.
Qed.

(** X10.  Whatever the model, the frames and the pruning, when the
    forward pass returns, no finite entry of its lattice and no finite
    log-likelihood (what [lpdf] and [eval] return) is at or below
    [ZEROLOGPROB]: the entries at or below it were replaced by minus
    infinity, and the log-likelihood is [logsum] of the last row, which
    is not below the largest entry of the row. *)
Theorem forward_pass_values_above_zerologprob :
  forall (self : hmm) (framelogprob : list (list float)) (maxrank : option Z)
         (beamlogprob : float) (logprob : float) (fwdlattice : list (list float)),
    _do_forward_pass self framelogprob maxrank beamlogprob = Ok (logprob, fwdlattice) ->
    Forall (Forall finite_above_zerologprob) fwdlattice
    /\ finite_above_zerologprob logprob.
Proof.
  intros self frames maxrank beam lp fwd Hrun.
  unfold _do_forward_pass in Hrun.
  destruct frames as [|frame0 rest]; [discriminate|].
  bind_ok Hrun rows Hrows. injection Hrun as <- <-.
  pose proof (clamp_lattice_finite_above (vadd (_log_startprob self) frame0 :: rows))
    as Hall.
  split; [exact Hall|].
  apply logsum_finite_above.
  exact (last_Forall (Forall finite_above_zerologprob) _ [] Hall (Forall_nil _)).
Qed.

Lemma forward_pass_values_above_zerologprob_witness :
  exists logprob fwdlattice,
    _do_forward_pass chain3 chain3_frames (Some 1%Z) NInf = Ok (logprob, fwdlattice)
    /\ Forall (Forall finite_above_zerologprob) fwdlattice
    /\ finite_above_zerologprob logprob.
Proof.
  pose proof chain3_lpdf as Hl. unfold lpdf in Hl.
  destruct (_do_forward_pass chain3 chain3_frames (Some 1%Z) NInf)
    as [[lp fwd]|e] eqn:Hrun; [|discriminate].
  exists lp, fwd. split; [reflexivity|].
  exact (forward_pass_values_above_zerologprob chain3 chain3_frames (Some 1%Z) NInf
           lp fwd Hrun).
Defined.

Lemma expsum_zero_all_ninf a : Forall logval a -> expsum a = 0 -> Forall (fun x => x = NInf) a.
Proof.
  induction 1 as [|x a Hx Ha IH]; intros Hs; [constructor|].
  cbn [expsum fold_right] in Hs. fold (expsum a) in Hs.
  pose proof (expval_nonneg x). pose proof (expsum_nonneg a).
  constructor; [|apply IH; lra].
  destruct x as [r| | |]; simpl in Hx; try tauto.
  simpl in Hs. pose proof (exp_pos r). lra.
Qed.

Lemma normalize_frame_range g :
  Forall logval g ->
  Forall (fun p => p = NaN) (normalize_frame g)
  \/ Forall probability (normalize_frame g).
Proof.
  intros Hg. unfold normalize_frame.
  destruct (logsum_spec g Hg) as [[Hz E]|[Hpos E]]; rewrite E.
  - left. apply Forall_map.
    pose proof (expsum_zero_all_ninf g Hg Hz) as Hall.
    revert Hall. apply Forall_impl. intros x ->. reflexivity.
  - right. apply Forall_map. rewrite Forall_forall. intros x Hin.
    rewrite Forall_forall in Hg. specialize (Hg x Hin).
    destruct x as [r| | |]; simpl in Hg; try tauto.
    + cbn. eexists. split; [reflexivity|].
      pose proof (expsum_ge_in g r Hin) as Hge.
      pose proof (ln_le (exp r) (expsum g) (exp_pos r) Hge) as Hln.
      rewrite ln_exp in Hln.
      split; [left; apply exp_pos|].
      rewrite <- exp_0. destruct (Req_dec (r + - ln (expsum g)) 0) as [->|Hne];
        [lra|]. left. apply exp_increasing. lra.
    + cbn. exists 0. split; [reflexivity|lra].
Qed.

(** X11.  On a model with well-formed parameters, every row of the
    posteriors that [eval] returns has [nstates] entries, and they are
    all probabilities of [[0, 1]] or, when no state is reachable in
    that frame, all NaN. *)
Theorem eval_posteriors_are_probabilities :
  forall (observations : Type)
         (_compute_log_likelihood : observations -> list (list float))
         (self : hmm) (obs : observations) (maxrank : option Z) (beamlogprob : float)
         (logprob : float) (posteriors : list (list float)),
    well_formed self ->
    frames_ok (_nstates self) (_compute_log_likelihood obs) ->
    eval _compute_log_likelihood self obs maxrank beamlogprob = Ok (logprob, posteriors) ->
    Forall (fun row => List.length row = _nstates self
                       /\ (Forall (fun p => p = NaN) row \/ Forall probability row))
           posteriors.
Proof.
  intros observations cll self obs maxrank beam logprob posteriors Hwf Hframes Hrun.
  unfold eval in Hrun.
  destruct (_do_forward_pass self (cll obs) maxrank beam) as [[lp fwd]|e] eqn:Hfwd;
    [|discriminate].
  cbn [bind snd fst] in *.
  bind_ok Hrun bwd Hbwd.
  pose proof (forward_pass_logvec _ _ _ _ _ _ Hwf Hframes Hfwd) as Hfl.
  pose proof (backward_pass_logvec _ _ _ _ _ _ Hwf Hframes Hfl Hbwd) as Hbl.
  injection Hrun as _ <-. apply Forall_map.
  eapply Forall_impl; [|apply (madd_logvec _ _ _ Hfl Hbl)].
  intros g [Hl Hg]. split.
  - unfold normalize_frame. now rewrite length_map.
  - now apply normalize_frame_range.
Qed.

Lemma eval_posteriors_are_probabilities_witness :
  well_formed chain3
  /\ frames_ok 3 chain3_frames
  /\ exists logprob posteriors,
       eval (fun o : list (list float) => o) chain3 chain3_frames (Some 1%Z) NInf
       = Ok (logprob, posteriors)
       /\ Forall (fun row => List.length row = 3%nat
                             /\ (Forall (fun p => p = NaN) row
                                 \/ Forall probability row))
                 posteriors.
Proof.
  assert (Hf : frames_ok 3 chain3_frames) by repeat constructor.
  split; [exact chain3_well_formed|]. split; [exact Hf|].
  destruct (eval (fun o : list (list float) => o) chain3 chain3_frames (Some 1%Z) NInf)
    as [[logprob posteriors]|e] eqn:He.
  - exists logprob, posteriors. split; [reflexivity|].
    exact (eval_posteriors_are_probabilities (list (list float)) (fun o => o) chain3
             chain3_frames (Some 1%Z) NInf logprob posteriors
             chain3_well_formed Hf He).
  - exfalso. unfold eval in He.
    pose proof chain3_lpdf as Hl. unfold lpdf in Hl.
    destruct (_do_forward_pass chain3 chain3_frames (Some 1%Z) NInf) as [fwd|e'];
      [|discriminate].
    cbn [bind] in He.
    destruct (backward_pass_total chain3 chain3_frames (snd fwd) (Some 1%Z) NInf)
      as [bwd Hb].
    rewrite Hb in He. discriminate.
Defined.

(** ** The state sequence of [decode] *)

Lemma argmax_from_bound a :
  forall i best bi,
    argmax_from a i best bi = bi
    \/ (i <= argmax_from a i best bi < i + List.length a)%nat.
Proof.
  induction a as [|x a IH]; intros i best bi; cbn [argmax_from List.length].
  - now left.
  - destruct (fgt x best).
    + destruct (IH (S i) x i) as [E|H]; right; [rewrite E|]; lia.
    + destruct (IH (S i) best bi) as [E|H]; [now left|right; lia].
Qed.

Lemma np_argmax_bound a k : np_argmax a = Ok k -> (k < List.length a)%nat.
Proof.
  destruct a as [|x a]; [discriminate|]. cbn [np_argmax List.length].
  intros H. injection H as <-.
  destruct (argmax_from_bound a 1 x 0) as [E|H]; [rewrite E|]; lia.
Qed.

Lemma mapM_spec {A B : Type} (f : A -> result B) l :
  forall ys, mapM f l = Ok ys -> Forall2 (fun x y => f x = Ok y) l ys.
Proof.
  induction l as [|x l IH]; intros ys Hrun; cbn [mapM] in Hrun.
  - injection Hrun as <-. constructor.
  - bind_ok Hrun y Hy. bind_ok Hrun ys' Hys. injection Hrun as <-.
    constructor; [exact Hy|now apply IH].
Qed.

Lemma nonzero_from_length p a i : (List.length (nonzero_from p a i) <= List.length a)%nat.
Proof.
  revert i. induction a as [|x a IH]; intros i; cbn [nonzero_from List.length]; [lia|].
  specialize (IH (S i)). destruct (p x); cbn [List.length]; lia.
Qed.

Lemma prune_states_length self frame maxrank beamlogprob idx :
  _prune_states self frame maxrank beamlogprob = Ok idx ->
  (List.length idx <= List.length frame)%nat.
Proof.
  unfold _prune_states. intros Hrun. bind_ok Hrun t Ht.
  injection Hrun as <-. apply nonzero_from_length.
Qed.

Lemma viterbi_step_shape self maxrank beamlogprob prev frame row tb :
  viterbi_step self maxrank beamlogprob prev frame = Ok (row, tb) ->
  List.length row = Nat.min (_nstates self) (List.length frame)
  /\ List.length tb = _nstates self
  /\ Forall (fun k => (k < List.length prev)%nat) tb.
Proof.
  unfold viterbi_step. intros Hrun.
  bind_ok Hrun idx Hidx. bind_ok Hrun mx Hmx. bind_ok Hrun am Ham.
  injection Hrun as <- <-.
  pose proof (Forall2_length (mapM_spec _ _ _ Hmx)) as Lmx.
  pose proof (mapM_spec _ _ _ Ham) as Fam.
  pose proof (Forall2_length Fam) as Lam.
  rewrite length_seq in Lmx, Lam.
  split; [rewrite vadd_length; congruence|]. split; [congruence|].
  pose proof (prune_states_length _ _ _ _ _ Hidx) as Hle.
  clear - Fam Hle. induction Fam as [|d k ds ks Hk _ IH]; constructor; [|exact IH].
  apply np_argmax_bound in Hk. unfold pr_row in Hk.
  rewrite length_map in Hk. lia.
Qed.

Lemma viterbi_rows_shape self maxrank beamlogprob frames :
  Forall (fun frame => List.length frame = _nstates self) frames ->
  forall prev rows,
    List.length prev = _nstates self ->
    viterbi_rows self maxrank beamlogprob prev frames = Ok rows ->
    List.length rows = List.length frames
    /\ Forall (fun row => List.length row = _nstates self) (map fst rows)
    /\ Forall (fun tb => List.length tb = _nstates self
                         /\ Forall (fun k => (k < _nstates self)%nat) tb)
              (map snd rows).
Proof.
  induction 1 as [|frame rest Hframe Hrest IH]; intros prev rows Hprev Hrun;
    cbn [viterbi_rows] in Hrun.
  - injection Hrun as <-. repeat split; constructor.
  - bind_ok Hrun row Hrow. bind_ok Hrun rows' Hrows. injection Hrun as <-.
    destruct row as [v tb].
    destruct (viterbi_step_shape _ _ _ _ _ _ _ Hrow) as (Lv & Ltb & Btb).
    rewrite Hframe, Nat.min_id in Lv. rewrite Hprev in Btb.
    destruct (IH v rows' Lv Hrows) as (Hl & Hv & Ht).
    cbn [List.length map fst snd]. split; [now rewrite Hl|].
    split; constructor; auto.
Qed.

Lemma walk_traceback_valid n tbs :
  Forall (fun tb => Forall (fun k => (k < n)%nat) tb) tbs ->
  forall s, (s < n)%nat ->
    List.length (walk_traceback tbs s) = List.length tbs
    /\ Forall (fun k => (k < n)%nat) (walk_traceback tbs s).
Proof.
  induction 1 as [|tb tbs Htb Htbs IH]; intros s Hs; cbn [walk_traceback List.length].
  - split; [reflexivity|constructor].
  - assert (Hnext : (nth s tb O < n)%nat).
    { destruct (nth_in_or_default s tb O) as [Hin | ->]; [|lia].
      rewrite Forall_forall in Htb. now apply Htb. }
    destruct (IH _ Hnext) as [Hl Hall].
    split; [now rewrite Hl|now constructor].
Qed.

(** X12.  On a model with well-formed parameters, whatever the pruning,
    the state sequence that [decode] returns has one state per frame
    and every state is below [nstates]. *)
Theorem decode_returns_valid_path :
  forall (observations : Type)
         (_compute_log_likelihood : observations -> list (list float))
         (self : hmm) (obs : observations) (maxrank : option Z) (beamlogprob : float)
         (score : float) (path : list nat),
    well_formed self ->
    frames_ok (_nstates self) (_compute_log_likelihood obs) ->
    decode _compute_log_likelihood self obs maxrank beamlogprob = Ok (score, path) ->
    List.length path = List.length (_compute_log_likelihood obs)
    /\ Forall (fun s => (s < _nstates self)%nat) path.
Proof.
  intros observations cll self obs maxrank beam score path Hwf Hframes Hrun.
  unfold decode, _do_viterbi_pass in Hrun.
  bind_ok Hrun tables Htables. bind_ok Hrun s Hs. injection Hrun as _ <-.
  unfold viterbi_tables in Htables.
  destruct (cll obs) as [|frame0 rest]; [discriminate|].
  bind_ok Htables rows Hrows. injection Htables as <-. cbn [fst snd] in *.
  inversion Hframes as [|? ? Hframe0 Hrest]; subst.
  assert (Hlens : Forall (fun frame => List.length frame = _nstates self) rest).
  { revert Hrest. apply Forall_impl. now intros frame [Hl _]. }
  assert (Hrow0 : List.length (vadd (_log_startprob self) frame0) = _nstates self).
  { apply (logvec_vadd _ _ _ (proj1 Hwf) Hframe0). }
  destruct (viterbi_rows_shape _ _ _ _ Hlens _ _ Hrow0 Hrows) as (Hl & Hv & Ht).
  assert (Hsn : (s < _nstates self)%nat).
  { apply np_argmax_bound in Hs.
    assert (Hlast : List.length (last (clamp_lattice
                      (vadd (_log_startprob self) frame0 :: map fst rows)) [])
                    = _nstates self).
    { apply (last_nonempty_Forall (fun row => List.length row = _nstates self));
        [discriminate|].
      unfold clamp_lattice. apply (proj2 (Forall_map _ _ _)).
      constructor; [now rewrite length_map|].
      revert Hv. apply Forall_impl. intros row Hrow. now rewrite length_map. }
    now rewrite Hlast in Hs. }
  assert (Htb : Forall (fun tb => Forall (fun k => (k < _nstates self)%nat) tb)
                       (rev (repeat O (_nstates self) :: map snd rows))).
  { apply Forall_rev. constructor.
    - apply Forall_forall. intros k Hk. apply repeat_spec in Hk. lia.
    - revert Ht. apply Forall_impl. now intros tb [_ H]. }
  destruct (walk_traceback_valid _ _ Htb s Hsn) as [Hwl Hwall].
  split.
  - rewrite length_rev, Hwl, length_rev. cbn [List.length].
    now rewrite length_map, Hl.
  - now apply Forall_rev.
Qed.

Lemma uniform2_decode_pruned :
  exists score,
    decode (fun o : list (list float) => o) uniform2
           [[Fin (-1); Fin 0]; [Fin 0; Fin 0]] (Some 1%Z) NInf
    = Ok (score, [0; 0]%nat).
Proof.
  pose proof ln2_bounds as HL.
  unfold decode, _do_viterbi_pass, viterbi_tables. cbn [viterbi_rows].
  unfold viterbi_step. rewrite uniform2_frame0_active. reval.
  unfold clamp_lattice, clamp, ZEROLOGPROB. reval.
  eexists. reflexivity.
Qed.

Lemma decode_returns_valid_path_witness :
  let obs := [[Fin (-1); Fin 0]; [Fin 0; Fin 0]] in
  well_formed uniform2
  /\ frames_ok 2 obs
  /\ exists score path,
       decode (fun o : list (list float) => o) uniform2 obs (Some 1%Z) NInf
       = Ok (score, path)
       /\ List.length path = 2%nat
       /\ Forall (fun s => (s < 2)%nat) path.
Proof.
  intros obs.
  assert (Hf : frames_ok 2 obs) by repeat constructor.
  split; [exact uniform2_well_formed|]. split; [exact Hf|].
  destruct (decode (fun o : list (list float) => o) uniform2 obs (Some 1%Z) NInf)
    as [[score path]|e] eqn:He.
  - exists score, path. split; [reflexivity|].
    exact (decode_returns_valid_path (list (list float)) (fun o => o) uniform2 obs
             (Some 1%Z) NInf score path uniform2_well_formed Hf He).
  - exfalso. destruct uniform2_decode_pruned as [sc Hd].
    unfold obs in He. rewrite Hd in He. discriminate.
Defined.

(** ** The active states of [_prune_states] *)

Lemma increasing_from_weaken l : forall lo lo',
  (lo' <= lo)%nat -> increasing_from lo l -> increasing_from lo' l.
Proof.
  destruct l as [|x l]; intros lo lo' Hle H; [exact I|].
  destruct H as [Hx Hl]. split; [lia|exact Hl].
Qed.

Lemma nonzero_from_spec p a :
  forall i,
    increasing_from i (nonzero_from p a i)
    /\ forall s, In s (nonzero_from p a i)
                 <-> (i <= s < i + List.length a)%nat /\ p (nth (s - i) a NaN) = true.
Proof.
  induction a as [|x a IH]; intros i; cbn [nonzero_from List.length].
  - split; [exact I|]. intros s. split; [intros []|intros [H _]; lia].
  - destruct (IH (S i)) as [Hinc Hin]. split.
    + destruct (p x); [split; [lia|exact Hinc]|].
      eapply increasing_from_weaken; [|exact Hinc]. lia.
    + intros s. destruct (Nat.eq_dec s i) as [->|Hne].
      * rewrite Nat.sub_diag. cbn [nth]. destruct (p x) eqn:E.
        -- split; [intros _; split; [lia|reflexivity]|intros _; now left].
        -- split; [|intros [_ H]; discriminate].
           intros H. apply Hin in H. lia.
      * assert (Hiff : In s (nonzero_from p a (S i))
                       <-> (i <= s < i + S (List.length a))%nat
                           /\ p (nth (s - i) (x :: a) NaN) = true).
        { rewrite Hin. split; intros [Hb Hp].
          - split; [lia|]. replace (s - i)%nat with (S (s - S i)) by lia. exact Hp.
          - split; [lia|]. replace (s - i)%nat with (S (s - S i)) in Hp by lia.
            exact Hp. }
        rewrite <- Hiff. destruct (p x); [|reflexivity].
        split; [intros [H|H]; [congruence|exact H]|intros H; now right].
Qed.

Lemma np_nonzero_spec p a s :
  In s (np_nonzero p a) <-> (s < List.length a)%nat /\ p (vget a s) = true.
Proof.
  unfold np_nonzero, vget. destruct (nonzero_from_spec p a 0) as [_ H].
  rewrite H, Nat.sub_0_r. split; intros [Hb Hp]; (split; [lia|exact Hp]).
Qed.

(** X13.  Whatever the pruning, the active states that [_prune_states]
    returns are in increasing order and below the length of the frame,
    and they are an upper set of the frame: a state whose value is not
    below the value of an active state is active too.  When [maxrank]
    is [None] or [0] the active states are exactly the states at or
    above [logsum(frame) + beamlogprob]. *)
Theorem prune_states_keeps_an_upper_set :
  forall (self : hmm) (frame : list float) (maxrank : option Z) (beamlogprob : float)
         (idx : list nat),
    _prune_states self frame maxrank beamlogprob = Ok idx ->
    increasing_from 0 idx
    /\ Forall (fun s => (s < List.length frame)%nat) idx
    /\ (forall s s', In s idx -> (s' < List.length frame)%nat ->
                     fle (vget frame s) (vget frame s') = true -> In s' idx)
    /\ (truthy maxrank = false ->
        forall s, In s idx
                  <-> (s < List.length frame)%nat
                      /\ fge (vget frame s) (fadd (logsum frame) beamlogprob) = true).
Proof.
  intros self frame maxrank beam idx Hrun.
  pose proof (prune_states_bound _ _ _ _ _ Hrun) as Hbound.
  unfold _prune_states in Hrun.
  destruct (truthy maxrank) eqn:Ht.
  - bind_ok Hrun t Hthr. injection Hrun as <-.
    split; [apply (nonzero_from_spec _ frame 0)|]. split; [exact Hbound|].
    split; [|discriminate].
    intros s s' Hs Hs' Hle. apply np_nonzero_spec in Hs. apply np_nonzero_spec.
    split; [exact Hs'|]. unfold fge in *. eapply fle_trans; [apply Hs|exact Hle].
  - cbn [bind] in Hrun. injection Hrun as <-.
    split; [apply (nonzero_from_spec _ frame 0)|]. split; [exact Hbound|].
    split; [|intros _ s; apply np_nonzero_spec].
    intros s s' Hs Hs' Hle. apply np_nonzero_spec in Hs. apply np_nonzero_spec.
    split; [exact Hs'|]. unfold fge in *. eapply fle_trans; [apply Hs|exact Hle].
Qed.

Lemma prune_states_keeps_an_upper_set_witness :
  let idx := [0]%nat in
  let frame := [Fin 0; Fin (-1)] in
  _prune_states uniform2 frame (Some 2%Z) NInf = Ok idx
  /\ increasing_from 0 idx
  /\ Forall (fun s => (s < 2)%nat) idx
  /\ (forall s s', In s idx -> (s' < 2)%nat ->
                   fle (vget frame s) (vget frame s') = true -> In s' idx).
Proof.
  intros idx frame.
  pose proof (prune_states_example (_log_startprob uniform2) (_log_transmat uniform2))
    as Hrun.
  split; [exact Hrun|].
  destruct (prune_states_keeps_an_upper_set uniform2 frame (Some 2%Z) NInf idx Hrun)
    as (H1 & H2 & H3 & _).
  split; [exact H1|]. split; [exact H2|exact H3].
Defined.

Lemma filter_none {A : Type} (p : A -> bool) l :
  Forall (fun x => p x = false) l -> filter p l = [].
Proof.
  induction 1 as [|x l Hx Hl IH]; [reflexivity|]. cbn [filter]. now rewrite Hx.
Qed.

Lemma prune_states_dead_frame self frame maxrank beamlogprob :
  truthy maxrank = true ->
  Forall (fun x => fgt x ZEROLOGPROB = false) frame ->
  _prune_states self frame maxrank beamlogprob
  = Err (ValueError "zero-size array to reduction operation minimum").
Proof.
  intros Ht Hdead. unfold _prune_states, rank_threshold. rewrite Ht.
  rewrite (filter_none _ _ Hdead). reflexivity.
Qed.

(** X14.  With rank pruning switched on ([maxrank] neither [None] nor
    [0]), a frame of the lattice in which no state is above
    [ZEROLOGPROB] makes [_prune_states] raise [ValueError]: the minimum
    of an empty selection is taken.  So when the first observation is
    impossible in every state and another frame follows, [lpdf], [eval]
    and [decode] raise that error, where without rank pruning [lpdf]
    returns. *)
Theorem rank_pruning_raises_on_dead_frame :
  forall (observations : Type)
         (_compute_log_likelihood : observations -> list (list float))
         (self : hmm) (obs : observations) (maxrank : option Z) (beamlogprob : float)
         (frame0 frame1 : list float) (rest : list (list float)),
    truthy maxrank = true ->
    _compute_log_likelihood obs = frame0 :: frame1 :: rest ->
    Forall (fun x => fgt x ZEROLOGPROB = false) (vadd (_log_startprob self) frame0) ->
    (exists msg,
       lpdf _compute_log_likelihood self obs maxrank beamlogprob = Err (ValueError msg)
       /\ eval _compute_log_likelihood self obs maxrank beamlogprob
          = Err (ValueError msg)
       /\ decode _compute_log_likelihood self obs maxrank beamlogprob
          = Err (ValueError msg))
    /\ exists idx,
         _prune_states self (vadd (_log_startprob self) frame0) None beamlogprob = Ok idx.
Proof.
  intros observations cll self obs maxrank beam frame0 frame1 rest Ht Hobs Hdead.
  pose proof (prune_states_dead_frame self _ maxrank beam Ht Hdead) as Hp.
  split; [|apply prune_states_none_total].
  eexists.
  unfold lpdf, eval, decode, _do_viterbi_pass, viterbi_tables, _do_forward_pass.
  rewrite Hobs. cbn [forward_rows viterbi_rows]. unfold forward_step, viterbi_step.
  rewrite Hp. cbn [bind]. repeat split.
Qed.

Lemma rank_pruning_raises_on_dead_frame_witness :
  let obs := [[NInf; NInf]; [Fin 0; Fin 0]] in
  truthy (Some 1%Z) = true
  /\ Forall (fun x => fgt x ZEROLOGPROB = false) (vadd (_log_startprob uniform2) [NInf; NInf])
  /\ exists msg,
       lpdf (fun o : list (list float) => o) uniform2 obs (Some 1%Z) NInf
       = Err (ValueError msg)
       /\ eval (fun o : list (list float) => o) uniform2 obs (Some 1%Z) NInf
          = Err (ValueError msg)
       /\ decode (fun o : list (list float) => o) uniform2 obs (Some 1%Z) NInf
          = Err (ValueError msg).
Proof.
  intros obs.
  assert (Hdead : Forall (fun x => fgt x ZEROLOGPROB = false)
                         (vadd (_log_startprob uniform2) [NInf; NInf])).
  { repeat constructor. }
  split; [reflexivity|]. split; [exact Hdead|].
  destruct (rank_pruning_raises_on_dead_frame (list (list float)) (fun o => o) uniform2
              obs (Some 1%Z) NInf [NInf; NInf] [Fin 0; Fin 0] [] eq_refl eq_refl Hdead)
    as [H _].
  exact H.
Defined.

Lemma fle_antisym x y : fle x y = true -> fle y x = true -> x = y.
Proof.
  destruct x, y; simpl; try congruence.
  rewrite !Rleb_spec. intros H1 H2. f_equal. lra.
Qed.

Lemma In_vget a x : In x a -> exists s, (s < List.length a)%nat /\ vget a s = x.
Proof.
  intros Hin. destruct (In_nth a x NaN Hin) as [s [Hs E]]. now exists s.
Qed.

(** X15.  Rank pruning with [maxrank = 1] (and no beam) keeps exactly
    the best states: on a frame of log-values with a state above
    [ZEROLOGPROB], the active states are the states whose value is the
    maximum of the frame, and there is at least one. *)
Theorem rank_one_keeps_the_best_states :
  forall (self : hmm) (frame : list float),
    Forall logval frame ->
    Exists (fun x => fgt x ZEROLOGPROB = true) frame ->
    exists best idx,
      np_max frame = Ok best
      /\ _prune_states self frame (Some 1%Z) NInf = Ok idx
      /\ idx <> []
      /\ forall s, In s idx <-> (s < List.length frame)%nat /\ vget frame s = best.
Proof.
  intros self frame Hlv Hex.
  destruct (prune_states_rank_one self frame Hlv Hex) as (b & Hmax & Hrun).
  exists (Fin b), (np_nonzero (fun x => fge x (Fin b)) frame).
  split; [exact Hmax|]. split; [exact Hrun|].
  destruct (np_max_spec _ _ Hmax) as [Hin Hub].
  assert (Hnn : Forall (fun e => isnan e = false) frame).
  { revert Hlv. apply Forall_impl. exact logval_notnan. }
  specialize (Hub Hnn). rewrite Forall_forall in Hub.
  assert (Hiff : forall s, In s (np_nonzero (fun x => fge x (Fin b)) frame)
                           <-> (s < List.length frame)%nat /\ vget frame s = Fin b).
  { intros s. rewrite np_nonzero_spec. split; intros [Hs Hv]; (split; [exact Hs|]).
    - apply fle_antisym; [|exact Hv]. apply Hub. now apply nth_In.
    - rewrite Hv. unfold fge. now apply fle_refl. }
  split; [|exact Hiff].
  destruct (In_vget _ _ Hin) as [s [Hs Hv]].
  intros Hnil. assert (Hs' : In s (np_nonzero (fun x => fge x (Fin b)) frame))
    by (apply Hiff; now split).
  rewrite Hnil in Hs'. exact Hs'.
Qed.

Lemma rank_one_keeps_the_best_states_witness :
  let frame := [Fin (-3); Fin 0; Fin 0] in
  Forall logval frame
  /\ Exists (fun x => fgt x ZEROLOGPROB = true) frame
  /\ exists best idx,
       np_max frame = Ok best
       /\ _prune_states chain3 frame (Some 1%Z) NInf = Ok idx
       /\ idx <> []
       /\ forall s, In s idx <-> (s < 3)%nat /\ vget frame s = best.
Proof.
  intros frame.
  assert (Hlv : Forall logval frame) by repeat constructor.
  assert (Hex : Exists (fun x => fgt x ZEROLOGPROB = true) frame).
  { apply Exists_cons_hd. unfold ZEROLOGPROB. cbn. apply Rltb_true. rlra. }
  split; [exact Hlv|]. split; [exact Hex|].
  exact (rank_one_keeps_the_best_states chain3 frame Hlv Hex).
Defined.

(** ** The Viterbi path without pruning *)

Lemma flt_true_fle_false x y : flt x y = true -> fle y x = false.
Proof.
  destruct x, y; simpl; try congruence.
  rewrite Rltb_spec. intros H. apply Rleb_false. lra.
Qed.

Lemma flt_false_fle x y :
  isnan x = false -> isnan y = false -> flt x y = false -> fle y x = true.
Proof.
  destruct x, y; simpl; try congruence. intros _ _ H.
  apply Rleb_true. unfold Rltb in H. destruct (Rlt_dec r r0); [discriminate|lra].
Qed.

Lemma argmax_from_spec a :
  forall pre best bi,
    Forall (fun e => isnan e = false) a -> isnan best = false ->
    nth bi pre NaN = best -> (bi < List.length pre)%nat ->
    nth (argmax_from a (List.length pre) best bi) (pre ++ a) NaN
    = fold_left fmaximum a best.
Proof.
  induction a as [|x a IH]; intros pre best bi Ha Hb Hnth Hbi.
  - cbn. rewrite app_nil_r. exact Hnth.
  - inversion Ha as [|? ? Hx Ha']; subst.
    cbn [argmax_from fold_left].
    replace (pre ++ x :: a) with ((pre ++ [x]) ++ a) by (now rewrite <- app_assoc).
    replace (S (List.length pre)) with (List.length (pre ++ [x]))
      by (rewrite length_app; simpl; lia).
    destruct (fgt x (nth bi pre NaN)) eqn:E; unfold fgt in E.
    + assert (Hm : fmaximum (nth bi pre NaN) x = x).
      { unfold fmaximum. rewrite Hb, Hx. now rewrite (flt_true_fle_false _ _ E). }
      rewrite Hm. apply IH; auto.
      * rewrite app_nth2 by lia. now rewrite Nat.sub_diag.
      * rewrite length_app. simpl. lia.
    + assert (Hm : fmaximum (nth bi pre NaN) x = nth bi pre NaN).
      { unfold fmaximum. rewrite Hb, Hx. now rewrite (flt_false_fle _ _ Hb Hx E). }
      rewrite Hm. apply IH; auto.
      * now rewrite app_nth1 by lia.
      * rewrite length_app. simpl. lia.
Qed.

Lemma argmax_attains_max a :
  a <> [] -> Forall (fun e => isnan e = false) a ->
  vget a (argmax_or_zero a) = max_or_nan a.
Proof.
  destruct a as [|x a]; [congruence|]. intros _ Ha.
  inversion Ha as [|? ? Hx Ha']; subst.
  unfold vget, argmax_or_zero, max_or_nan.
  exact (argmax_from_spec a [x] x 0 Ha' Hx eq_refl ltac:(simpl; lia)).
Qed.

Lemma max_or_nan_upper a x :
  Forall (fun e => isnan e = false) a -> In x a -> fle x (max_or_nan a) = true.
Proof.
  intros Ha Hin. assert (Hne : a <> []) by (intros ->; exact Hin).
  destruct (np_max_spec a _ (np_max_nonempty a Hne)) as [_ Hub].
  specialize (Hub Ha). rewrite Forall_forall in Hub. now apply Hub.
Qed.

Lemma max_or_nan_in a : a <> [] -> In (max_or_nan a) a.
Proof. intros Hne. now destruct (np_max_spec a _ (np_max_nonempty a Hne)). Qed.

Lemma vget_vadd a b s :
  (s < List.length a)%nat -> (s < List.length b)%nat ->
  vget (vadd a b) s = fadd (vget a s) (vget b s).
Proof.
  unfold vget. revert b s. induction a as [|x a IH]; intros [|y b] [|s] Ha Hb;
    cbn in *; try lia; [reflexivity|]. apply IH; lia.
Qed.

Lemma nth_map_seq {A : Type} (f : nat -> A) n d (dflt : A) :
  (d < n)%nat -> nth d (map f (seq 0 n)) dflt = f d.
Proof.
  intros Hd. rewrite (nth_indep _ dflt (f O)) by (now rewrite length_map, length_seq).
  now rewrite map_nth, seq_nth.
Qed.

Lemma viterbi_step_explicit self prev frame :
  (0 < _nstates self)%nat -> logvec (_nstates self) prev ->
  viterbi_step self None NInf prev frame
  = Ok (vadd (map (fun d => max_or_nan (pr_row self prev (seq 0 (_nstates self)) d))
                  (seq 0 (_nstates self)))
             frame,
        map (fun d => argmax_or_zero (pr_row self prev (seq 0 (_nstates self)) d))
            (seq 0 (_nstates self))).
Proof.
  intros Hn [Hl Hlv]. unfold viterbi_step.
  rewrite (prune_states_default self prev Hlv), Hl. cbn [bind].
  assert (Hne : seq 0 (_nstates self) <> []).
  { destruct (_nstates self); [lia|discriminate]. }
  rewrite (mapM_map _ (fun d => max_or_nan (pr_row self prev (seq 0 (_nstates self)) d))).
  2:{ apply Forall_forall. intros d _. apply np_max_nonempty.
      now apply pr_row_nonempty. }
  cbn [bind].
  rewrite (mapM_map _ (fun d => argmax_or_zero (pr_row self prev (seq 0 (_nstates self)) d))).
  2:{ apply Forall_forall. intros d _. apply np_argmax_nonempty.
      now apply pr_row_nonempty. }
  reflexivity.
Qed.

Lemma pr_row_notnan self prev d :
  well_formed self -> logvec (_nstates self) prev -> (d < _nstates self)%nat ->
  Forall (fun e => isnan e = false) (pr_row self prev (seq 0 (_nstates self)) d).
Proof.
  intros Hwf Hprev Hd.
  pose proof (logval_pr_row self prev _ d Hwf Hprev (Forall_seq_lt _) Hd) as H.
  revert H. apply Forall_impl. exact logval_notnan.
Qed.

Lemma pr_row_entry self prev d s :
  (s < _nstates self)%nat ->
  vget (pr_row self prev (seq 0 (_nstates self)) d) s
  = fadd (mget (_log_transmat self) s d) (vget prev s).
Proof. intros Hs. unfold vget at 1, pr_row. now rewrite nth_map_seq. Qed.

(** The entries of a row of the Viterbi lattice: the best entry of the
    previous row after the transition, plus the frame. *)
Lemma viterbi_row_entry self prev frame d :
  logvec (_nstates self) frame -> (d < _nstates self)%nat ->
  vget (vadd (map (fun d => max_or_nan (pr_row self prev (seq 0 (_nstates self)) d))
                  (seq 0 (_nstates self)))
             frame) d
  = fadd (max_or_nan (pr_row self prev (seq 0 (_nstates self)) d)) (vget frame d).
Proof.
  intros [Hl _] Hd. rewrite vget_vadd.
  - unfold vget at 1. now rewrite nth_map_seq.
  - now rewrite length_map, length_seq.
  - now rewrite Hl.
Qed.

Lemma last_cons {A : Type} (x : A) l d : last (x :: l) d = last l x.
Proof.
  revert x d. induction l as [|y l IH]; intros x d; [reflexivity|].
  change (last (x :: y :: l) d) with (last (y :: l) d).
  now rewrite (IH y d), (IH y x).
Qed.

Lemma viterbi_step_logvec self prev frame :
  well_formed self -> (0 < _nstates self)%nat ->
  logvec (_nstates self) prev -> logvec (_nstates self) frame ->
  logvec (_nstates self)
         (vadd (map (fun d => max_or_nan (pr_row self prev (seq 0 (_nstates self)) d))
                    (seq 0 (_nstates self)))
               frame).
Proof.
  intros Hwf Hn Hprev Hframe.
  destruct (viterbi_step_unpruned self prev frame Hwf Hn Hprev Hframe)
    as (vrow & tb & Hrun & Hlv & _).
  rewrite (viterbi_step_explicit self prev frame Hn Hprev) in Hrun.
  injection Hrun as -> _. exact Hlv.
Qed.

(** No path scores above the entry of the lattice at its last state. *)
Lemma viterbi_rows_upper self frames :
  well_formed self -> (0 < _nstates self)%nat -> frames_ok (_nstates self) frames ->
  forall prev rows,
    logvec (_nstates self) prev ->
    viterbi_rows self None NInf prev frames = Ok rows ->
    forall q acc s,
      logval acc -> (s < _nstates self)%nat -> fle acc (vget prev s) = true ->
      List.length q = List.length frames ->
      Forall (fun k => (k < _nstates self)%nat) q ->
      logval (path_score_from self acc s frames q)
      /\ fle (path_score_from self acc s frames q)
             (vget (last (map fst rows) prev) (last q s)) = true.
Proof.
  intros Hwf Hn Hframes.
  induction Hframes as [|frame rest Hframe Hrest IH];
    intros prev rows Hprev Hrun q acc s Hacc Hs Hle Hlen Hq.
  - injection Hrun as <-. destruct q; [|discriminate]. cbn. now split.
  - destruct q as [|s' q]; [discriminate|].
    inversion Hq as [|? ? Hs' Hq']; subst.
    cbn [viterbi_rows] in Hrun.
    rewrite (viterbi_step_explicit self prev frame Hn Hprev) in Hrun.
    cbn [bind fst] in Hrun. bind_ok Hrun rows' Hrows. injection Hrun as <-.
    cbn [map fst path_score_from]. rewrite !last_cons.
    pose proof (viterbi_step_logvec self prev frame Hwf Hn Hprev Hframe) as Hrow.
    assert (Ht : logval (mget (_log_transmat self) s s')) by now apply mget_logval.
    assert (Hf : logval (vget frame s')) by now apply (vget_logval _ _ _ Hframe).
    assert (Hp : logval (vget prev s)) by now apply (vget_logval _ _ _ Hprev).
    apply (IH _ rows' Hrow Hrows).
    + now repeat apply logval_fadd.
    + exact Hs'.
    + rewrite (viterbi_row_entry self prev frame s' Hframe Hs').
      pose proof (pr_row_notnan self prev s' Hwf Hprev Hs') as Hnn.
      assert (Hin : In (fadd (mget (_log_transmat self) s s') (vget prev s))
                       (pr_row self prev (seq 0 (_nstates self)) s')).
      { rewrite <- (pr_row_entry self prev s' s Hs). apply nth_In.
        unfold pr_row. now rewrite length_map, length_seq. }
      pose proof (max_or_nan_upper _ _ Hnn Hin) as Hub.
      assert (Hm : logval (max_or_nan (pr_row self prev (seq 0 (_nstates self)) s'))).
      { pose proof (logval_pr_row self prev _ s' Hwf Hprev (Forall_seq_lt _) Hs') as Hlv.
        rewrite Forall_forall in Hlv. apply Hlv. apply max_or_nan_in.
        intros E. rewrite E in Hin. exact Hin. }
      apply fadd_mono_l; auto; [now apply logval_fadd|].
      eapply fle_trans; [|exact Hub]. now apply fadd_mono_r.
    + simpl in Hlen. lia.
    + exact Hq'.
Qed.

Lemma walk_traceback_app rtb tb :
  forall s, walk_traceback (rtb ++ [tb]) s = walk_traceback rtb s ++ [walk_end rtb s].
Proof.
  induction rtb as [|frame rtb IH]; intros s; [reflexivity|].
  cbn [app walk_traceback walk_end]. now rewrite IH.
Qed.

Lemma walk_end_app rtb tb :
  forall s, walk_end (rtb ++ [tb]) s = nth (walk_end rtb s) tb O.
Proof.
  induction rtb as [|frame rtb IH]; intros s; [reflexivity|].
  cbn [app walk_end]. now rewrite IH.
Qed.

(** The path that the traceback reads from a state of the last row
    scores exactly the entry of the lattice at that state. *)
Lemma viterbi_rows_attained self frames :
  well_formed self -> (0 < _nstates self)%nat -> frames_ok (_nstates self) frames ->
  forall prev rows,
    logvec (_nstates self) prev ->
    viterbi_rows self None NInf prev frames = Ok rows ->
    forall d, (d < _nstates self)%nat ->
      (walk_end (rev (map snd rows)) d < _nstates self)%nat
      /\ path_score_from self (vget prev (walk_end (rev (map snd rows)) d))
                         (walk_end (rev (map snd rows)) d) frames
                         (rev (walk_traceback (rev (map snd rows)) d))
         = vget (last (map fst rows) prev) d.
Proof.
  intros Hwf Hn Hframes.
  induction Hframes as [|frame rest Hframe Hrest IH]; intros prev rows Hprev Hrun d Hd.
  - injection Hrun as <-. cbn. now split.
  - cbn [viterbi_rows] in Hrun.
    rewrite (viterbi_step_explicit self prev frame Hn Hprev) in Hrun.
    cbn [bind fst] in Hrun. bind_ok Hrun rows' Hrows. injection Hrun as <-.
    cbn [map fst snd rev]. rewrite last_cons.
    pose proof (viterbi_step_logvec self prev frame Hwf Hn Hprev Hframe) as Hrow.
    destruct (IH _ rows' Hrow Hrows d Hd) as [Hs1 Hscore].
    set (rtb := rev (map snd rows')) in *.
    set (s1 := walk_end rtb d) in *.
    rewrite walk_end_app, walk_traceback_app, rev_app_distr. cbn [rev app].
    fold s1. rewrite nth_map_seq by exact Hs1.
    set (row := pr_row self prev (seq 0 (_nstates self)) s1).
    assert (Hne : row <> []).
    { apply pr_row_nonempty. destruct (_nstates self); [lia|discriminate]. }
    assert (Hs0 : (argmax_or_zero row < _nstates self)%nat).
    { pose proof (np_argmax_bound row _ (np_argmax_nonempty row Hne)) as Hb.
      unfold row, pr_row in Hb. now rewrite length_map, length_seq in Hb. }
    split; [exact Hs0|].
    cbn [path_score_from]. rewrite <- Hscore. f_equal.
    rewrite (viterbi_row_entry self prev frame s1 Hframe Hs1). f_equal.
    fold row. rewrite <- (argmax_attains_max row Hne).
    + unfold row. now rewrite pr_row_entry.
    + now apply pr_row_notnan.
Qed.

Lemma clamp_nan : clamp NaN = NaN.
Proof. reflexivity. Qed.

Lemma clamp_notnan x : isnan x = false -> isnan (clamp x) = false.
Proof. unfold clamp. now destruct (fle x ZEROLOGPROB). Qed.

(** X16.  Without pruning [decode] returns a most likely state path:
    no path with one state per frame scores above the returned one.
    The score of a path is its joint log-probability with the
    observations; the comparison is made after the clamp of the lattice
    (scores at or below [ZEROLOGPROB] count as minus infinity, so that
    below that bound ties are broken by the lowest state index), and it
    holds for the scores themselves when the returned path scores above
    [ZEROLOGPROB]. *)
Theorem decode_unpruned_returns_a_best_path :
  forall (observations : Type)
         (_compute_log_likelihood : observations -> list (list float))
         (self : hmm) (obs : observations) (score : float) (path q : list nat),
    well_formed self ->
    frames_ok (_nstates self) (_compute_log_likelihood obs) ->
    decode _compute_log_likelihood self obs None NInf = Ok (score, path) ->
    List.length q = List.length (_compute_log_likelihood obs) ->
    Forall (fun s => (s < _nstates self)%nat) q ->
    let best := path_score self (_compute_log_likelihood obs) path in
    let other := path_score self (_compute_log_likelihood obs) q in
    fle (clamp other) (clamp best) = true
    /\ (fgt best ZEROLOGPROB = true -> fle other best = true).
Proof.
  intros observations cll self obs score path q Hwf Hframes Hrun Hlen Hq best other.
  unfold decode, _do_viterbi_pass in Hrun.
  bind_ok Hrun tables Htables. bind_ok Hrun s Hs. injection Hrun as _ <-.
  unfold viterbi_tables in Htables. subst best other.
  destruct (cll obs) as [|frame0 rest]; [discriminate|].
  bind_ok Htables rows Hrows. injection Htables as <-. cbn [fst snd] in *.
  inversion Hframes as [|? ? Hframe0 Hrest]; subst.
  destruct q as [|u0 u]; [discriminate|].
  inversion Hq as [|? ? Hu0 Hu]; subst.
  assert (Hn : (0 < _nstates self)%nat) by lia.
  set (row0 := vadd (_log_startprob self) frame0) in *.
  assert (Hrow0 : logvec (_nstates self) row0).
  { apply logvec_vadd; [apply Hwf|exact Hframe0]. }
  set (final := last (map fst rows) row0).
  assert (Hfinal : logvec (_nstates self) final).
  { destruct (viterbi_rows_unpruned self rest Hwf Hn Hrest row0 row0 Hrow0 Hrow0
                (vle_refl _ (proj2 Hrow0))) as (rows' & Hrows' & _ & Hlv & _).
    rewrite Hrows in Hrows'. injection Hrows' as <-.
    unfold final. destruct (map fst rows) as [|r rs] eqn:E; [exact Hrow0|].
    rewrite <- last_cons with (d := row0).
    apply last_nonempty_Forall; [discriminate|]. constructor; [exact Hrow0|exact Hlv]. }
  assert (Hlast : last (clamp_lattice (row0 :: map fst rows)) [] = map clamp final).
  { unfold clamp_lattice. change (@nil float) with (map clamp []).
    rewrite last_map. now rewrite last_cons. }
  rewrite Hlast in Hs.
  assert (Hentry : forall k, (k < _nstates self)%nat ->
                             vget row0 k
                             = fadd (vget (_log_startprob self) k) (vget frame0 k)).
  { intros k Hk. apply vget_vadd.
    - destruct Hwf as [[Hl _] _]. now rewrite Hl.
    - destruct Hframe0 as [Hl _]. now rewrite Hl. }
  (* the returned path *)
  assert (Hsn : (s < _nstates self)%nat).
  { apply np_argmax_bound in Hs. rewrite length_map in Hs.
    destruct Hfinal as [Hl _]. now rewrite Hl in Hs. }
  destruct (viterbi_rows_attained self rest Hwf Hn Hrest row0 rows Hrow0 Hrows s Hsn)
    as [Hs0 Hbest].
  cbn [rev]. rewrite walk_traceback_app, rev_app_distr. cbn [rev app].
  set (s0 := walk_end (rev (map snd rows)) s) in *.
  set (p := rev (walk_traceback (rev (map snd rows)) s)) in *.
  cbn [path_score]. rewrite <- (Hentry s0 Hs0), Hbest. fold final.
  (* any other path *)
  simpl in Hlen.
  assert (Hacc : logval (vget row0 u0)) by now apply (vget_logval _ _ _ Hrow0).
  destruct (viterbi_rows_upper self rest Hwf Hn Hrest row0 rows Hrow0 Hrows u
              (vget row0 u0) u0 Hacc Hu0 (fle_refl _ (logval_notnan _ Hacc))
              ltac:(lia) Hu) as [Hlv Hub].
  rewrite (Hentry u0 Hu0) in Hlv, Hub. fold final in Hub.
  set (other := path_score_from self
                  (fadd (vget (_log_startprob self) u0) (vget frame0 u0)) u0 rest u) in *.
  set (e := last u u0) in *.
  assert (He : (e < _nstates self)%nat).
  { unfold e. destruct u as [|u1 u']; [exact Hu0|].
    rewrite <- last_cons with (d := u0). 
    apply (last_nonempty_Forall (fun k => (k < _nstates self)%nat)); [discriminate|].
    constructor; [exact Hu0|exact Hu]. }
  assert (Hfe : logval (vget final e)) by now apply (vget_logval _ _ _ Hfinal).
  assert (Hfs : logval (vget final s)) by now apply (vget_logval _ _ _ Hfinal).
  assert (Hcl : forall k, vget (map clamp final) k = clamp (vget final k)).
  { intros k. unfold vget. now apply nth_map_default. }
  assert (Hmax : fle (clamp (vget final e)) (clamp (vget final s)) = true).
  { assert (Hne : map clamp final <> []).
    { destruct Hfinal as [Hl _]. destruct final; [simpl in Hl; lia|discriminate]. }
    assert (Hnn : Forall (fun x => isnan x = false) (map clamp final)).
    { apply (proj2 (Forall_map _ _ _)). destruct Hfinal as [_ Hlv'].
      revert Hlv'. apply Forall_impl. intros x Hx.
      apply clamp_notnan. now apply logval_notnan. }
    rewrite (np_argmax_nonempty _ Hne) in Hs. injection Hs as Hs.
    rewrite <- !Hcl.
    replace (vget (map clamp final) s) with (max_or_nan (map clamp final))
      by (rewrite <- Hs; symmetry; apply (argmax_attains_max _ Hne Hnn)).
    apply max_or_nan_upper; [exact Hnn|]. apply nth_In.
    rewrite length_map. destruct Hfinal as [Hl _]. now rewrite Hl. }
  assert (Hgoal : fle (clamp other) (clamp (vget final s)) = true).
  { eapply fle_trans; [|exact Hmax]. now apply clamp_mono. }
  split; [exact Hgoal|].
  intros Hgt. unfold fgt in Hgt.
  assert (Hcs : clamp (vget final s) = vget final s).
  { unfold clamp. now rewrite (flt_true_fle_false _ _ Hgt). }
  rewrite Hcs in Hgoal. unfold clamp in Hgoal.
  destruct (fle other ZEROLOGPROB) eqn:Eo; [|exact Hgoal].
  eapply fle_trans; [exact Eo|].
  destruct (vget final s); simpl in Hgt |- *; try congruence.
  unfold ZEROLOGPROB in *. cbn in *. apply Rltb_spec in Hgt. apply Rleb_true. lra.
Qed.

Lemma uniform2_decode_unpruned :
  exists score,
    decode (fun o : list (list float) => o) uniform2
           [[Fin (-1); Fin 0]; [Fin 0; Fin 0]] None NInf
    = Ok (score, [1; 0]%nat).
Proof.
  pose proof ln2_bounds as HL.
  unfold decode, _do_viterbi_pass, viterbi_tables. cbn [viterbi_rows].
  unfold viterbi_step.
  rewrite prune_states_default by (cbn; repeat constructor).
  unfold clamp_lattice, clamp, ZEROLOGPROB. reval.
  eexists. reflexivity.
Qed.

Lemma decode_unpruned_returns_a_best_path_witness :
  let obs := [[Fin (-1); Fin 0]; [Fin 0; Fin 0]] in
  well_formed uniform2
  /\ frames_ok 2 obs
  /\ exists score,
       decode (fun o : list (list float) => o) uniform2 obs None NInf
       = Ok (score, [1; 0]%nat)
       /\ fle (clamp (path_score uniform2 obs [0; 0]%nat))
              (clamp (path_score uniform2 obs [1; 0]%nat)) = true.
Proof.
  intros obs.
  assert (Hf : frames_ok 2 obs) by repeat constructor.
  split; [exact uniform2_well_formed|]. split; [exact Hf|].
  destruct uniform2_decode_unpruned as [score Hd].
  exists score. split; [exact Hd|].
  apply (decode_unpruned_returns_a_best_path (list (list float)) (fun o => o) uniform2
           obs score [1; 0]%nat [0; 0]%nat uniform2_well_formed Hf Hd eq_refl).
  repeat constructor.
Defined.

(** ** Pruning and the likelihood *)
















(** ** The checks of the constructor *)

(** X19.  The constructor checks its arguments in a fixed order and
    raises the error of the first check that fails: the length of
    [startprob], its sum, the shape of [transmat], the sums of its
    rows, and the emission type of the trainer.  When all five hold it
    returns the object that holds the logarithms of the arguments in
    two new arrays, the labels (by default [[None] * nstates]) and the
    trainer. *)
Theorem constructor_raises_the_first_failed_check :
  forall (eps : R) (h : list ndarray) (etype : string) (n : nat)
         (startprob : list float) (transmat : list (list float))
         (labels : option (list (option string))) (t : trainer_obj),
    let r := __init__ eps h etype n (Some startprob) (Some transmat) labels t in
    let startprob_sums := almost_equal eps (np_sum startprob) (Fin 1) in
    (List.length startprob <> n ->
     r = Err (ValueError "startprob must have length nstates"))
    /\ (List.length startprob = n -> startprob_sums = false ->
        r = Err (ValueError "startprob must sum to 1.0"))
    /\ (List.length startprob = n -> startprob_sums = true ->
        has_shape transmat n = false ->
        r = Err (ValueError "transmat must have shape (nstates, nstates)"))
    /\ (List.length startprob = n -> startprob_sums = true ->
        has_shape transmat n = true -> rows_sum_to_one eps transmat = false ->
        r = Err (ValueError "each row of transmat must sum to 1.0"))
    /\ (List.length startprob = n -> startprob_sums = true ->
        has_shape transmat n = true -> rows_sum_to_one eps transmat = true ->
        etype <> trainer_emission_type t ->
        r = Err (ValueError "trainer has incompatible emission_type"))
    /\ (List.length startprob = n -> startprob_sums = true ->
        has_shape transmat n = true -> rows_sum_to_one eps transmat = true ->
        etype = trainer_emission_type t ->
        r = Ok (constructed h etype n startprob transmat labels t)).
Proof.
  intros eps h etype n startprob transmat labels t r startprob_sums.
  subst r startprob_sums. rewrite init_result.
  repeat apply conj.
  - intros Hl. apply Nat.eqb_neq in Hl. now rewrite Hl.
  - intros Hl Hs. apply Nat.eqb_eq in Hl. now rewrite Hl, Hs.
  - intros Hl Hs Hshape. apply Nat.eqb_eq in Hl. now rewrite Hl, Hs, Hshape.
  - intros Hl Hs Hshape Hrows. apply Nat.eqb_eq in Hl.
    now rewrite Hl, Hs, Hshape, Hrows.
  - intros Hl Hs Hshape Hrows Het. apply Nat.eqb_eq in Hl.
    apply String.eqb_neq in Het. now rewrite Hl, Hs, Hshape, Hrows, Het.
  - intros Hl Hs Hshape Hrows Het. apply Nat.eqb_eq in Hl.
    apply String.eqb_eq in Het. now rewrite Hl, Hs, Hshape, Hrows, Het.
Qed.

(** ** A beam threshold above the maximum *)

Lemma nonzero_from_none p a :
  forall i, Forall (fun x => p x = false) a -> nonzero_from p a i = [].
Proof.
  intros i Ha. revert i. induction Ha as [|x a Hx Ha IH]; intros i; [reflexivity|].
  cbn [nonzero_from]. rewrite Hx. apply IH.
Qed.

Lemma fmaximum_notnan x y :
  isnan (fmaximum x y) = false -> isnan x = false /\ isnan y = false.
Proof.
  unfold fmaximum. destruct (isnan x) eqn:Ex; [intros H; rewrite H in Ex; discriminate|].
  destruct (isnan y) eqn:Ey; [intros H; rewrite H in Ey; discriminate|].
  intros _. split; reflexivity.
Qed.

(** A maximum that is not NaN is the maximum of values that are not
    NaN. *)
Lemma fold_fmaximum_notnan a :
  forall init,
    isnan (fold_left fmaximum a init) = false ->
    isnan init = false /\ Forall (fun e => isnan e = false) a.
Proof.
  induction a as [|x a IH]; intros init H; cbn [fold_left] in H.
  - split; [exact H|constructor].
  - destruct (IH _ H) as [Hm Ha]. destruct (fmaximum_notnan _ _ Hm) as [Hi Hx].
    split; [exact Hi|now constructor].
Qed.

Lemma flt_notnan x y : flt x y = true -> isnan x = false.
Proof. destruct x, y; cbn; congruence. Qed.

(** No entry of a frame reaches a threshold that lies above the maximum
    of the frame. *)
Lemma threshold_above_maximum frame mx t :
  np_max frame = Ok mx -> fgt t mx = true ->
  Forall (fun x => fge x t = false) frame.
Proof.
  intros Hmx Hgt. unfold fgt in Hgt.
  pose proof (flt_notnan _ _ Hgt) as Hnan.
  destruct (np_max_spec frame mx Hmx) as [_ Hub].
  assert (Hnn : Forall (fun e => isnan e = false) frame).
  { destruct frame as [|x rest]; [constructor|].
    cbn in Hmx. injection Hmx as <-.
    destruct (fold_fmaximum_notnan rest x Hnan) as [Hx Hrest]. now constructor. }
  specialize (Hub Hnn). rewrite Forall_forall in Hub |- *. intros x Hx.
  unfold fge. destruct (fle t x) eqn:E; [|reflexivity].
  pose proof (fle_trans _ _ _ E (Hub x Hx)) as Hle.
  rewrite (flt_true_fle_false _ _ Hgt) in Hle. discriminate.
Qed.

(** X20.  [beamlogprob] is added to [logsum] of the frame.  When the
    sum lies above the maximum of the frame (as it does on the uniform
    two-state model for [beamlogprob = 10]), [_prune_states] without
    rank pruning returns no active state at all, and with a second
    frame to process [decode] raises [ValueError] (the maximum of an
    empty selection). *)
Theorem threshold_above_maximum_prunes_every_state :
  forall (observations : Type)
         (_compute_log_likelihood : observations -> list (list float))
         (self : hmm) (obs : observations) (maxrank : option Z) (beamlogprob : float)
         (frame0 frame1 : list float) (rest : list (list float)) (mx : float),
    well_formed self ->
    frames_ok (_nstates self) (_compute_log_likelihood obs) ->
    _compute_log_likelihood obs = frame0 :: frame1 :: rest ->
    truthy maxrank = false ->
    np_max (vadd (_log_startprob self) frame0) = Ok mx ->
    fgt (fadd (logsum (vadd (_log_startprob self) frame0)) beamlogprob) mx = true ->
    _prune_states self (vadd (_log_startprob self) frame0) maxrank beamlogprob = Ok []
    /\ exists msg,
         decode _compute_log_likelihood self obs maxrank beamlogprob
         = Err (ValueError msg).
Proof.
  intros observations cll self obs maxrank beam frame0 frame1 rest mx
         Hwf Hframes Hobs Hrank Hmx Hgt.
  rewrite Hobs in Hframes.
  inversion Hframes as [|? ? Hframe0 Hrest0]; subst.
  set (row0 := vadd (_log_startprob self) frame0) in *.
  assert (Hrow0 : logvec (_nstates self) row0).
  { apply logvec_vadd; [apply Hwf|exact Hframe0]. }
  assert (Hprune : _prune_states self row0 maxrank beam = Ok []).
  { unfold _prune_states. rewrite Hrank. cbn [bind]. f_equal.
    exact (nonzero_from_none _ row0 0 (threshold_above_maximum _ _ _ Hmx Hgt)). }
  assert (Hn : (0 < _nstates self)%nat).
  { destruct Hrow0 as [Hl _]. rewrite <- Hl.
    destruct row0; [discriminate|simpl; lia]. }
  split; [exact Hprune|].
  unfold decode, _do_viterbi_pass, viterbi_tables. rewrite Hobs. fold row0.
  cbn [viterbi_rows]. unfold viterbi_step. rewrite Hprune. cbn [bind].
  destruct (_nstates self) as [|n]; [lia|].
  cbn [seq mapM pr_row map np_max bind]. eexists. reflexivity.
Qed.

Lemma threshold_above_maximum_prunes_every_state_witness :
  let obs := [[Fin 0; Fin 0]; [Fin 0; Fin 0]] in
  let row0 := vadd (_log_startprob uniform2) [Fin 0; Fin 0] in
  well_formed uniform2
  /\ frames_ok 2 obs
  /\ truthy None = false
  /\ np_max row0 = Ok (Fin (- ln 2 + 0))
  /\ fgt (fadd (logsum row0) (Fin 10)) (Fin (- ln 2 + 0)) = true
  /\ _prune_states uniform2 row0 None (Fin 10) = Ok []
  /\ exists msg,
       decode (fun o : list (list float) => o) uniform2 obs None (Fin 10)
       = Err (ValueError msg).
Proof.
  intros obs row0.
  assert (Hf : frames_ok 2 obs) by repeat constructor.
  assert (Hrow : row0 = [Fin (- ln 2 + 0); Fin (- ln 2 + 0)]) by reflexivity.
  assert (Hmx : np_max row0 = Ok (Fin (- ln 2 + 0))).
  { rewrite Hrow. cbn [np_max fold_left]. unfold fmaximum. cbn [isnan fle].
    rewrite Rleb_true by lra. reflexivity. }
  assert (Hgt : fgt (fadd (logsum row0) (Fin 10)) (Fin (- ln 2 + 0)) = true).
  { assert (Hlv : Forall logval row0) by (rewrite Hrow; repeat constructor).
    assert (Hin : In (Fin (- ln 2 + 0)) row0) by (rewrite Hrow; now left).
    pose proof (expsum_ge_in row0 _ Hin) as Hge.
    pose proof (exp_pos (- ln 2 + 0)) as Hpos.
    destruct (logsum_spec row0 Hlv) as [[Hz _]|[_ E]]; [lra|].
    rewrite E. cbn [fadd]. unfold fgt. cbn [flt]. apply Rltb_true.
    pose proof (ln_le _ _ Hpos Hge) as Hln. rewrite ln_exp in Hln. lra. }
  split; [exact uniform2_well_formed|]. split; [exact Hf|].
  split; [reflexivity|]. split; [exact Hmx|]. split; [exact Hgt|].
  exact (threshold_above_maximum_prunes_every_state (list (list float)) (fun o => o)
           uniform2 obs None (Fin 10) [Fin 0; Fin 0] [Fin 0; Fin 0] [] _
           uniform2_well_formed Hf eq_refl eq_refl Hmx Hgt).
Defined.

(** ** The likelihood as a sum over all state paths *)




















